(** * Adaptive assessment engine: scoring, parsing and session logic

    Shallow embedding of the scoring and parsing core of the "ProgreTest
    Engine" (app.py, llm_handler.py, report_generator.py) and of the
    quick-revision endpoint of snap_learn.py.

    Conventions of the embedding:
    - Python [int] is [Z]; Python [str] is a list of Unicode code points
      ([text] below); a Rocq string literal is turned into a text with
      [cps], one code point per byte.
    - A raised exception is an explicit error value.
    - The Streamlit session is a record; one run of the script triggered
      by a user interaction is a function from session to session. *)

From Stdlib Require Import String Ascii ZArith List Bool Lia QArith Qpower Lqa Sorted Permutation.
From Stdlib Require Import Floats.SpecFloat.
Import ListNotations.
Open Scope Z_scope.
Set Warnings "-register-all".

(* ------------------------------------------------------------------ *)
(** ** Texts *)

Definition text := list Z.

Fixpoint cps (s : string) : text :=
  match s with
  | EmptyString => []
  | String c s' => Z.of_nat (nat_of_ascii c) :: cps s'
  end.

Fixpoint text_eqb (a b : text) : bool :=
  match a, b with
  | [], [] => true
  | x :: a', y :: b' => (x =? y) && text_eqb a' b'
  | _, _ => false
  end.


(* ------------------------------------------------------------------ *)
(** ** app.py: [calculate_adaptive_difficulty] *)

(** [performance_window[-3:]]: the last three entries (all of them when
    the window is shorter). *)
Definition last3 {A} (w : list A) : list A :=
  skipn (length w - 3) w.

Definition sum_Z (l : list Z) : Z := fold_right Z.add 0 l.

Definition calculate_adaptive_difficulty
  (performance_window : list Z) (current_difficulty : Z) : Z :=
  if (length performance_window <? 3)%nat then current_difficulty
  else
    let recent := last3 performance_window in
    let correct_count := sum_Z recent in
    if (correct_count >=? 2) && (current_difficulty <? 3)
    then current_difficulty + 1
    else if (correct_count <=? 1) && (current_difficulty >? 1)
    then current_difficulty - 1
    else current_difficulty.

(** Repeated use: each step appends a chunk of results to the window and
    recomputes the difficulty from the extended window. *)
Fixpoint iterate_difficulty (w : list Z) (c : Z) (chunks : list (list Z))
  : list Z * Z :=
  match chunks with
  | [] => (w, c)
  | ch :: rest =>
      let w' := w ++ ch in
      iterate_difficulty w' (calculate_adaptive_difficulty w' c) rest
  end.

Definition bit (b : bool) : Z := if b then 1 else 0.

(* ------------------------------------------------------------------ *)
(** ** Python regular expressions (the fragment llm_handler.py uses)

    A backtracking matcher in continuation-passing style, as the [re]
    engine runs: [re_match r s g k] matches [r] at the front of [s] with
    capture [g] so far and hands the remaining input and the capture to
    [k]; the first success in backtracking order wins. *)

(** [str.isspace] / [\s] on Unicode code points. *)
Definition py_isspace (c : Z) : bool :=
  ((9 <=? c) && (c <=? 13)) || ((28 <=? c) && (c <=? 32)) ||
  (c =? 133) || (c =? 160) || (c =? 5760) ||
  ((8192 <=? c) && (c <=? 8202)) || (c =? 8232) || (c =? 8233) ||
  (c =? 8239) || (c =? 8287) || (c =? 12288).

Inductive regex :=
| REmpty
| RClass (p : Z -> bool)                 (* one character of a class *)
| RSeq (r1 r2 : regex)
| ROpt (r : regex)                       (* r?, greedy *)
| RStar (greedy : bool) (p : Z -> bool)  (* [class]* or [class]*? *)
| RGroup (r : regex).                    (* the one capturing group *)

Fixpoint re_match (r : regex) (s : text) (g : option text)
  (k : text -> option text -> option (option text)) {struct r}
  : option (option text) :=
  match r with
  | REmpty => k s g
  | RClass p =>
      match s with
      | c :: s' => if p c then k s' g else None
      | [] => None
      end
  | RSeq r1 r2 => re_match r1 s g (fun s' g' => re_match r2 s' g' k)
  | ROpt r1 =>
      match re_match r1 s g k with
      | Some x => Some x
      | None => k s g
      end
  | RStar greedy p =>
      (fix star (s : text) : option (option text) :=
         if greedy then
           match (match s with
                  | c :: s' => if p c then star s' else None
                  | [] => None
                  end) with
           | Some x => Some x
           | None => k s g
           end
         else
           match k s g with
           | Some x => Some x
           | None =>
               match s with
               | c :: s' => if p c then star s' else None
               | [] => None
               end
           end) s
  | RGroup r1 =>
      re_match r1 s g
        (fun s' _ => k s' (Some (firstn (List.length s - List.length s') s)))
  end.

(** [re.search]: try each start position from the left, the end of the
    text included; the result is the capture of the first match. *)
Fixpoint re_search (r : regex) (t : text) : option (option text) :=
  match re_match r t None (fun _ g => Some g) with
  | Some x => Some x
  | None =>
      match t with
      | [] => None
      | _ :: t' => re_search r t'
      end
  end.

Fixpoint rlit (l : text) : regex :=
  match l with
  | [] => REmpty
  | c :: l' => RSeq (RClass (Z.eqb c)) (rlit l')
  end.

Definition any_char (_ : Z) : bool := true.

(** [r'```(?:json)?\s*([\s\S]*?)\s*```'] *)
Definition fence_re : regex :=
  RSeq (rlit (cps "```"))
    (RSeq (ROpt (rlit (cps "json")))
       (RSeq (RStar true py_isspace)
          (RSeq (RGroup (RStar false any_char))
             (RSeq (RStar true py_isspace) (rlit (cps "```")))))).

(** [r'\{[\s\S]*\}'], with group 0 (the whole match) as the capture. *)
Definition brace_re : regex :=
  RGroup (RSeq (RClass (Z.eqb 123))
            (RSeq (RStar true any_char) (RClass (Z.eqb 125)))).

(** [json_match.group(1)] of the fenced-block search. *)
Definition fenced_block (t : text) : option text :=
  match re_search fence_re t with
  | Some (Some g) => Some g
  | _ => None
  end.

(** [json_match.group(0)] of the brace search. *)
Definition brace_span (t : text) : option text :=
  match re_search brace_re t with
  | Some (Some g) => Some g
  | _ => None
  end.

(* ------------------------------------------------------------------ *)
(** ** [json.loads] (CPython's scanner, strict mode)

    Numbers keep their decimal value: an integer literal is [JInt z]; a
    literal with a fraction or an exponent is [JFloat m e], the decimal
    [m * 10^e] that Python then rounds to a binary64 float.  Objects keep
    their keys in first-insertion order with the last value of a repeated
    key, as [dict] does.  The interpreter's recursion limit and the limit
    on the digits of an integer are not modelled. *)

Inductive json :=
| JNull
| JBool (b : bool)
| JInt (z : Z)
| JFloat (m e : Z)
| JNaN
| JInf (neg : bool)
| JStr (s : text)
| JArr (l : list json)
| JObj (fields : list (text * json)).

Definition json_ws (c : Z) : bool :=
  (c =? 32) || (c =? 9) || (c =? 10) || (c =? 13).

(** [WHITESPACE.match(s, idx).end()] *)
Fixpoint skip_ws (s : text) : text :=
  match s with
  | c :: s' => if json_ws c then skip_ws s' else s
  | [] => []
  end.

Definition hex_val (c : Z) : option Z :=
  if (48 <=? c) && (c <=? 57) then Some (c - 48)
  else if (65 <=? c) && (c <=? 70) then Some (c - 55)
  else if (97 <=? c) && (c <=? 102) then Some (c - 87)
  else None.

Definition hex4 (a b c d : Z) : option Z :=
  match hex_val a, hex_val b, hex_val c, hex_val d with
  | Some x1, Some x2, Some x3, Some x4 =>
      Some (((x1 * 16 + x2) * 16 + x3) * 16 + x4)
  | _, _, _, _ => None
  end.

(** The one-character escapes: a backslash followed by a double quote, a
    backslash, a slash, or one of b, f, n, r, t. *)
Definition esc_char (e : Z) : option Z :=
  if e =? 34 then Some 34
  else if e =? 92 then Some 92
  else if e =? 47 then Some 47
  else if e =? 98 then Some 8
  else if e =? 102 then Some 12
  else if e =? 110 then Some 10
  else if e =? 114 then Some 13
  else if e =? 116 then Some 9
  else None.

Definition is_high_surrogate (u : Z) : bool := (55296 <=? u) && (u <=? 56319).
Definition is_low_surrogate (u : Z) : bool := (56320 <=? u) && (u <=? 57343).

(** [scanstring]: the body of a string literal after its opening quote;
    [acc] holds the decoded characters in reverse. *)
Fixpoint scan_string (s : text) (acc : text) {struct s} : option (text * text) :=
  match s with
  | [] => None
  | c :: rest =>
      if c =? 34 then Some (rev acc, rest)
      else if c =? 92 then
        match rest with
        | [] => None
        | e :: rest1 =>
            if e =? 117 then
              match rest1 with
              | a :: b :: c1 :: d :: rest2 =>
                  match hex4 a b c1 d with
                  | None => None
                  | Some u =>
                      if is_high_surrogate u then
                        match rest2 with
                        | x :: y :: rest3 =>
                            if (x =? 92) && (y =? 117) then
                              match rest3 with
                              | a2 :: b2 :: c2 :: d2 :: rest4 =>
                                  match hex4 a2 b2 c2 d2 with
                                  | None => None
                                  | Some u2 =>
                                      if is_low_surrogate u2 then
                                        scan_string rest4
                                          (65536 + Z.lor (Z.shiftl (u - 55296) 10)
                                                          (u2 - 56320) :: acc)
                                      else scan_string rest2 (u :: acc)
                                  end
                              | _ => None
                              end
                            else scan_string rest2 (u :: acc)
                        | _ => scan_string rest2 (u :: acc)
                        end
                      else scan_string rest2 (u :: acc)
                  end
              | _ => None
              end
            else
              match esc_char e with
              | Some ch => scan_string rest1 (ch :: acc)
              | None => None
              end
        end
      else if c <=? 31 then None
      else scan_string rest (c :: acc)
  end.

Definition is_digit (c : Z) : bool := (48 <=? c) && (c <=? 57).

Fixpoint span_digits (s : text) : text * text :=
  match s with
  | c :: s' =>
      if is_digit c then let (ds, r) := span_digits s' in (c :: ds, r)
      else ([], s)
  | [] => ([], [])
  end.

Definition digits_value (ds : text) : Z :=
  fold_left (fun acc c => acc * 10 + (c - 48)) ds 0.

(** [_match_number]: an optional minus, then 0 or a nonzero digit and
    digits, then optionally a dot and at least one digit, then optionally
    e or E, an optional sign and at least one digit. *)
Definition parse_number (s : text) : option (json * text) :=
  let '(neg, s1) :=
    match s with
    | c :: r => if c =? 45 then (true, r) else (false, s)
    | [] => (false, s)
    end in
  let int_part :=
    match s1 with
    | c :: r =>
        if c =? 48 then Some ([c], r)
        else if (49 <=? c) && (c <=? 57) then
          let (ds, r') := span_digits r in Some (c :: ds, r')
        else None
    | [] => None
    end in
  match int_part with
  | None => None
  | Some (ip, r1) =>
      let '(frac, r2) :=
        match r1 with
        | dot :: d :: r =>
            if (dot =? 46) && is_digit d then
              let (fs, r') := span_digits r in (Some (d :: fs), r')
            else (None, r1)
        | _ => (None, r1)
        end in
      let '(ex, r3) :=
        match r2 with
        | e :: r =>
            if (e =? 101) || (e =? 69) then
              let '(eneg, r') :=
                match r with
                | sg :: r'' =>
                    if sg =? 45 then (true, r'')
                    else if sg =? 43 then (false, r'')
                    else (false, r)
                | [] => (false, r)
                end in
              let (es, r'') := span_digits r' in
              match es with
              | [] => (None, r2)
              | _ => (Some (if eneg then - digits_value es else digits_value es), r'')
              end
            else (None, r2)
        | [] => (None, r2)
        end in
      let sgn (z : Z) := if neg then - z else z in
      match frac, ex with
      | None, None => Some (JInt (sgn (digits_value ip)), r3)
      | _, _ =>
          let fs := match frac with Some f => f | None => [] end in
          let ev := match ex with Some v => v | None => 0 end in
          Some (JFloat (sgn (digits_value (ip ++ fs))) (ev - Z.of_nat (List.length fs)), r3)
      end
  end.

(** [prefix p s]: [s] starts with [p]; returns the rest. *)
Fixpoint strip_prefix (p s : text) : option text :=
  match p, s with
  | [], _ => Some s
  | x :: p', y :: s' => if x =? y then strip_prefix p' s' else None
  | _ :: _, [] => None
  end.

(** [d[k] = v] on a dict kept as an association list in insertion order. *)
Fixpoint dict_set {A} (d : list (text * A)) (k : text) (v : A) : list (text * A) :=
  match d with
  | [] => [(k, v)]
  | (k', v') :: d' =>
      if text_eqb k k' then (k, v) :: d' else (k', v') :: dict_set d' k v
  end.

Fixpoint dict_get {A} (d : list (text * A)) (k : text) : option A :=
  match d with
  | [] => None
  | (k', v) :: d' => if text_eqb k k' then Some v else dict_get d' k
  end.

(** [scan_once] with the object and array parsers.  [fuel] bounds the
    nesting of calls; [json_loads] gives one unit per input character,
    and every call consumes at least one. *)
Fixpoint parse_value (fuel : nat) (s : text) {struct fuel} : option (json * text) :=
  match fuel with
  | O => None
  | S f =>
      match s with
      | [] => None
      | c :: r =>
          if c =? 34 then
            match scan_string r [] with
            | Some (t, r') => Some (JStr t, r')
            | None => None
            end
          else if c =? 123 then
            match skip_ws r with
            | c' :: r' => if c' =? 125 then Some (JObj [], r')
                          else parse_members f (c' :: r') []
            | [] => None
            end
          else if c =? 91 then
            match skip_ws r with
            | c' :: r' => if c' =? 93 then Some (JArr [], r')
                          else parse_elems f (c' :: r') []
            | [] => None
            end
          else
            match strip_prefix (cps "null") s with
            | Some r' => Some (JNull, r')
            | None =>
            match strip_prefix (cps "true") s with
            | Some r' => Some (JBool true, r')
            | None =>
            match strip_prefix (cps "false") s with
            | Some r' => Some (JBool false, r')
            | None =>
            match strip_prefix (cps "NaN") s with
            | Some r' => Some (JNaN, r')
            | None =>
            match strip_prefix (cps "Infinity") s with
            | Some r' => Some (JInf false, r')
            | None =>
            match strip_prefix (cps "-Infinity") s with
            | Some r' => Some (JInf true, r')
            | None => parse_number s
            end end end end end end
      end
  end
(** Members of an object, from a key; [acc] is the dict built so far. *)
with parse_members (fuel : nat) (s : text) (acc : list (text * json))
  {struct fuel} : option (json * text) :=
  match fuel with
  | O => None
  | S f =>
      match s with
      | c :: r =>
          if c =? 34 then
            match scan_string r [] with
            | None => None
            | Some (k, r1) =>
                match skip_ws r1 with
                | c1 :: r2 =>
                    if c1 =? 58 then
                      match parse_value f (skip_ws r2) with
                      | None => None
                      | Some (v, r3) =>
                          let acc' := dict_set acc k v in
                          match skip_ws r3 with
                          | c3 :: r4 =>
                              if c3 =? 125 then Some (JObj acc', r4)
                              else if c3 =? 44 then parse_members f (skip_ws r4) acc'
                              else None
                          | [] => None
                          end
                      end
                    else None
                | [] => None
                end
            end
          else None
      | [] => None
      end
  end
(** Elements of an array; [acc] holds them in reverse. *)
with parse_elems (fuel : nat) (s : text) (acc : list json)
  {struct fuel} : option (json * text) :=
  match fuel with
  | O => None
  | S f =>
      match parse_value f s with
      | None => None
      | Some (v, r1) =>
          match skip_ws r1 with
          | c :: r2 =>
              if c =? 93 then Some (JArr (rev (v :: acc)), r2)
              else if c =? 44 then parse_elems f (skip_ws r2) (v :: acc)
              else None
          | [] => None
          end
      end
  end.

(** [json.loads(s)]; [None] is a [JSONDecodeError]. *)
Definition json_loads (t : text) : option json :=
  match t with
  | c :: _ => if c =? 65279 then None else
      let s := skip_ws t in
      match parse_value (S (List.length s)) s with
      | Some (v, r) => match skip_ws r with [] => Some v | _ => None end
      | None => None
      end
  | [] => None
  end.

(* ------------------------------------------------------------------ *)
(** ** llm_handler.py: [AdaptiveLLM._parse_json_response] *)

Inductive py_exn :=
| ValueError (msg : text)
| TypeError (msg : text)
| AttributeError (msg : text)
| HTTPException (status : Z) (detail : text).

Definition parse_json_response (response_text : text) : py_exn + json :=
  match json_loads response_text with
  | Some v => inr v
  | None =>
      let attempt2 :=
        match fenced_block response_text with
        | Some g => json_loads g
        | None => None
        end in
      match attempt2 with
      | Some v => inr v
      | None =>
          let attempt3 :=
            match brace_span response_text with
            | Some g => json_loads g
            | None => None
            end in
          match attempt3 with
          | Some v => inr v
          | None => inl (ValueError (cps "Could not parse JSON from response"))
          end
      end
  end.

Definition nl : text := [10].

(* ------------------------------------------------------------------ *)
(** ** Python truthiness of a parsed JSON value

    A float literal is false exactly when it rounds to zero: a nonzero
    decimal [m * 10^e] rounds to 0.0 when its magnitude is at most
    [2^-1075] (half the least subnormal, ties to even). *)
Definition json_truthy (v : json) : bool :=
  match v with
  | JNull => false
  | JBool b => b
  | JInt z => negb (z =? 0)
  | JFloat m e =>
      negb (m =? 0) &&
      ((0 <=? e) || (Z.abs m * 2 ^ 1075 >? 10 ^ (- e)))
  | JNaN => true
  | JInf _ => true
  | JStr s => match s with [] => false | _ => true end
  | JArr l => match l with [] => false | _ => true end
  | JObj f => match f with [] => false | _ => true end
  end.

(* ------------------------------------------------------------------ *)
(** ** llm_handler.py: [AdaptiveLLM.generate_question]

    The dict returned by [generate_question] always carries the integer
    keys "difficulty" and "difficulty_name" written last; the record keeps
    them apart from the other keys, so that [q_fields] holds every other
    key with its value. *)

Record qdict := {
  q_fields : list (text * json);
  q_difficulty : Z;
  q_difficulty_name : text
}.

(** [question.get(key, default)] for the keys other than "difficulty". *)
Definition qget (q : qdict) (key : text) (default : json) : json :=
  match dict_get (q_fields q) key with
  | Some v => v
  | None => default
  end.

Fixpoint dict_del {A} (d : list (text * A)) (k : text) : list (text * A) :=
  match d with
  | [] => []
  | (k', v) :: d' => if text_eqb k k' then d' else (k', v) :: dict_del d' k
  end.

(** The reply of a model call: its text, or the message of the exception
    the call raised. *)
Inductive chat_outcome :=
| ChatOk (reply : text)
| ChatFail (error_msg : text).

(** [DIFFICULTY_LEVELS.get(difficulty, "medium")] *)
Definition difficulty_name_of (difficulty : Z) : text :=
  if difficulty =? 1 then cps "easy"
  else if difficulty =? 2 then cps "medium"
  else if difficulty =? 3 then cps "hard"
  else cps "medium".

Definition exn_str (e : py_exn) : text :=
  match e with
  | ValueError m | TypeError m | AttributeError m => m
  | HTTPException _ d => d
  end.

(** The [TypeError] of [question_data["difficulty"] = difficulty] when the
    parsed value is not a dict. *)
Definition item_assignment_error (v : json) : text :=
  match v with
  | JArr _ => cps "list indices must be integers or slices, not str"
  | JStr _ => cps "'str' object does not support item assignment"
  | JInt _ => cps "'int' object does not support item assignment"
  | JFloat _ _ | JNaN | JInf _ => cps "'float' object does not support item assignment"
  | JBool _ => cps "'bool' object does not support item assignment"
  | JNull => cps "'NoneType' object does not support item assignment"
  | JObj _ => []
  end.

(** The error record of the [except] branch. *)
Definition error_question (error_msg : text) (difficulty : Z) : qdict := {|
  q_fields := [
    (cps "question", JStr (cps "Error: " ++ error_msg));
    (cps "options", JObj [(cps "A", JStr (cps "Option A"));
                          (cps "B", JStr (cps "Option B"));
                          (cps "C", JStr (cps "Option C"));
                          (cps "D", JStr (cps "Option D"))]);
    (cps "correct_answer", JStr (cps "A"));
    (cps "explanation", JStr (cps "Error details: " ++ error_msg));
    (cps "topic", JStr (cps "Unknown"));
    (cps "error", JBool true);
    (cps "error_message", JStr error_msg)];
  q_difficulty := difficulty;
  q_difficulty_name := difficulty_name_of difficulty |}.

(** The prompt is built from the content and the asked questions; the
    model's reply to it is an input of the operation. *)
Definition generate_question (reply : chat_outcome) (difficulty : Z) : qdict :=
  match reply with
  | ChatFail msg => error_question msg difficulty
  | ChatOk response_text =>
      match parse_json_response response_text with
      | inl e => error_question (exn_str e) difficulty
      | inr (JObj fields) =>
          {| q_fields := dict_del (dict_del fields (cps "difficulty"))
                                  (cps "difficulty_name");
             q_difficulty := difficulty;
             q_difficulty_name := difficulty_name_of difficulty |}
      | inr v => error_question (item_assignment_error v) difficulty
      end
  end.

(* ------------------------------------------------------------------ *)
(** ** llm_handler.py: [AdaptiveLLM.evaluate_answer]

    A model call is an explicit effect: [Call prompt k] asks the model and
    continues with its reply (or the exception it raised). *)

Inductive chat_prog (A : Type) :=
| Ret (a : A)
| Call (prompt : text) (k : chat_outcome -> chat_prog A).
Arguments Ret {A} a.
Arguments Call {A} prompt k.

(** Runs a program against a model that answers each prompt. *)
Fixpoint run_chat {A} (model : text -> chat_outcome) (p : chat_prog A) : A :=
  match p with
  | Ret a => a
  | Call prompt k => run_chat model (k (model prompt))
  end.

Record feedback := {
  fb_is_correct : bool;
  fb_feedback : text;
  fb_suggestion : option text
}.

(** ["Correct! Well done! "] followed by the four characters of the
    source literal (U+00F0 U+0178 U+017D U+2030). *)
Definition correct_feedback : feedback := {|
  fb_is_correct := true;
  fb_feedback := cps "Correct! Well done! " ++ [240; 376; 381; 8240];
  fb_suggestion := None |}.

Definition dict_get_default {A} (d : list (text * A)) (k : text) (default : A) : A :=
  match dict_get d k with Some v => v | None => default end.

Section Evaluate.

(** [str.upper], Unicode's full case mapping. *)
Variable str_upper : text -> text.

Definition answer_is_correct (user_answer correct_answer : text) : bool :=
  text_eqb (str_upper user_answer) (str_upper correct_answer).

Definition feedback_prompt (question user_answer correct_answer : text)
  (options : list (text * text)) : text :=
  cps "The student answered a question incorrectly. Provide helpful, encouraging feedback."
  ++ nl ++ nl ++ cps "QUESTION: " ++ question ++ nl ++ nl
  ++ cps "STUDENT'S ANSWER: " ++ user_answer ++ cps " - "
  ++ dict_get_default options user_answer (cps "Unknown") ++ nl
  ++ cps "CORRECT ANSWER: " ++ correct_answer ++ cps " - "
  ++ dict_get_default options correct_answer (cps "Unknown") ++ nl ++ nl
  ++ cps "Provide a brief, encouraging explanation (2-3 sentences) of:" ++ nl
  ++ cps "1. Why the correct answer is right" ++ nl
  ++ cps "2. A tip to remember this concept" ++ nl ++ nl
  ++ cps "Keep it supportive and educational. Do not be discouraging.".

Definition evaluate_answer (question user_answer correct_answer : text)
  (options : list (text * text)) (content : text) : chat_prog feedback :=
  let is_correct := answer_is_correct user_answer correct_answer in
  if is_correct then Ret correct_feedback
  else
    Call (feedback_prompt question user_answer correct_answer options)
      (fun r =>
         match r with
         | ChatOk fb =>
             Ret {| fb_is_correct := false;
                    fb_feedback := fb;
                    fb_suggestion :=
                      Some (cps "Review the topic related to: "
                            ++ dict_get_default options correct_answer
                                 (cps "this concept")) |}
         | ChatFail _ =>
             Ret {| fb_is_correct := false;
                    fb_feedback :=
                      cps "The correct answer was " ++ correct_answer ++ cps ": "
                      ++ dict_get_default options correct_answer [];
                    fb_suggestion :=
                      Some (cps "Review this topic for better understanding.") |}
         end).

End Evaluate.

(** [str.upper] on ASCII letters, an instance used for concrete runs. *)
Definition ascii_upper (t : text) : text :=
  map (fun c => if (97 <=? c) && (c <=? 122) then c - 32 else c) t.

(* ------------------------------------------------------------------ *)
(** ** app.py: the session state and one run of the script

    The session keeps the keys of [st.session_state] that the assessment
    reads and writes; the API key, the LLM client, the PDF name and the
    last feedback (read only for display) are left out. *)

Record entry := {
  e_question : json;
  e_topic : json;
  e_difficulty : Z;
  e_user_answer : text;
  e_correct_answer : text;
  e_is_correct : bool;
  e_explanation : json
}.

Record session := {
  pdf_content : option text;
  current_question : option qdict;
  questions_history : list entry;
  current_difficulty : Z;
  performance_window : list Z;
  assessment_started : bool;
  assessment_complete : bool;
  total_questions : Z;
  correct_answers : Z;
  asked_questions : list json;
  show_feedback : bool;
  max_difficulty_reached : Z
}.

(** [init_session_state] on a fresh session. *)
Definition initial_session : session := {|
  pdf_content := None;
  current_question := None;
  questions_history := [];
  current_difficulty := 1;
  performance_window := [];
  assessment_started := false;
  assessment_complete := false;
  total_questions := 0;
  correct_answers := 0;
  asked_questions := [];
  show_feedback := false;
  max_difficulty_reached := 1 |}.

(** One run of the script, named by the interaction that triggered it. *)
Inductive event :=
| Upload (extracted : option text)  (* a new PDF; [None]: extraction raised *)
| StartAssessment
| QuestionRun (reply : chat_outcome) (choice : nat) (submit try_again : bool)
| NextQuestion
| FinishAssessment
| NewAssessment.

(** The reset of a new upload (render_sidebar). *)
Definition upload_reset (s : session) (content : text) : session := {|
  pdf_content := Some content;
  current_question := current_question s;
  questions_history := [];
  current_difficulty := 1;
  performance_window := [];
  assessment_started := false;
  assessment_complete := false;
  total_questions := 0;
  correct_answers := 0;
  asked_questions := [];
  show_feedback := show_feedback s;
  max_difficulty_reached := 1 |}.

(** The reset of "Start New Assessment" (render_results). *)
Definition restart_reset (s : session) : session := {|
  pdf_content := pdf_content s;
  current_question := None;
  questions_history := [];
  current_difficulty := 1;
  performance_window := [];
  assessment_started := false;
  assessment_complete := false;
  total_questions := 0;
  correct_answers := 0;
  asked_questions := [];
  show_feedback := false;
  max_difficulty_reached := 1 |}.

Definition with_question (s : session) (q : option qdict) (asked : list json)
  : session := {|
  pdf_content := pdf_content s;
  current_question := q;
  questions_history := questions_history s;
  current_difficulty := current_difficulty s;
  performance_window := performance_window s;
  assessment_started := assessment_started s;
  assessment_complete := assessment_complete s;
  total_questions := total_questions s;
  correct_answers := correct_answers s;
  asked_questions := asked;
  show_feedback := show_feedback s;
  max_difficulty_reached := max_difficulty_reached s |}.

Definition with_flags (s : session) (started complete feedback_shown : bool)
  (q : option qdict) : session := {|
  pdf_content := pdf_content s;
  current_question := q;
  questions_history := questions_history s;
  current_difficulty := current_difficulty s;
  performance_window := performance_window s;
  assessment_started := started;
  assessment_complete := complete;
  total_questions := total_questions s;
  correct_answers := correct_answers s;
  asked_questions := asked_questions s;
  show_feedback := feedback_shown;
  max_difficulty_reached := max_difficulty_reached s |}.

(** The "Submit Answer" branch of [render_question], from "Update stats"
    to [show_feedback = True]. *)
Definition record_answer (s : session) (q : qdict) (answer correct : text)
  (is_correct : bool) : session :=
  let window := performance_window s ++ [if is_correct then 1 else 0] in
  let new_difficulty := calculate_adaptive_difficulty window (current_difficulty s) in
  let peak := if new_difficulty >? max_difficulty_reached s
              then new_difficulty else max_difficulty_reached s in
  let e := {| e_question := qget q (cps "question") (JStr []);
              e_topic := qget q (cps "topic") (JStr (cps "General"));
              e_difficulty := q_difficulty q;
              e_user_answer := answer;
              e_correct_answer := correct;
              e_is_correct := is_correct;
              e_explanation := qget q (cps "explanation") (JStr []) |} in
  {| pdf_content := pdf_content s;
     current_question := current_question s;
     questions_history := questions_history s ++ [e];
     current_difficulty := new_difficulty;
     performance_window := window;
     assessment_started := assessment_started s;
     assessment_complete := assessment_complete s;
     total_questions := total_questions s + 1;
     correct_answers := if is_correct then correct_answers s + 1 else correct_answers s;
     asked_questions := asked_questions s;
     show_feedback := true;
     max_difficulty_reached := peak |}.

Section Run.

Variable str_upper : text -> text.

(** A run of [render_question] while no feedback is shown: a question is
    generated at the current difficulty (the model's [reply]); an error
    record is shown with its "Try Again" button; otherwise the radio
    offers the option keys ([choice] picks one) and "Submit Answer"
    evaluates and records it.  A Python exception ends the run with the
    state reached so far. *)
Definition question_run (s : session) (reply : chat_outcome) (choice : nat)
  (submit try_again : bool) : session :=
  let q := generate_question reply (current_difficulty s) in
  let s1 := with_question s (Some q)
              (asked_questions s ++ [qget q (cps "question") (JStr [])]) in
  if json_truthy (qget q (cps "error") JNull) then
    if try_again then with_question s1 None (asked_questions s1) else s1
  else
    match qget q (cps "options") (JObj []) with
    | JObj options =>
        let keys := map fst options in
        let answer :=
          match keys with
          | [] => None
          | k0 :: _ => Some (nth (Nat.modulo choice (List.length keys)) keys k0)
          end in
        if submit then
          match answer, qget q (cps "correct_answer") (JStr []) with
          | Some a, JStr correct =>
              record_answer s1 q a correct (answer_is_correct str_upper a correct)
          | _, _ => s1   (* AttributeError in [.upper()] *)
          end
        else s1
    | _ => s1          (* AttributeError in [options.keys()] *)
    end.

(** [main]: the sidebar, then the page chosen by the flags. *)
Definition step (s : session) (ev : event) : session :=
  match ev with
  | Upload None => s
  | Upload (Some content) => upload_reset s content
  | StartAssessment =>
      if negb (assessment_complete s) && negb (assessment_started s)
         && match pdf_content s with Some _ => true | None => false end
      then with_flags s true false (show_feedback s) (current_question s)
      else s
  | QuestionRun reply choice submit try_again =>
      if negb (assessment_complete s) && assessment_started s && negb (show_feedback s)
      then question_run s reply choice submit try_again
      else s
  | NextQuestion =>
      if negb (assessment_complete s) && assessment_started s && show_feedback s
      then with_flags s true false false None
      else s
  | FinishAssessment =>
      if negb (assessment_complete s) && assessment_started s && show_feedback s
      then with_flags s true true true (current_question s)
      else s
  | NewAssessment =>
      if assessment_complete s then restart_reset s else s
  end.

Definition session_after (evs : list event) : session :=
  fold_left step evs initial_session.

End Run.

(* ------------------------------------------------------------------ *)
(** ** Python floats

    A Python [float] is an IEEE 754 binary64 number: the Standard
    Library's [SpecFloat] at precision 53 and maximal exponent 1024, every
    operation rounding to nearest, ties to even. *)

(** [float(n)] for an int [n] (exact below 2^53). *)
Definition b64_of_Z (n : Z) : spec_float := binary_normalize 53 1024 n 0 false.

Definition b64_div : spec_float -> spec_float -> spec_float := SFdiv 53 1024.
Definition b64_mul : spec_float -> spec_float -> spec_float := SFmul 53 1024.

(** Python's true division [a / b] of two ints (CPython's
    [long_true_divide]): [ZeroDivisionError] ([None]) for [b = 0]; a zero
    carrying the sign of the quotient for [a = 0]; for two ints below 2^53
    the float division of [float(a)] and [float(b)]; otherwise the exact
    quotient rounded once, [OverflowError] ([None]) past the largest float. *)
Definition py_int_truediv (a b : Z) : option spec_float :=
  let negate := xorb (a <? 0) (b <? 0) in
  if b =? 0 then None
  else if a =? 0 then Some (S754_zero negate)
  else if (Z.abs a <? 2 ^ 53) && (Z.abs b <? 2 ^ 53) then
    Some (b64_div (b64_of_Z a) (b64_of_Z b))
  else
    let '(m, e, l) := SFdiv_core_binary 53 1024 (Z.abs a) 0 (Z.abs b) 0 in
    match binary_round_aux 53 1024 negate m e l with
    | S754_infinity _ => None
    | f => Some f
    end.

(** A Python number: an [int] or a [float]. *)
Inductive py_number :=
| PyInt (z : Z)
| PyFloat (f : spec_float).

Definition p2 (e : Z) : Q := Qpower (inject_Z 2) e.

(** The rational value of a finite float. *)
Definition sf_value (f : spec_float) : option Q :=
  match f with
  | S754_zero _ => Some 0%Q
  | S754_finite sg m e => Some (inject_Z (cond_Zopp sg (Zpos m)) * p2 e)%Q
  | _ => None
  end.

Definition py_number_value (n : py_number) : option Q :=
  match n with
  | PyInt z => Some (inject_Z z)
  | PyFloat f => sf_value f
  end.

(** Proof notion for the rounding: [y] lies in [[m, m+1)] and strictly
    above [m] when a round or sticky bit is set. *)
Definition scaled_bracket (y : Q) (r : shr_record) : Prop :=
  0 <= shr_m r /\ (inject_Z (shr_m r) <= y)%Q /\ (y < inject_Z (shr_m r) + 1)%Q /\
  (shr_r r || shr_s r = true -> (inject_Z (shr_m r) < y)%Q).

(** The same with [x] seen on the grid [2^e]. *)
Definition bracket (x : Q) (e : Z) (r : shr_record) : Prop := scaled_bracket (x / p2 e) r.

(* ------------------------------------------------------------------ *)
(** ** app.py: [get_performance_metrics]

    [accuracy] and [avg_difficulty] are Python ints (0 and 1) when no
    question was answered, floats otherwise; [None] is an exception of
    the divisions. *)

Record metrics := {
  m_total_questions : Z;
  m_correct_answers : Z;
  m_accuracy : py_number;
  m_avg_difficulty : py_number;
  m_max_difficulty_reached : Z;
  m_current_difficulty : Z
}.

Definition get_performance_metrics (s : session) : option metrics :=
  let total := total_questions s in
  let correct := correct_answers s in
  let values :=
    if total =? 0 then Some (PyInt 0, PyInt 1)
    else
      match py_int_truediv correct total with
      | None => None
      | Some ratio =>
          let accuracy := PyFloat (b64_mul ratio (b64_of_Z 100)) in
          let difficulties := map e_difficulty (questions_history s) in
          match difficulties with
          | [] => Some (accuracy, PyInt 1)
          | _ =>
              match py_int_truediv (sum_Z difficulties)
                      (Z.of_nat (List.length difficulties)) with
              | None => None
              | Some avg => Some (accuracy, PyFloat avg)
              end
          end
      end in
  match values with
  | None => None
  | Some (accuracy, avg_difficulty) =>
      Some {| m_total_questions := total;
              m_correct_answers := correct;
              m_accuracy := accuracy;
              m_avg_difficulty := avg_difficulty;
              m_max_difficulty_reached := max_difficulty_reached s;
              m_current_difficulty := current_difficulty s |}
  end.

(* ------------------------------------------------------------------ *)
(** ** report_generator.py: [get_weak_topics]

    A history entry is seen through its topic and its [is_correct] flag;
    topics are compared with a decidable equality, as [in] does. *)

Section WeakTopics.

Variable topic : Type.
Variable topic_eq_dec : forall x y : topic, {x = y} + {x <> y}.

Definition topic_in (t : topic) (l : list topic) : bool :=
  existsb (fun u => if topic_eq_dec t u then true else false) l.

Fixpoint weak_topics_loop (h : list (topic * bool)) (weak_topics : list topic)
  : list topic :=
  match h with
  | [] => weak_topics
  | (t, is_correct) :: h' =>
      if negb is_correct then
        if topic_in t weak_topics then weak_topics_loop h' weak_topics
        else weak_topics_loop h' (weak_topics ++ [t])
      else weak_topics_loop h' weak_topics
  end.

Definition get_weak_topics (questions_history : list (topic * bool)) : list topic :=
  weak_topics_loop questions_history [].

(** The spec's ordering key: the index of the first incorrect answer on a
    topic (the length of the history when there is none). *)
Fixpoint first_incorrect (h : list (topic * bool)) (t : topic) : nat :=
  match h with
  | [] => 0
  | (t', c) :: h' =>
      if negb c && (if topic_eq_dec t t' then true else false) then 0
      else S (first_incorrect h' t)
  end.

End WeakTopics.

(* ------------------------------------------------------------------ *)
(** ** snap_learn.py: [revise], from the model's reply

    [str.strip] and the decimal rendering of a count are spelled out. *)

Fixpoint strip_leading (t : text) : text :=
  match t with
  | c :: t' => if py_isspace c then strip_leading t' else t
  | [] => []
  end.

Definition py_strip (t : text) : text := rev (strip_leading (rev (strip_leading t))).

Fixpoint digits_of_nat (fuel n : nat) (acc : text) : text :=
  match fuel with
  | O => acc
  | S f =>
      let d := Z.of_nat (Nat.modulo n 10) + 48 in
      let q := Nat.div n 10 in
      if Nat.eqb q 0 then d :: acc else digits_of_nat f q (d :: acc)
  end.

Definition nat_text (n : nat) : text := digits_of_nat (S n) n [].

Fixpoint is_infix (p t : text) : bool :=
  match strip_prefix p t with
  | Some _ => true
  | None => match t with [] => false | _ :: t' => is_infix p t' end
  end.

Definition json_type_name (v : json) : text :=
  match v with
  | JNull => cps "NoneType"
  | JBool _ => cps "bool"
  | JInt _ => cps "int"
  | JFloat _ _ | JNaN | JInf _ => cps "float"
  | JStr _ => cps "str"
  | JArr _ => cps "list"
  | JObj _ => cps "dict"
  end.

(** [len(v)], or its [TypeError]. *)
Definition py_len (v : json) : py_exn + nat :=
  match v with
  | JStr s => inr (List.length s)
  | JArr l => inr (List.length l)
  | JObj f => inr (List.length f)
  | _ => inl (TypeError (cps "object of type '" ++ json_type_name v ++ cps "' has no len()"))
  end.

(** [v[:10]], or its [TypeError]. *)
Definition py_slice10 (v : json) : py_exn + json :=
  match v with
  | JStr s => inr (JStr (firstn 10 s))
  | JArr l => inr (JArr (firstn 10 l))
  | _ => inl (TypeError (cps "unhashable type: 'slice'"))
  end.

Definition no_key_concepts : py_exn :=
  HTTPException 500 (cps "No key concepts generated").

(** The function's body after [raw = llm(prompt, max_tokens=1800)]; the
    reply is [{"analysis": parsed}]. *)
Definition revise_reply (raw : text) : py_exn + json :=
  match json_loads raw with
  | None => inl (HTTPException 500 (cps "Invalid JSON from AI:" ++ nl ++ raw))
  | Some parsed =>
      let key := cps "key_concepts" in
      match parsed with
      | JObj fields =>
          match dict_get fields key with
          | None => inl no_key_concepts
          | Some kc =>
              if negb (json_truthy kc) then inl no_key_concepts
              else
                let mcqs := dict_get_default fields (cps "mcqs") (JArr []) in
                match py_len mcqs with
                | inl e => inl e
                | inr n =>
                    if (n <? 10)%nat then
                      inl (HTTPException 500
                             (cps "AI returned only " ++ nat_text n ++ cps " MCQs"))
                    else
                      match py_slice10 mcqs with
                      | inl e => inl e
                      | inr m =>
                          inr (JObj [(cps "analysis",
                                      JObj (dict_set fields (cps "mcqs") m))])
                      end
                end
          end
      | JArr l =>
          if existsb (fun v => match v with JStr s => text_eqb s key | _ => false end) l
          then inl (TypeError (cps "list indices must be integers or slices, not str"))
          else inl no_key_concepts
      | JStr s =>
          if is_infix key s
          then inl (TypeError (cps "string indices must be integers, not 'str'"))
          else inl no_key_concepts
      | v => inl (TypeError (cps "argument of type '" ++ json_type_name v
                             ++ cps "' is not iterable"))
      end
  end.

(** [revise] from the model's reply text: [llm] strips it and refuses an
    empty one. *)
Definition revise (reply : text) : py_exn + json :=
  let t := py_strip reply in
  match t with
  | [] => inl (HTTPException 500 (cps "AI returned empty response"))
  | _ => revise_reply t
  end.

(** A Rocq literal read as a text, with each ' standing for a double
    quote (for writing JSON). *)
Definition jtext (s : string) : text :=
  map (fun c => if c =? 39 then 34 else c) (cps s).

Definition text_eq_dec : forall x y : text, {x = y} + {x <> y} := list_eq_dec Z.eq_dec.

(* ------------------------------------------------------------------ *)
(** ** Concrete inputs *)

(** The spec's fenced reply. *)
Definition fenced_reply : text :=
  cps "Here you go:" ++ nl ++ cps "```json" ++ nl ++ jtext "{'question':'Q'}"
  ++ nl ++ cps "```".

(** A fenced array after an object: attempts 2 and 3 would both parse. *)
Definition fence_then_brace_reply : text := jtext "{'b':2} ```[1]```".

(** A JSON string holding a fenced object: attempts 1 and 2 would both
    parse. *)
Definition string_with_fence_reply : text := jtext "'```{}```'".

(** Plain prose, without any JSON. *)
Definition prose_reply : text := cps "Sorry, I cannot write a question about this text.".

(** A quick-revision reply with ten MCQs, the first with three options. *)
Definition three_option_reply : text :=
  jtext "{'key_concepts':[{'concept':'c','explanation':'e'}],'mcqs':[" ++
  jtext "{'question':'q1','options':['A) a','B) b','C) c'],'correctAnswer':'A'}," ++
  jtext "{'question':'q2','options':['A) a','B) b','C) c','D) d'],'correctAnswer':'B'}," ++
  jtext "{'question':'q3','options':['A) a','B) b','C) c','D) d'],'correctAnswer':'B'}," ++
  jtext "{'question':'q4','options':['A) a','B) b','C) c','D) d'],'correctAnswer':'B'}," ++
  jtext "{'question':'q5','options':['A) a','B) b','C) c','D) d'],'correctAnswer':'B'}," ++
  jtext "{'question':'q6','options':['A) a','B) b','C) c','D) d'],'correctAnswer':'B'}," ++
  jtext "{'question':'q7','options':['A) a','B) b','C) c','D) d'],'correctAnswer':'B'}," ++
  jtext "{'question':'q8','options':['A) a','B) b','C) c','D) d'],'correctAnswer':'B'}," ++
  jtext "{'question':'q9','options':['A) a','B) b','C) c','D) d'],'correctAnswer':'B'}," ++
  jtext "{'question':'q10','options':['A) a','B) b','C) c','D) d'],'correctAnswer':'B'}" ++
  jtext "]}".

(** An MCQ reply with prose around its JSON object. *)
Definition prose_wrapped_mcq_reply : text := cps "Sure: " ++ jtext "{'a':1}" ++ cps " ok".

(** The number of options of each MCQ of a parsed quick-revision reply. *)
Definition mcq_option_counts (v : json) : list nat :=
  match v with
  | JObj fields =>
      match dict_get fields (cps "mcqs") with
      | Some (JArr items) =>
          map (fun it => match it with
                         | JObj f => match dict_get f (cps "options") with
                                     | Some (JArr o) => List.length o
                                     | _ => 0%nat
                                     end
                         | _ => 0%nat
                         end) items
      | _ => []
      end
  | _ => []
  end.

(** A session on the question page: a PDF loaded and the assessment
    started. *)
Definition started_session : session :=
  session_after ascii_upper [Upload (Some (cps "Photosynthesis turns light into sugar.")); StartAssessment].

(** The same session after one correctly answered question. *)
Definition answered_session : session :=
  session_after ascii_upper
    [Upload (Some (cps "Photosynthesis turns light into sugar."));
     StartAssessment;
     QuestionRun (ChatOk (jtext "{'question':'Q?','options':{'A':'x','B':'y'},'correct_answer':'b','topic':'T'}"))
       1 true false].

(** A session where the same two-option question is answered twenty
    times, the first eleven times correctly ([B]) and then nine times
    wrongly ([A]), moving on with "Next Question" after each answer. *)
Definition answer_and_move_on (choice : nat) : list event :=
  [QuestionRun (ChatOk (jtext "{'question':'Q?','options':{'A':'x','B':'y'},'correct_answer':'b','topic':'T'}"))
     choice true false;
   NextQuestion].

Definition eleven_of_twenty_session : session :=
  session_after ascii_upper
    ([Upload (Some (cps "Photosynthesis turns light into sugar."));
      StartAssessment]
     ++ flat_map answer_and_move_on (repeat 1%nat 11 ++ repeat 0%nat 9)).


(* ------------------------------------------------------------------ *)
(** ** app.py: the levels an answer sequence visits

    Not code of the app: the levels that [calculate_adaptive_difficulty]
    goes through when the bits of a window are answered in order, each
    answer judged on the window up to it.  [levels_from done c rest] gives
    the level before each bit of [rest] and the level after the last. *)

Fixpoint levels_from (done : list Z) (c : Z) (rest : list Z) : list Z * Z :=
  match rest with
  | [] => ([], c)
  | b :: r =>
      let w := done ++ [b] in
      let '(ls, f) := levels_from w (calculate_adaptive_difficulty w c) r in
      (c :: ls, f)
  end.

(** The runs that give a question a new answer slot: the "Next Question"
    button and the restart of the results page. *)
Definition resumes_answering (ev : event) : bool :=
  match ev with
  | NextQuestion | NewAssessment => true
  | _ => false
  end.

(** The runs that leave a finished assessment's results in place: all
    but a new upload and the restart of the results page. *)
Definition keeps_results (ev : event) : bool :=
  match ev with
  | Upload (Some _) | NewAssessment => false
  | _ => true
  end.

(** What the answer bookkeeping of every reachable session satisfies:
    the window holds one bit per history entry, the correct count counts
    the correct entries, the recorded levels and the current level are
    the ones the window's answers visit from level 1, the peak is the
    largest of them, and a finished assessment was started. *)
Definition run_inv (s : session) : Prop :=
  performance_window s = map (fun e => bit (e_is_correct e)) (questions_history s) /\
  correct_answers s = Z.of_nat (List.length (filter e_is_correct (questions_history s))) /\
  levels_from [] 1 (performance_window s)
    = (map e_difficulty (questions_history s), current_difficulty s) /\
  max_difficulty_reached s
    = fold_left Z.max (map e_difficulty (questions_history s) ++ [current_difficulty s]) 1 /\
  (assessment_complete s = true -> assessment_started s = true).

(* ------------------------------------------------------------------ *)
(** ** snap_learn.py: [clean], [upload] and the MCQ reply of [generate] *)

(** [t.encode('latin-1', 'replace').decode('latin-1')]: a code point
    above 255 has no latin-1 byte and becomes a question mark. *)
Definition clean (t : text) : text :=
  map (fun c => if c <=? 255 then c else 63) t.

(** [t[i:j]] for indices [0 <= i <= j], clipped to the text. *)
Definition py_substr (t : text) (i j : nat) : text :=
  firstn (j - i) (skipn i t).

Fixpoint py_range_step (fuel start stop step : nat) : list nat :=
  match fuel with
  | O => []
  | S f =>
      if (start <? stop)%nat then start :: py_range_step f (start + step) stop step
      else []
  end.

(** [range(start, stop, step)] for a positive [step]: at most
    [stop + 1] values. *)
Definition py_range (start stop step : nat) : list nat :=
  py_range_step (S stop) start stop step.

(** [p.extract_text() or ''] *)
Definition page_text (p : option text) : text :=
  match p with Some x => x | None => [] end.

(** [[text[i:i+900] for i in range(0, len(text), 800)]] *)
Definition upload_chunks (t : text) : list text :=
  map (fun i => py_substr t i (i + 900)) (py_range 0 (List.length t) 800).

(** [upload] from the text of each page (the reader's pages, [None] for a
    page without text): the error it raises, or the ids and documents it
    passes to [collection.add]. *)
Definition upload (filename : text) (pages : list (option text))
  : py_exn + (list text * list text) :=
  let full_text := fold_left (fun acc p => acc ++ page_text p) pages [] in
  if (List.length (py_strip full_text) <? 100)%nat
  then inl (HTTPException 400 (cps "No readable text"))
  else
    let chunks := upload_chunks full_text in
    let ids := map (fun i => filename ++ cps "_" ++ nat_text i)
                   (seq 0 (List.length chunks)) in
    inr (ids, chunks).

Fixpoint py_find_from (c : Z) (t : text) (i : Z) : Z :=
  match t with
  | [] => -1
  | x :: t' => if x =? c then i else py_find_from c t' (i + 1)
  end.

(** [t.find(c)] and [t.rfind(c)] for one character: -1 when absent. *)
Definition py_find (c : Z) (t : text) : Z := py_find_from c t 0.

Definition py_rfind (c : Z) (t : text) : Z :=
  let i := py_find c (rev t) in
  if i =? -1 then -1 else Z.of_nat (List.length t) - 1 - i.

(** [t[a:b]] with Python's reading of negative and out-of-range
    indices. *)
Definition py_slice (t : text) (a b : Z) : text :=
  let n := Z.of_nat (List.length t) in
  let norm x := if x <? 0 then Z.max 0 (x + n) else Z.min x n in
  firstn (Z.to_nat (norm b - norm a)) (skipn (Z.to_nat (norm a)) t).

(** The parse of [mcq_raw] in [generate]: [json.loads], then the
    stripped text from its first opening brace through its last closing
    brace. *)
Definition parse_mcq_reply (mcq_raw : text) : py_exn + json :=
  match json_loads mcq_raw with
  | Some v => inr v
  | None =>
      let cleaned := py_strip mcq_raw in
      let cleaned := py_slice cleaned (py_find 123 cleaned) (py_rfind 125 cleaned + 1) in
      match json_loads cleaned with
      | Some v => inr v
      | None => inl (HTTPException 500 (cps "Invalid MCQ JSON from AI:" ++ nl ++ mcq_raw))
      end
  end.

(* ------------------------------------------------------------------ *)
(** ** pdf_extractor.py: [clean_text] and [get_content_summary] *)

Definition flush_run (c : Z) (min : nat) (repl : text) (run : nat) : text :=
  if (min <=? run)%nat then repl else repeat c run.

(** [re.sub] of the pattern [c{min,}] by [repl]: the search is leftmost
    and greedy, so each maximal run of at least [min] copies of [c] is
    replaced; [run] counts the copies of [c] just read. *)
Fixpoint sub_runs (c : Z) (min : nat) (repl : text) (run : nat) (t : text) : text :=
  match t with
  | [] => flush_run c min repl run
  | x :: t' =>
      if x =? c then sub_runs c min repl (S run) t'
      else flush_run c min repl run ++ x :: sub_runs c min repl 0 t'
  end.

(** [t.split(c)] for one character. *)
Fixpoint split_on (c : Z) (t : text) : list text :=
  match t with
  | [] => [[]]
  | x :: t' =>
      if x =? c then [] :: split_on c t'
      else match split_on c t' with
           | l :: ls => (x :: l) :: ls
           | [] => [[x]]
           end
  end.

(** [sep.join(ls)] *)
Fixpoint py_join (sep : text) (ls : list text) : text :=
  match ls with
  | [] => []
  | [l] => l
  | l :: ls' => l ++ sep ++ py_join sep ls'
  end.

Definition clean_text (t : text) : text :=
  let t1 := sub_runs 10 3 [10; 10] 0 t in
  let t2 := sub_runs 32 2 [32] 0 t1 in
  let lines := map py_strip (split_on 10 t2) in
  py_strip (py_join [10] lines).

Definition get_content_summary (t : text) (max_chars : Z) : text :=
  if Z.of_nat (List.length t) <=? max_chars then t
  else py_slice t 0 max_chars ++ cps "...".

(* ------------------------------------------------------------------ *)
(** ** report_generator.py: the weak-topic counts of the report

    As for [get_weak_topics], an entry is seen through its topic and its
    correctness; [topic_counts] is the dict built from [weak_topics], in
    first-insertion order; [sorted(..., key=lambda x: -x[1])] is stable,
    so any stable sort by decreasing count gives its result: here an
    insertion sort. *)

Section ReportTopics.

Variable topic : Type.
Variable topic_eq_dec : forall x y : topic, {x = y} + {x <> y}.

(** [[q.get('topic', 'Unknown') for q in questions_history if not q.get('is_correct', False)]] *)
Definition report_weak_topics (h : list (topic * bool)) : list topic :=
  map fst (filter (fun e => negb (snd e)) h).

(** [topic_counts[topic] = topic_counts.get(topic, 0) + 1] *)
Fixpoint count_incr (d : list (topic * nat)) (t : topic) : list (topic * nat) :=
  match d with
  | [] => [(t, 1%nat)]
  | (k, n) :: d' =>
      if topic_eq_dec t k then (k, S n) :: d' else (k, n) :: count_incr d' t
  end.

Definition topic_counts (weak_topics : list topic) : list (topic * nat) :=
  fold_left count_incr weak_topics [].

Fixpoint insert_by_count (x : topic * nat) (l : list (topic * nat)) : list (topic * nat) :=
  match l with
  | [] => [x]
  | y :: l' => if (snd y <=? snd x)%nat then x :: l else y :: insert_by_count x l'
  end.

Definition sort_by_count (l : list (topic * nat)) : list (topic * nat) :=
  fold_right insert_by_count [] l.

(** The (topic, count) lines of the section "Topics Needing Review". *)
Definition report_topic_lines (h : list (topic * bool)) : list (topic * nat) :=
  sort_by_count (topic_counts (report_weak_topics h)).

(** The number of occurrences of a topic in a list. *)
Fixpoint topic_occ (l : list topic) (t : topic) : nat :=
  match l with
  | [] => 0
  | u :: l' => (if topic_eq_dec t u then 1 else 0) + topic_occ l' t
  end.

(** [topic_counts.get(t, 0)] *)
Fixpoint count_get (d : list (topic * nat)) (t : topic) : nat :=
  match d with
  | [] => 0
  | (k, n) :: d' => if topic_eq_dec t k then n else count_get d' t
  end.

End ReportTopics.


(* ------------------------------------------------------------------ *)
(** ** pdf_extractor.py: [extract_text_from_pdf]

    A page is seen through the text that [page.get_text("text")] gives
    for it; opening the PDF is left out. *)

(** [f"--- Page {page_num + 1} ---"] *)
Definition page_header (page_num : nat) : text :=
  cps "--- Page " ++ nat_text (page_num + 1) ++ cps " ---".

(** The entries of [text_content], the pages numbered from [page_num]. *)
Fixpoint page_blocks (page_num : nat) (pages : list text) : list text :=
  match pages with
  | [] => []
  | p :: ps =>
      match py_strip p with
      | [] => []
      | _ => [page_header page_num ++ nl ++ p]
      end ++ page_blocks (S page_num) ps
  end.

Definition extract_text_from_pdf (pages : list text) : text :=
  clean_text (py_join [10; 10] (page_blocks 0 pages)).

(* ------------------------------------------------------------------ *)
(** ** report_generator.py: the recommendation lines of the report

    [str.replace] with a non-empty pattern, scanning left to right for
    non-overlapping occurrences; each step consumes at least one
    character, so the length of the text is enough fuel. *)

Fixpoint replace_fuel (fuel : nat) (old new t : text) : text :=
  match fuel with
  | O => t
  | S f =>
      match t with
      | [] => []
      | c :: t' =>
          match strip_prefix old t with
          | Some r => new ++ replace_fuel f old new r
          | None => c :: replace_fuel f old new t'
          end
      end
  end.

Definition py_replace (old new t : text) : text := replace_fuel (List.length t) old new t.

(** [str.replace(old, new, 1)] *)
Fixpoint py_replace_first (old new t : text) : text :=
  match strip_prefix old t with
  | Some r => new ++ r
  | None => match t with [] => [] | c :: t' => c :: py_replace_first old new t' end
  end.

(** One suggestion line after [line.strip()], when it is not empty. *)
Definition clean_suggestion_line (line : text) : text :=
  let line := py_replace [42; 42] [] line in
  let line := py_replace [42] [] line in
  let line := py_replace [8226] [] line in
  py_strip (py_replace_first [45] [] line).

(** The texts of the paragraphs [f"• {line}"] added for
    [improvement_suggestions]. *)
Definition suggestion_paragraphs (improvement_suggestions : text) : list text :=
  flat_map (fun line =>
              let line := py_strip line in
              match line with
              | [] => []
              | _ =>
                  match clean_suggestion_line line with
                  | [] => []
                  | l => [[8226; 32] ++ l]
                  end
              end)
           (split_on 10 (py_strip improvement_suggestions)).

(** A capture [g] of a regex search in [T] is a piece of [T]. *)
Definition cap_ok (T : text) (g : option text) : Prop :=
  forall x, g = Some x -> exists a b, T = a ++ x ++ b.

(** No two spaces in a row. *)
Definition no_double_space (l : text) : Prop :=
  forall i, nth_error l i = Some 32 -> nth_error l (S i) = Some 32 -> False.

(* ================================================================== *)
(** * Properties *)

(** ** The difficulty rule *)

Lemma last3_suffix {A} (w : list A) :
  w = firstn (List.length w - 3) w ++ last3 w.
Proof. unfold last3. symmetry. apply firstn_skipn. Qed.

Lemma last3_length {A} (w : list A) :
  (3 <= List.length w)%nat -> List.length (last3 w) = 3%nat.
Proof. intros H. unfold last3. rewrite length_skipn. lia. Qed.

Lemma last3_last3 {A} (w : list A) :
  (3 <= List.length w)%nat -> last3 (last3 w) = last3 w.
Proof.
  intros H. unfold last3 at 1. rewrite (last3_length w H). reflexivity.
Qed.

Lemma calculate_adaptive_difficulty_cases (w : list Z) (c : Z) :
  calculate_adaptive_difficulty w c = c \/
  (calculate_adaptive_difficulty w c = c + 1 /\ c < 3) \/
  (calculate_adaptive_difficulty w c = c - 1 /\ 1 < c).
Proof.
  unfold calculate_adaptive_difficulty.
  destruct (length w <? 3)%nat; [left; reflexivity|].
  destruct ((sum_Z (last3 w) >=? 2) && (c <? 3)) eqn:E1.
  - right; left. apply andb_true_iff in E1 as [_ E1]. rewrite Z.ltb_lt in E1. lia.
  - destruct ((sum_Z (last3 w) <=? 1) && (c >? 1)) eqn:E2; [|left; reflexivity].
    right; right. apply andb_true_iff in E2 as [_ E2]. rewrite Z.gtb_lt in E2. lia.
Qed.

Lemma calculate_adaptive_difficulty_range (w : list Z) (c : Z) :
  1 <= c <= 3 -> 1 <= calculate_adaptive_difficulty w c <= 3.
Proof.
  intros Hc. destruct (calculate_adaptive_difficulty_cases w c) as [H|[[H H']|[H H']]];
    rewrite H; lia.
Qed.

(** C1: on a window of at least three results the rule reads exactly the
    last three (the window is a prefix followed by them, and the result
    is the one computed from them alone) and, with [correct_count] their
    sum, steps up on at least two correct below level 3, steps down on at
    most one correct above level 1, and keeps the level otherwise; the
    spec's three scenarios hold. *)
Theorem calculate_adaptive_difficulty_last3_rule (w : list Z) (c : Z)
  (Hw : (3 <= List.length w)%nat) (Hc : 1 <= c <= 3) :
  let correct_count := sum_Z (last3 w) in
  (exists pre, w = pre ++ last3 w /\ List.length (last3 w) = 3%nat) /\
  calculate_adaptive_difficulty w c = calculate_adaptive_difficulty (last3 w) c /\
  (correct_count >= 2 -> c < 3 -> calculate_adaptive_difficulty w c = c + 1) /\
  (correct_count <= 1 -> c > 1 -> calculate_adaptive_difficulty w c = c - 1) /\
  (~ (correct_count >= 2 /\ c < 3) -> ~ (correct_count <= 1 /\ c > 1) ->
   calculate_adaptive_difficulty w c = c) /\
  calculate_adaptive_difficulty [1; 1; 0] 1 = 2 /\
  calculate_adaptive_difficulty [0; 0; 1] 2 = 1 /\
  calculate_adaptive_difficulty [1; 0; 1; 0; 1] 2 = 3.
Proof.
  intros cc.
  assert (Hlen : (length w <? 3)%nat = false) by (apply Nat.ltb_ge; exact Hw).
  split; [exists (firstn (List.length w - 3) w); split;
          [apply last3_suffix | apply last3_length; exact Hw]|].
  split.
  { unfold calculate_adaptive_difficulty at 1 2.
    rewrite Hlen, (last3_length w Hw), (last3_last3 w Hw). reflexivity. }
  unfold calculate_adaptive_difficulty. rewrite Hlen. fold cc.
  split; [|split; [|split]].
  - intros H1 H2.
    replace ((cc >=? 2) && (c <? 3)) with true by
      (symmetry; apply andb_true_iff; rewrite Z.geb_le, Z.ltb_lt; lia).
    reflexivity.
  - intros H1 H2.
    replace ((cc >=? 2) && (c <? 3)) with false by
      (symmetry; apply andb_false_iff; left; rewrite Z.geb_leb; apply Z.leb_gt; lia).
    replace ((cc <=? 1) && (c >? 1)) with true by
      (symmetry; apply andb_true_iff; rewrite Z.leb_le, Z.gtb_lt; lia).
    reflexivity.
  - intros H1 H2.
    replace ((cc >=? 2) && (c <? 3)) with false.
    2:{ symmetry. apply not_true_iff_false. rewrite andb_true_iff, Z.geb_le, Z.ltb_lt.
        intros [A B]. apply H1. split; lia. }
    replace ((cc <=? 1) && (c >? 1)) with false.
    2:{ symmetry. apply not_true_iff_false. rewrite andb_true_iff, Z.leb_le, Z.gtb_lt.
        intros [A B]. apply H2. split; lia. }
    reflexivity.
  - repeat split; reflexivity.
Qed.

(** C2: with fewer than three results the level is kept. *)
Theorem calculate_adaptive_difficulty_short_window (w : list Z) (c : Z)
  (Hc : 1 <= c <= 3) (Hw : (List.length w < 3)%nat) :
  calculate_adaptive_difficulty w c = c.
Proof.
  unfold calculate_adaptive_difficulty.
  replace (length w <? 3)%nat with true by (symmetry; apply Nat.ltb_lt; exact Hw).
  reflexivity.
Qed.

(** C3: from a level in [1,3] the rule stays in [1,3] for every window,
    and so does any number of rounds that each extend the window with
    arbitrary results and recompute the level. *)
Theorem calculate_adaptive_difficulty_stays_in_range (c : Z) (Hc : 1 <= c <= 3) :
  (forall w, 1 <= calculate_adaptive_difficulty w c <= 3) /\
  (forall w chunks, 1 <= snd (iterate_difficulty w c chunks) <= 3).
Proof.
  split.
  - intros w. apply calculate_adaptive_difficulty_range. exact Hc.
  - intros w chunks. revert w c Hc.
    induction chunks as [|ch rest IH]; intros w c Hc; simpl.
    + exact Hc.
    + apply IH. apply calculate_adaptive_difficulty_range. exact Hc.
Qed.

(** ** The session *)

Lemma generate_question_difficulty (reply : chat_outcome) (d : Z) :
  q_difficulty (generate_question reply d) = d.
Proof.
  destruct reply as [t|m]; simpl; [|reflexivity].
  destruct (parse_json_response t) as [e|[]]; reflexivity.
Qed.

(** A question run either only touches the current question and the
    asked list, or records an answer to the question it generated. *)
Lemma question_run_shape (upper : text -> text) (s : session) (reply : chat_outcome)
  (choice : nat) (submit try_again : bool) :
  let q := generate_question reply (current_difficulty s) in
  (exists qo asked, question_run upper s reply choice submit try_again
                    = with_question s qo asked) \/
  (exists asked a c b, question_run upper s reply choice submit try_again
                       = record_answer (with_question s (Some q) asked) q a c b).
Proof.
  intros q. unfold question_run. fold q.
  destruct (json_truthy (qget q (cps "error") JNull)).
  - left. destruct try_again; [do 2 eexists; reflexivity | eauto].
  - destruct (qget q (cps "options") (JObj [])); eauto.
    destruct submit; eauto.
    destruct (map fst fields) as [|k0 ks]; eauto.
    destruct (qget q (cps "correct_answer") (JStr [])); eauto.
    right. eauto.
Qed.

(** What every reachable session satisfies. *)
Definition session_inv (s : session) : Prop :=
  1 <= current_difficulty s <= 3 /\
  current_difficulty s <= max_difficulty_reached s /\
  Forall (fun e => e_difficulty e <= max_difficulty_reached s) (questions_history s) /\
  total_questions s = Z.of_nat (List.length (questions_history s)).

Lemma session_inv_initial : session_inv initial_session.
Proof. repeat split; simpl; auto; lia. Qed.

Lemma session_inv_with_question (s : session) qo asked :
  session_inv s -> session_inv (with_question s qo asked).
Proof. exact (fun H => H). Qed.

Lemma session_inv_with_flags (s : session) a b c qo :
  session_inv s -> session_inv (with_flags s a b c qo).
Proof. exact (fun H => H). Qed.

Lemma session_inv_record (s : session) (q : qdict) asked a c b :
  session_inv s -> q_difficulty q = current_difficulty s ->
  session_inv (record_answer (with_question s (Some q) asked) q a c b).
Proof.
  intros (Hr & Hc & Hh & Ht) Hq. unfold session_inv, record_answer; simpl.
  set (nd := calculate_adaptive_difficulty _ _).
  assert (Hnd : 1 <= nd <= 3) by (apply calculate_adaptive_difficulty_range; exact Hr).
  set (pk := if nd >? max_difficulty_reached s then nd else max_difficulty_reached s).
  assert (Hpk : nd <= pk /\ max_difficulty_reached s <= pk).
  { unfold pk. destruct (nd >? max_difficulty_reached s) eqn:E;
      [rewrite Z.gtb_lt in E | rewrite Z.gtb_ltb, Z.ltb_ge in E]; lia. }
  split; [exact Hnd|]. split; [lia|]. split.
  - apply Forall_app. split.
    + eapply Forall_impl; [|exact Hh]. simpl. intros e He. lia.
    + constructor; [simpl; lia | constructor].
  - rewrite length_app, Ht. simpl. lia.
Qed.

Lemma session_inv_step (upper : text -> text) (s : session) (ev : event) :
  session_inv s -> session_inv (step upper s ev).
Proof.
  intros H. destruct ev as [[content|]| |reply choice submit try_again| | |]; simpl.
  - repeat split; simpl; auto; lia.
  - exact H.
  - destruct (_ && _ && _); [apply session_inv_with_flags|]; exact H.
  - destruct (_ && _ && _); [|exact H].
    destruct (question_run_shape upper s reply choice submit try_again)
      as [(qo & asked & E)|(asked & a & c & b & E)]; rewrite E.
    + apply session_inv_with_question. exact H.
    + apply session_inv_record; [exact H|]. apply generate_question_difficulty.
  - destruct (_ && _ && _); [apply session_inv_with_flags|]; exact H.
  - destruct (_ && _ && _); [apply session_inv_with_flags|]; exact H.
  - destruct (assessment_complete s); [|exact H]. repeat split; simpl; auto; lia.
Qed.

Lemma session_inv_after (upper : text -> text) (evs : list event) :
  session_inv (session_after upper evs).
Proof.
  unfold session_after. generalize session_inv_initial.
  generalize initial_session. induction evs as [|ev evs IH]; intros s H; simpl.
  - exact H.
  - apply IH. apply session_inv_step. exact H.
Qed.

(** C4: in every session reached from the initial one by any sequence of
    runs (recording answers among them), the peak level is at least the
    current level and at least the level recorded in each history entry. *)
Theorem peak_difficulty_watermark (upper : text -> text) (evs : list event) :
  let s := session_after upper evs in
  current_difficulty s <= max_difficulty_reached s /\
  (forall e, In e (questions_history s) -> e_difficulty e <= max_difficulty_reached s).
Proof.
  intros s. destruct (session_inv_after upper evs) as (_ & Hc & Hh & _).
  split; [exact Hc|]. intros e He. rewrite Forall_forall in Hh. apply Hh. exact He.
Qed.

(** Every reachable session counts one question per history entry. *)
Lemma session_total_history (upper : text -> text) (evs : list event) :
  let s := session_after upper evs in
  total_questions s = Z.of_nat (List.length (questions_history s)).
Proof. destruct (session_inv_after upper evs) as (_ & _ & _ & H). exact H. Qed.

(** ** Python floats: rounding bounds *)

Lemma p2_pos (e : Z) : (0 < p2 e)%Q.
Proof. apply Qpower_0_lt. reflexivity. Qed.

Lemma p2_add (a b : Z) : (p2 (a + b) == p2 a * p2 b)%Q.
Proof. unfold p2. apply Qpower_plus. discriminate. Qed.

Lemma p2_nonneg (n : Z) : 0 <= n -> (p2 n == inject_Z (2 ^ n))%Q.
Proof. intros H. unfold p2. symmetry. apply Zpower_Qpower. exact H. Qed.

Lemma p2_split (e j : Z) : e <= j -> (p2 j == inject_Z (2 ^ (j - e)) * p2 e)%Q.
Proof.
  intros H. rewrite <- p2_nonneg by lia. rewrite <- p2_add.
  replace (j - e + e) with j by lia. reflexivity.
Qed.

Lemma scaled_bracket_compat (y y' : Q) (r : shr_record) : (y == y')%Q -> scaled_bracket y r -> scaled_bracket y' r.
Proof.
  intros E (H1 & H2 & H3 & H4). split; [exact H1|]. split; [lra|]. split; [lra|].
  intros H. specialize (H4 H). lra.
Qed.

Lemma inject_Z_2x (z : Z) : (inject_Z (2 * z) == 2 * inject_Z z)%Q.
Proof. rewrite inject_Z_mult. reflexivity. Qed.

Lemma shr_1_bracket (y : Q) (r : shr_record) : scaled_bracket y r -> scaled_bracket (y * (1#2)) (shr_1 r).
Proof.
  destruct r as [m rb sb]. unfold scaled_bracket; simpl.
  intros (H1 & H2 & H3 & H4).
  destruct m as [|p|p]; [| |lia].
  - simpl. change (inject_Z 0) with (0#1) in *.
    split; [lia|]. split; [lra|]. split; [lra|].
    intros H. specialize (H4 H). lra.
  - destruct p as [p|p|]; simpl; cbn [shr_m shr_r shr_s].
    + assert (E : (inject_Z (Zpos p~1) == 2 * inject_Z (Zpos p) + 1)%Q)
        by (unfold Qeq; simpl; lia).
      split; [lia|]. split; [lra|]. split; [lra|]. intros _. lra.
    + assert (E : (inject_Z (Zpos p~0) == 2 * inject_Z (Zpos p))%Q)
        by (unfold Qeq; simpl; lia).
      split; [lia|]. split; [lra|]. split; [lra|].
      intros H. specialize (H4 H). lra.
    + change (inject_Z 1) with (1#1) in *. change (inject_Z 0) with (0#1). split; [lia|]. split; [lra|]. split; [lra|]. intros _. lra.
Qed.

Lemma iter_pos_bracket (p : positive) : forall (x : Q) (e : Z) (r : shr_record),
  bracket x e r -> bracket x (e + Zpos p) (iter_pos shr_1 p r).
Proof.
  unfold bracket.
  assert (S1 : forall x e r, scaled_bracket (x / p2 e) r -> scaled_bracket (x / p2 (e + 1)) (shr_1 r)).
  { intros x e r H. apply (scaled_bracket_compat ((x / p2 e) * (1#2))).
    - rewrite p2_add. change (p2 1) with (2 # 1).
      pose proof (p2_pos e). field. intros C. lra.
    - apply shr_1_bracket. exact H. }
  induction p as [p IH|p IH|]; intros x e r H; simpl.
  - replace (e + Zpos p~1) with (e + 1 + Zpos p + Zpos p) by lia.
    apply IH. apply IH. apply S1. exact H.
  - replace (e + Zpos p~0) with (e + Zpos p + Zpos p) by lia.
    apply IH. apply IH. exact H.
  - apply S1. exact H.
Qed.

Lemma shr_bracket (x : Q) (e n : Z) (r : shr_record) :
  bracket x e r -> bracket x (snd (shr r e n)) (fst (shr r e n)) /\ snd (shr r e n) = Z.max e (e + n).
Proof.
  intros H. destruct n as [|p|p]; simpl.
  - split; [exact H | lia].
  - split; [apply iter_pos_bracket; exact H | lia].
  - split; [exact H | lia].
Qed.

Lemma qz_le (a b : Z) : a <= b <-> (inject_Z a <= inject_Z b)%Q.
Proof. rewrite Zle_Qle. reflexivity. Qed.

Lemma qz_lt (a b : Z) : a < b <-> (inject_Z a < inject_Z b)%Q.
Proof. rewrite Zlt_Qlt. reflexivity. Qed.

Lemma le_div_mul (a b c : Q) : (0 < c)%Q -> (a <= b / c)%Q -> (a * c <= b)%Q.
Proof.
  intros Hc H. apply (Qmult_le_compat_r _ _ c) in H; [|lra].
  setoid_replace (b / c * c)%Q with b in H; [exact H|]. field. lra.
Qed.

Lemma div_le_grid (x : Q) (e j k : Z) :
  e <= j -> (x <= inject_Z k * p2 j)%Q -> (x / p2 e <= inject_Z (k * 2 ^ (j - e)))%Q.
Proof.
  intros Hej H. apply Qle_shift_div_r; [apply p2_pos|].
  rewrite inject_Z_mult, <- Qmult_assoc, <- p2_split by exact Hej. exact H.
Qed.

Lemma div_ge_grid (x : Q) (e j k : Z) :
  e <= j -> (inject_Z k * p2 j <= x)%Q -> (inject_Z (k * 2 ^ (j - e)) <= x / p2 e)%Q.
Proof.
  intros Hej H. apply Qle_shift_div_l; [apply p2_pos|].
  rewrite inject_Z_mult, <- Qmult_assoc, <- p2_split by exact Hej. exact H.
Qed.

Lemma mul_grid (a e j k : Z) :
  e <= j -> a = k * 2 ^ (j - e) -> (inject_Z a * p2 e == inject_Z k * p2 j)%Q.
Proof.
  intros Hej ->. rewrite (p2_split e j Hej), inject_Z_mult. ring.
Qed.

Lemma digits2_pos_bound (p : positive) : 2 ^ (Zpos (digits2_pos p) - 1) <= Zpos p.
Proof.
  induction p as [p IH|p IH|]; [| |simpl; lia];
    change (digits2_pos _) with (Pos.succ (digits2_pos p));
    rewrite Pos2Z.inj_succ; replace (Z.succ (Zpos (digits2_pos p)) - 1)
      with (Z.succ (Zpos (digits2_pos p) - 1)) by lia;
    rewrite Z.pow_succ_r by lia; lia.
Qed.

Lemma digits_bound (m e j ku : Z) :
  0 <= m -> m <= ku * 2 ^ (j - e) -> ku < 2 ^ 53 -> e <= j -> Zdigits2 m + e <= j + 53.
Proof.
  intros Hm Hk Hku Hej. destruct m as [|p|p]; [simpl; lia| |lia].
  simpl Zdigits2. pose proof (digits2_pos_bound p) as Hd.
  assert (H2 : 0 < 2 ^ (j - e)) by (apply Z.pow_pos_nonneg; lia).
  assert (Hlt : 2 ^ (Zpos (digits2_pos p) - 1) < 2 ^ (53 + (j - e))).
  { rewrite Z.pow_add_r by lia. nia. }
  apply Z.pow_lt_mono_r_iff in Hlt; lia.
Qed.

Lemma fexp_le (z j : Z) : z <= j + 53 -> -1074 <= j -> fexp 53 1024 z <= j.
Proof. intros. unfold fexp, emin. lia. Qed.

Lemma rne_cases (r : shr_record) :
  round_nearest_even (shr_m r) (loc_of_shr_record r) = shr_m r \/
  (round_nearest_even (shr_m r) (loc_of_shr_record r) = shr_m r + 1 /\
   shr_r r || shr_s r = true).
Proof.
  destruct r as [m [] []]; simpl; auto.
  destruct (Z.even m); auto.
Qed.

Lemma record_of_loc_m (m : Z) (l : location) : shr_m (shr_record_of_loc m l) = m.
Proof. destruct l as [|[]]; reflexivity. Qed.

Lemma inject_Z_le_trans (a b : Z) (y : Q) : (inject_Z a <= y)%Q -> (y <= inject_Z b)%Q -> a <= b.
Proof. intros H1 H2. rewrite qz_le. eapply Qle_trans; eassumption. Qed.

Lemma inject_Z_lt_trans (a b : Z) (y : Q) : (inject_Z a <= y)%Q -> (y < inject_Z b)%Q -> a < b.
Proof. intros H1 H2. rewrite qz_lt. eapply Qle_lt_trans; eassumption. Qed.

Lemma inject_Z_lt_trans' (a b : Z) (y : Q) : (inject_Z a < y)%Q -> (y <= inject_Z b)%Q -> a < b.
Proof. intros H1 H2. rewrite qz_lt. eapply Qlt_le_trans; eassumption. Qed.

(** Rounding a value bracketed by [m * 2^e] (with [l] telling whether it
    is above) stays between any two bounds on the grid [2^j], when [e] and
    the rounded exponent do not pass [j]. *)
Lemma round_bounds (x : Q) (m e : Z) (l : location) (j kl ku : Z) :
  bracket x e (shr_record_of_loc m l) -> e <= j -> -1074 <= j <= 971 -> 0 <= kl -> ku < 2 ^ 53 ->
  (inject_Z kl * p2 j <= x)%Q -> (x <= inject_Z ku * p2 j)%Q ->
  (binary_round_aux 53 1024 false m e l = S754_zero false \/
   exists m' e', binary_round_aux 53 1024 false m e l = S754_finite false m' e') /\
  exists v, sf_value (binary_round_aux 53 1024 false m e l) = Some v /\
            (inject_Z kl * p2 j <= v <= inject_Z ku * p2 j)%Q.
Proof.
  intros H0 Hej Hj Hkl Hku Hlo Hhi.
  unfold binary_round_aux, shr_fexp.
  lazymatch goal with |- context [shr (shr_record_of_loc m l) e ?n] => set (n1 := n) end.
  destruct (shr_bracket x e n1 _ H0) as [I1 E1].
  destruct (shr (shr_record_of_loc m l) e n1) as [r1 e1] eqn:S1. cbn [fst snd] in I1, E1.
  (* stage 1: the first exponent stays below j *)
  assert (He1 : e1 <= j).
  { destruct H0 as (Hm0 & Hm1 & _). rewrite record_of_loc_m in Hm0, Hm1.
    pose proof (inject_Z_le_trans _ _ _ Hm1 (div_le_grid x e j ku Hej Hhi)) as Hm.
    pose proof (digits_bound m e j ku Hm0 Hm Hku Hej).
    pose proof (fexp_le (Zdigits2 m + e) j ltac:(lia) ltac:(lia)). unfold n1 in E1. lia. }
  destruct I1 as (Hq0 & Hq1 & Hq2 & Hq3).
  set (m1 := shr_m r1) in *.
  pose proof (div_le_grid x e1 j ku He1 Hhi) as K1.
  pose proof (div_ge_grid x e1 j kl He1 Hlo) as L1.
  set (q := round_nearest_even m1 (loc_of_shr_record r1)).
  assert (Hq : kl * 2 ^ (j - e1) <= q <= ku * 2 ^ (j - e1)).
  { pose proof (inject_Z_le_trans _ _ _ Hq1 K1).
    assert (kl * 2 ^ (j - e1) < m1 + 1).
    { apply (inject_Z_lt_trans _ _ (x / p2 e1)); [exact L1|]. rewrite inject_Z_plus. exact Hq2. }
    destruct (rne_cases r1) as [Eq|[Eq Hr]]; fold m1 q in Eq; rewrite Eq; [lia|].
    specialize (Hq3 Hr). pose proof (inject_Z_lt_trans' _ _ _ Hq3 K1). lia. }
  assert (Hkq : 0 <= kl * 2 ^ (j - e1)) by (apply Z.mul_nonneg_nonneg; [lia | apply Z.pow_nonneg; lia]).
  (* stage 3: renormalisation after the rounding *)
  set (x2 := (inject_Z q * p2 e1)%Q).
  assert (I2 : bracket x2 e1 (shr_record_of_loc q loc_Exact)).
  { unfold bracket. apply (scaled_bracket_compat (inject_Z q)).
    - unfold x2. pose proof (p2_pos e1). field. lra.
    - unfold scaled_bracket; simpl. split; [lia|]. split; [lra|]. split; [lra|]. discriminate. }
  lazymatch goal with |- context [shr (shr_record_of_loc q loc_Exact) e1 ?n] => set (n2 := n) end.
  destruct (shr_bracket x2 e1 n2 _ I2) as [I3 E3].
  destruct (shr (shr_record_of_loc q loc_Exact) e1 n2) as [r2 e2] eqn:S2. cbn [fst snd] in I3, E3.
  assert (Hx2hi : (x2 <= inject_Z ku * p2 j)%Q).
  { unfold x2. rewrite <- (mul_grid (ku * 2 ^ (j - e1)) e1 j ku He1 eq_refl).
    apply Qmult_le_compat_r; [rewrite <- qz_le; lia | apply Qlt_le_weak, p2_pos]. }
  assert (Hx2lo : (inject_Z kl * p2 j <= x2)%Q).
  { unfold x2. rewrite <- (mul_grid (kl * 2 ^ (j - e1)) e1 j kl He1 eq_refl).
    apply Qmult_le_compat_r; [rewrite <- qz_le; lia | apply Qlt_le_weak, p2_pos]. }
  assert (He2 : e2 <= j).
  { pose proof (digits_bound q e1 j ku ltac:(lia) ltac:(lia) Hku He1).
    pose proof (fexp_le (Zdigits2 q + e1) j ltac:(lia) ltac:(lia)). unfold n2 in E3. lia. }
  destruct I3 as (Hr0 & Hr1 & Hr2 & _).
  set (m2 := shr_m r2) in *.
  set (v := (inject_Z m2 * p2 e2)%Q).
  assert (Hv : (inject_Z kl * p2 j <= v <= inject_Z ku * p2 j)%Q).
  { split.
    - pose proof (div_ge_grid x2 e2 j kl He2 Hx2lo) as L2.
      assert (kl * 2 ^ (j - e2) <= m2).
      { assert (kl * 2 ^ (j - e2) < m2 + 1); [|lia].
        apply (inject_Z_lt_trans _ _ (x2 / p2 e2)); [exact L2|]. rewrite inject_Z_plus. exact Hr2. }
      unfold v. rewrite <- (mul_grid (kl * 2 ^ (j - e2)) e2 j kl He2 eq_refl).
      apply Qmult_le_compat_r; [rewrite <- qz_le; lia | apply Qlt_le_weak, p2_pos].
    - apply (Qle_trans _ x2); [|exact Hx2hi].
      apply le_div_mul; [apply p2_pos | exact Hr1]. }
  destruct m2 as [|p|p] eqn:Em2; [| |lia].
  - split; [left; reflexivity|]. exists 0%Q. split; [reflexivity|].
    assert (Ev : (v == 0)%Q) by (unfold v; simpl; ring). lra.
  - replace (e2 <=? 1024 - 53) with true by (symmetry; apply Z.leb_le; lia).
    split; [right; eexists; eexists; reflexivity|].
    exists v. split; [reflexivity | exact Hv].
Qed.

Lemma p2_0 : (p2 0 == 1)%Q.
Proof. reflexivity. Qed.

Lemma pos_iter_xO (p d : positive) : Zpos (Pos.iter xO p d) = Zpos p * 2 ^ Zpos d.
Proof.
  induction d as [|d IH] using Pos.peano_ind; [simpl; lia|].
  rewrite Pos.iter_succ, Pos2Z.inj_succ, Z.pow_succ_r by lia.
  change (Zpos (xO (Pos.iter xO p d))) with (2 * Zpos (Pos.iter xO p d)). rewrite IH. lia.
Qed.

Lemma b64_of_Z_exact (n : Z) :
  0 < n < 2 ^ 53 ->
  exists m e, b64_of_Z n = S754_finite false m e /\ (inject_Z (Zpos m) * p2 e == inject_Z n)%Q.
Proof.
  intros Hn. destruct n as [|p|p]; [lia| |lia].
  unfold b64_of_Z, binary_normalize, binary_round.
  destruct (shl_align p 0 (fexp 53 1024 (Zpos (digits2_pos p) + 0))) as [mz ez] eqn:Es.
  assert (Hv : (inject_Z (Zpos mz) * p2 ez == inject_Z (Zpos p))%Q /\ ez <= 0).
  { unfold shl_align in Es.
    destruct (fexp 53 1024 (Zpos (digits2_pos p) + 0) - 0) as [|d|d] eqn:Ed;
      injection Es as <- <-; try (split; [rewrite p2_0; ring | lia]).
    rewrite Z.add_0_r, Z.sub_0_r in Ed. rewrite Ed.
    split; [|lia].
    rewrite pos_iter_xO, inject_Z_mult, <- p2_nonneg by lia.
    rewrite <- Qmult_assoc, <- p2_add. replace (Zpos d + Zneg d) with 0 by lia.
    rewrite p2_0. ring. }
  destruct Hv as [Hv Hez].
  destruct (round_bounds (inject_Z (Zpos p)) (Zpos mz) ez loc_Exact 0 (Zpos p) (Zpos p))
    as [Hf (v & Ev & Hlo & Hhi)]; try lia.
  - unfold bracket. apply (scaled_bracket_compat (inject_Z (Zpos mz))).
    + rewrite <- Hv. pose proof (p2_pos ez). field. lra.
    + unfold scaled_bracket; simpl. split; [lia|]. split; [lra|]. split; [lra|]. discriminate.
  - rewrite p2_0. lra.
  - rewrite p2_0. lra.
  - destruct Hf as [Hz | (m' & e' & Hm)].
    + rewrite Hz in Ev. simpl in Ev. injection Ev as <-. rewrite p2_0 in Hlo.
      exfalso. assert (C : (inject_Z (Zpos p) <= inject_Z 0)%Q) by (change (inject_Z 0) with 0%Q; lra).
      rewrite <- qz_le in C. lia.
    + exists m', e'. split; [exact Hm|]. rewrite Hm in Ev. simpl in Ev. injection Ev as <-.
      rewrite p2_0 in Hlo, Hhi. lra.
Qed.

Lemma digits2_pos_upper (p : positive) : Zpos p < 2 ^ Zpos (digits2_pos p).
Proof.
  induction p as [p IH|p IH|]; [| |simpl; lia];
    change (digits2_pos _) with (Pos.succ (digits2_pos p));
    rewrite Pos2Z.inj_succ, Z.pow_succ_r by lia; lia.
Qed.

Lemma new_location_exact (n : Z) : new_location n 0 = loc_Exact.
Proof. unfold new_location, new_location_even, new_location_odd. destruct (Z.even n); reflexivity. Qed.

Lemma div_round_bounds (mx my : positive) (ex ey j kl ku : Z) :
  let x := (inject_Z (Zpos mx) * p2 ex / (inject_Z (Zpos my) * p2 ey))%Q in
  -1074 <= j <= 971 -> 0 <= kl -> ku < 2 ^ 53 ->
  (inject_Z kl * p2 j <= x)%Q -> (x <= inject_Z ku * p2 j)%Q ->
  let f := b64_div (S754_finite false mx ex) (S754_finite false my ey) in
  (f = S754_zero false \/ exists m e, f = S754_finite false m e) /\
  exists v, sf_value f = Some v /\ (inject_Z kl * p2 j <= v <= inject_Z ku * p2 j)%Q.
Proof.
  intros x Hj Hkl Hku Hlo Hhi f. unfold f, b64_div, SFdiv. cbn [xorb].
  unfold SFdiv_core_binary.
  set (d1 := Zdigits2 (Zpos mx)). set (d2 := Zdigits2 (Zpos my)).
  set (F := fexp 53 1024 (d1 + ex - (d2 + ey))).
  set (e' := Z.min F (ex - ey)).
  set (s := ex - ey - e').
  assert (Hs : 0 <= s) by (unfold s, e'; lia).
  set (m' := match s with Zpos _ => Z.shiftl (Zpos mx) s | Z0 => Zpos mx | Zneg _ => 0 end).
  assert (Em' : m' = Zpos mx * 2 ^ s).
  { unfold m'. destruct s as [|p|p] eqn:Es; [lia| |lia].
    rewrite Z.shiftl_mul_pow2 by lia. reflexivity. }
  assert (Hmy : 0 < Zpos my) by lia.
  pose proof (Z_div_mod m' (Zpos my) ltac:(lia)) as Hdm.
  destruct (Z.div_eucl m' (Zpos my)) as [q r] eqn:Edm. destruct Hdm as [Hm' Hr].
  (* the value of the scaled quotient *)
  assert (Hmyq : (0 < inject_Z (Zpos my))%Q) by (change 0%Q with (inject_Z 0); rewrite <- qz_lt; lia).
  assert (Ey : (x / p2 e' == inject_Z m' / inject_Z (Zpos my))%Q).
  { unfold x. rewrite Em', inject_Z_mult, <- p2_nonneg by exact Hs.
    replace ex with (s + ey + e') at 1 by (unfold s; lia).
    rewrite !p2_add. pose proof (p2_pos s). pose proof (p2_pos ey). pose proof (p2_pos e').
    field. split; [|split]; lra. }
  assert (I : bracket x e' (shr_record_of_loc q (new_location (Zpos my) r))).
  { unfold bracket. apply (scaled_bracket_compat (inject_Z m' / inject_Z (Zpos my))); [symmetry; exact Ey|].
    unfold scaled_bracket. rewrite record_of_loc_m.
    assert (Hq0 : 0 <= q).
    { assert (0 <= m') by (rewrite Em'; apply Z.mul_nonneg_nonneg; [lia | apply Z.pow_nonneg; lia]).
      nia. }
    split; [exact Hq0|]. split; [|split].
    - apply Qle_shift_div_l; [exact Hmyq|]. rewrite <- inject_Z_mult, <- qz_le. nia.
    - apply Qlt_shift_div_r; [exact Hmyq|]. 
      change 1%Q with (inject_Z 1). rewrite <- inject_Z_plus, <- inject_Z_mult, <- qz_lt. nia.
    - destruct (Z.eq_dec r 0) as [->|Hr0].
      + rewrite new_location_exact. discriminate.
      + intros _. apply Qlt_shift_div_l; [exact Hmyq|]. rewrite <- inject_Z_mult, <- qz_lt. nia. }
  (* the quotient exponent does not pass j *)
  assert (He' : e' <= j).
  { assert (Hz : d1 + ex - (d2 + ey) <= j + 53).
    { destruct (Z_le_gt_dec (d1 + ex - (d2 + ey)) (j + 53)) as [H|H]; [exact H|exfalso].
      assert (Hd1 : 2 ^ (d1 - 1) <= Zpos mx) by apply digits2_pos_bound.
      assert (Hd2 : Zpos my < 2 ^ d2) by apply digits2_pos_upper.
      assert (Hd1p : 1 <= d1) by (unfold d1; simpl; lia).
      set (A := (inject_Z (Zpos mx) * p2 ex)%Q) in *.
      set (B := (inject_Z (Zpos my) * p2 ey)%Q) in *.
      assert (HA : (p2 (d1 - 1 + ex) <= A)%Q).
      { unfold A. rewrite p2_add, p2_nonneg by lia.
        apply Qmult_le_compat_r; [rewrite <- qz_le; exact Hd1 | apply Qlt_le_weak, p2_pos]. }
      assert (HB : (B < p2 (d2 + ey))%Q).
      { unfold B. rewrite p2_add, (p2_nonneg d2) by (unfold d2; simpl; lia).
        apply Qmult_lt_compat_r; [apply p2_pos | rewrite <- qz_lt; exact Hd2]. }
      assert (HB0 : (0 < B)%Q).
      { unfold B. apply Qmult_lt_0_compat; [exact Hmyq | apply p2_pos]. }
      assert (Hx : (p2 (d1 + ex - (d2 + ey) - 1) < x)%Q).
      { unfold x. apply Qlt_shift_div_l; [exact HB0|].
        apply (Qlt_le_trans _ (p2 (d1 + ex - (d2 + ey) - 1) * p2 (d2 + ey))).
        - apply Qmult_lt_l; [apply p2_pos | exact HB].
        - rewrite <- p2_add. replace (d1 + ex - (d2 + ey) - 1 + (d2 + ey)) with (d1 - 1 + ex) by lia.
          exact HA. }
      assert (Hp : (p2 (j + 53) <= p2 (d1 + ex - (d2 + ey) - 1))%Q).
      { apply Qpower_le_compat_l; [lia | discriminate]. }
      assert (Hk : (inject_Z ku * p2 j < p2 (j + 53))%Q).
      { rewrite Z.add_comm, p2_add, (p2_nonneg 53) by lia.
        apply Qmult_lt_compat_r; [apply p2_pos | rewrite <- qz_lt; exact Hku]. }
      lra. }
    pose proof (fexp_le _ j Hz ltac:(lia)). unfold e'. lia. }
  apply (round_bounds x q e' (new_location (Zpos my) r) j kl ku I He' Hj Hkl Hku Hlo Hhi).
Qed.

Lemma finite_value (m : positive) (e : Z) :
  sf_value (S754_finite false m e) = Some (inject_Z (Zpos m) * p2 e)%Q.
Proof. reflexivity. Qed.

(** Python's [a / b] on non-negative integers with [kl <= a / b <= ku]
    raises nothing and gives a float between [kl] and [ku]. *)
Lemma py_int_truediv_bounds (a b kl ku : Z) :
  0 <= a -> 0 < b -> 0 <= kl -> ku < 2 ^ 53 -> kl * b <= a <= ku * b ->
  exists f, py_int_truediv a b = Some f /\
    (f = S754_zero false \/ exists m e, f = S754_finite false m e) /\
    exists v, sf_value f = Some v /\ (inject_Z kl <= v <= inject_Z ku)%Q.
Proof.
  intros Ha Hb Hkl Hku Hab. unfold py_int_truediv.
  replace (b =? 0) with false by (symmetry; apply Z.eqb_neq; lia).
  replace (a <? 0) with false by (symmetry; apply Z.ltb_ge; lia).
  replace (b <? 0) with false by (symmetry; apply Z.ltb_ge; lia). cbn [xorb].
  destruct (Z.eqb_spec a 0) as [->|Ha0].
  { eexists. split; [reflexivity|]. split; [left; reflexivity|].
    exists 0%Q. split; [reflexivity|].
    assert (kl = 0) by nia. assert (0 <= ku) by nia. subst kl.
    change (inject_Z 0) with 0%Q. split; [lra|]. change 0%Q with (inject_Z 0). rewrite <- qz_le. lia. }
  destruct a as [|pa|pa]; [lia| |lia]. destruct b as [|pb|pb]; [lia| |lia].
  assert (Hq : forall mx my ex ey,
    (inject_Z (Zpos mx) * p2 ex == inject_Z (Zpos pa))%Q ->
    (inject_Z (Zpos my) * p2 ey == inject_Z (Zpos pb))%Q ->
    let f := b64_div (S754_finite false mx ex) (S754_finite false my ey) in
    (f = S754_zero false \/ exists m e, f = S754_finite false m e) /\
    exists v, sf_value f = Some v /\ (inject_Z kl <= v <= inject_Z ku)%Q).
  { intros mx my ex ey Ea Eb.
    assert (Hb0 : (0 < inject_Z (Zpos pb))%Q) by (change 0%Q with (inject_Z 0); rewrite <- qz_lt; lia).
    assert (Ex : (inject_Z (Zpos mx) * p2 ex / (inject_Z (Zpos my) * p2 ey)
                  == inject_Z (Zpos pa) / inject_Z (Zpos pb))%Q) by (rewrite Ea, Eb; reflexivity).
    pose proof (div_round_bounds mx my ex ey 0 kl ku ltac:(lia) Hkl Hku) as D.
    cbv zeta in D. rewrite !p2_0, !Qmult_1_r, Ex in D.
    assert (L : (inject_Z kl <= inject_Z (Zpos pa) / inject_Z (Zpos pb))%Q).
    { apply Qle_shift_div_l; [exact Hb0|]. rewrite <- inject_Z_mult, <- qz_le. lia. }
    assert (U : (inject_Z (Zpos pa) / inject_Z (Zpos pb) <= inject_Z ku)%Q).
    { apply Qle_shift_div_r; [exact Hb0|]. rewrite <- inject_Z_mult, <- qz_le. lia. }
    destruct (D L U) as [Hf (v & Ev & Hv)]. split; [exact Hf|].
    exists v. split; [exact Ev|]. rewrite p2_0, !Qmult_1_r in Hv. exact Hv. }
  destruct ((Z.abs (Zpos pa) <? 2 ^ 53) && (Z.abs (Zpos pb) <? 2 ^ 53)) eqn:Esmall.
  - apply andb_prop in Esmall. destruct Esmall as [Sa Sb].
    apply Z.ltb_lt in Sa, Sb. simpl Z.abs in Sa, Sb.
    destruct (b64_of_Z_exact (Zpos pa) ltac:(lia)) as (ma & ea & Ea & Va).
    destruct (b64_of_Z_exact (Zpos pb) ltac:(lia)) as (mb & eb & Eb & Vb).
    rewrite Ea, Eb. eexists. split; [reflexivity|]. apply Hq; assumption.
  - simpl Z.abs.
    destruct (Hq pa pb 0 0 ltac:(rewrite p2_0; ring) ltac:(rewrite p2_0; ring)) as [Hf Hv].
    cbv zeta in Hf, Hv. unfold b64_div, SFdiv in Hf, Hv. cbn [xorb] in Hf, Hv.
    destruct (SFdiv_core_binary 53 1024 (Zpos pa) 0 (Zpos pb) 0) as [[m e] l].
    destruct Hf as [Hz | (m' & e' & Hm)].
    + rewrite Hz in Hv |- *. eexists. split; [reflexivity|]. split; [left; reflexivity | exact Hv].
    + rewrite Hm in Hv |- *. eexists. split; [reflexivity|].
      split; [right; eauto | exact Hv].
Qed.

Lemma b64_100 : b64_of_Z 100 = S754_finite false 7036874417766400 (-46).
Proof. vm_compute. reflexivity. Qed.

(** [q * 100] for a float [q] between 0 and 1 is a float between 0 and
    100. *)
Lemma mul100_bounds (f : spec_float) (v : Q) :
  (f = S754_zero false \/ exists m e, f = S754_finite false m e) ->
  sf_value f = Some v -> (0 <= v <= 1)%Q ->
  exists w, sf_value (b64_mul f (b64_of_Z 100)) = Some w /\ (0 <= w <= 100)%Q.
Proof.
  intros [-> | (m & e & ->)] Ev Hv; rewrite b64_100.
  - exists 0%Q. split; [reflexivity | lra].
  - rewrite finite_value in Ev. injection Ev as <-.
    assert (He : e <= 0).
    { assert (Hm : (1 <= inject_Z (Zpos m))%Q) by (change 1%Q with (inject_Z 1); rewrite <- qz_le; lia).
      assert (Hp : (p2 e <= p2 0)%Q).
      { rewrite p2_0. pose proof (p2_pos e).
        apply (Qle_trans _ (inject_Z (Zpos m) * p2 e)); [|lra].
        rewrite <- (Qmult_1_l (p2 e)) at 1. apply Qmult_le_compat_r; lra. }
      apply Qpower_le_compat_l_inv in Hp; [exact Hp | reflexivity]. }
    unfold b64_mul, SFmul. cbn [xorb].
    set (x := (inject_Z (Zpos (m * 7036874417766400)) * p2 (e + -46))%Q).
    assert (Ex : (x == inject_Z (Zpos m) * p2 e * 100)%Q).
    { unfold x. rewrite p2_add, Pos2Z.inj_mul, inject_Z_mult.
      assert (K : (inject_Z 7036874417766400 * p2 (-46) == 100)%Q) by (vm_compute; reflexivity).
      rewrite <- K. ring. }
    destruct (round_bounds x (Zpos (m * 7036874417766400)) (e + -46) loc_Exact 2 0 25)
      as [_ (w & Ew & Hw)]; try lia.
    + unfold bracket. apply (scaled_bracket_compat (inject_Z (Zpos (m * 7036874417766400)))).
      * unfold x. pose proof (p2_pos (e + -46)). field. lra.
      * unfold scaled_bracket; simpl. split; [lia|]. split; [lra|]. split; [lra|]. discriminate.
    + change (p2 2) with (4#1). change (inject_Z 0) with 0%Q. rewrite Ex.
      pose proof (p2_pos e). nra.
    + change (p2 2) with (4#1). rewrite Ex. change (inject_Z 25) with (25#1). nra.
    + exists w. split; [exact Ew|]. change (p2 2) with (4#1) in Hw.
      change (inject_Z 25) with (25#1) in Hw. change (inject_Z 0) with 0%Q in Hw. lra.
Qed.

Lemma sum_Z_bounds (l : list Z) :
  Forall (fun x => 1 <= x <= 3) l ->
  Z.of_nat (List.length l) <= sum_Z l <= 3 * Z.of_nat (List.length l).
Proof.
  induction l as [|x l IH]; intros Hl; simpl; [lia|].
  inversion Hl; subst. specialize (IH H2). unfold sum_Z in *. simpl. lia.
Qed.

Lemma match_nonempty {A B} (l : list A) (x y : B) :
  l <> [] -> match l with [] => x | _ :: _ => y end = y.
Proof. destruct l; [contradiction | reflexivity]. Qed.

Lemma metrics_in_range (s : session)
  (Hc : 0 <= correct_answers s <= total_questions s)
  (Ht : total_questions s = Z.of_nat (List.length (questions_history s)))
  (Hd : Forall (fun e => 1 <= e_difficulty e <= 3) (questions_history s)) :
  exists m, get_performance_metrics s = Some m /\
    (exists acc, py_number_value (m_accuracy m) = Some acc /\ (0 <= acc <= 100)%Q) /\
    (exists avg, py_number_value (m_avg_difficulty m) = Some avg /\ (1 <= avg <= 3)%Q).
Proof.
  unfold get_performance_metrics.
  destruct (Z.eqb_spec (total_questions s) 0) as [E0|E0].
  - eexists. split; [reflexivity|]. simpl.
    split; eexists; (split; [reflexivity|]); change (inject_Z 0) with 0%Q;
      change (inject_Z 1) with 1%Q; lra.
  - destruct (py_int_truediv_bounds (correct_answers s) (total_questions s) 0 1)
      as (f & Ef & Hf & v & Ev & Hv); try lia.
    rewrite Ef.
    destruct (mul100_bounds f v Hf Ev ltac:(change (inject_Z 0) with 0%Q in Hv;
                                            change (inject_Z 1) with 1%Q in Hv; lra))
      as (w & Ew & Hw).
    assert (Hne : map e_difficulty (questions_history s) <> []).
    { destruct (questions_history s); [simpl in Ht; contradiction | discriminate]. }
    rewrite (match_nonempty _ _ _ Hne), length_map.
    pose proof (sum_Z_bounds (map e_difficulty (questions_history s))) as Hs.
    rewrite length_map in Hs. specialize (Hs ltac:(apply Forall_map; exact Hd)).
    destruct (py_int_truediv_bounds (sum_Z (map e_difficulty (questions_history s)))
                (Z.of_nat (List.length (questions_history s))) 1 3)
      as (a & Ea & _ & u & Eu & Hu); try lia.
    rewrite Ea. eexists. split; [reflexivity|]. simpl.
    split; [exists w; split; [exact Ew | exact Hw]|].
    exists u. split; [exact Eu|].
    change (inject_Z 1) with 1%Q in Hu. change (inject_Z 3) with 3%Q in Hu. exact Hu.
Qed.

(** C5 (corrected): when no question was answered the metrics give
    accuracy [0] and mean difficulty [1]; otherwise the accuracy is the
    binary64 float [(correct / total) * 100], Python's int division
    rounded to a float and then multiplied by [100.0] with a second
    rounding, and the mean difficulty is the float quotient of the sum of
    the recorded levels by their number.  For a session whose counts are
    consistent (every reachable one) the call does not raise, the
    accuracy lies between 0 and 100 and the mean between 1 and 3; the
    metrics depend only on the two counts, the recorded levels, the peak
    level and the current level. *)
Theorem get_performance_metrics_spec (s : session) :
  (total_questions s = 0 ->
     exists m, get_performance_metrics s = Some m /\
       m_accuracy m = PyInt 0 /\ m_avg_difficulty m = PyInt 1) /\
  (total_questions s <> 0 -> forall m, get_performance_metrics s = Some m ->
     (exists q, py_int_truediv (correct_answers s) (total_questions s) = Some q /\
                m_accuracy m = PyFloat (b64_mul q (b64_of_Z 100))) /\
     (questions_history s <> [] ->
        exists a, py_int_truediv (sum_Z (map e_difficulty (questions_history s)))
                    (Z.of_nat (List.length (questions_history s))) = Some a /\
                  m_avg_difficulty m = PyFloat a)) /\
  (0 <= correct_answers s <= total_questions s ->
   total_questions s = Z.of_nat (List.length (questions_history s)) ->
   Forall (fun e => 1 <= e_difficulty e <= 3) (questions_history s) ->
   exists m, get_performance_metrics s = Some m /\
     (exists acc, py_number_value (m_accuracy m) = Some acc /\ (0 <= acc <= 100)%Q) /\
     (exists avg, py_number_value (m_avg_difficulty m) = Some avg /\ (1 <= avg <= 3)%Q)) /\
  (forall s', total_questions s' = total_questions s ->
     correct_answers s' = correct_answers s ->
     map e_difficulty (questions_history s') = map e_difficulty (questions_history s) ->
     max_difficulty_reached s' = max_difficulty_reached s ->
     current_difficulty s' = current_difficulty s ->
     get_performance_metrics s' = get_performance_metrics s).
Proof.
  split; [|split; [|split]].
  - intros H0. unfold get_performance_metrics. rewrite H0. simpl.
    eexists. split; [reflexivity | split; reflexivity].
  - intros H0 m Em. unfold get_performance_metrics in Em.
    replace (total_questions s =? 0) with false in Em by (symmetry; apply Z.eqb_neq; exact H0).
    destruct (py_int_truediv (correct_answers s) (total_questions s)) as [q|] eqn:Eq;
      [|discriminate].
    destruct (map e_difficulty (questions_history s)) as [|d ds] eqn:Ed.
    + injection Em as <-. split; [exists q; split; reflexivity|].
      intros Hne. destruct (questions_history s); [contradiction | discriminate].
    + rewrite <- Ed, length_map in Em.
      destruct (py_int_truediv (sum_Z (map e_difficulty (questions_history s)))
                  (Z.of_nat (List.length (questions_history s)))) as [a|] eqn:Ea;
        [|discriminate].
      injection Em as <-. split; [exists q; split; reflexivity|].
      intros _. exists a. split; [rewrite <- Ed; exact Ea | reflexivity].
  - intros Hc Ht Hd. exact (metrics_in_range s Hc Ht Hd).
  - intros s' E1 E2 E3 E4 E5. unfold get_performance_metrics.
    rewrite E1, E2, E3, E4, E5. reflexivity.
Qed.

(** ** Weak topics *)

Lemma filter_filter_and {A} (f g : A -> bool) (l : list A) :
  filter f (filter g l) = filter (fun x => g x && f x) l.
Proof.
  induction l as [|x l IH]; simpl; [reflexivity|].
  destruct (g x); simpl; [destruct (f x); simpl|]; rewrite IH; reflexivity.
Qed.

Lemma StronglySorted_filter {A} (R : A -> A -> Prop) (f : A -> bool) (l : list A) :
  StronglySorted R l -> StronglySorted R (filter f l).
Proof.
  induction l as [|x l IH]; intros H; simpl; [constructor|].
  apply StronglySorted_inv in H as [H1 H2].
  destruct (f x); [|apply IH; exact H1].
  constructor; [apply IH; exact H1|].
  rewrite Forall_forall in *. intros y Hy. apply filter_In in Hy as [Hy _]. auto.
Qed.

Lemma StronglySorted_weaken {A} (R R' : A -> A -> Prop) (l : list A) :
  (forall a b, In a l -> In b l -> R a b -> R' a b) ->
  StronglySorted R l -> StronglySorted R' l.
Proof.
  induction l as [|x l IH]; intros HR H; [constructor|].
  apply StronglySorted_inv in H as [H1 H2]. constructor.
  - apply IH; [intros a b Ha Hb; apply HR; right; assumption | exact H1].
  - rewrite Forall_forall in *. intros y Hy. apply HR; [left; reflexivity | right; exact Hy | auto].
Qed.

Section WeakTopicsProofs.

Variable topic : Type.
Variable topic_eq_dec : forall x y : topic, {x = y} + {x <> y}.

Local Abbreviation tin := (topic_in topic topic_eq_dec).
Local Abbreviation loop := (weak_topics_loop topic topic_eq_dec).
Local Abbreviation weak := (get_weak_topics topic topic_eq_dec).
Local Abbreviation fi := (first_incorrect topic topic_eq_dec).

Lemma topic_in_app (t : topic) (a b : list topic) :
  tin t (a ++ b) = tin t a || tin t b.
Proof. unfold topic_in. apply existsb_app. Qed.

Lemma topic_in_single (t u : topic) :
  tin t [u] = if topic_eq_dec t u then true else false.
Proof. unfold topic_in. simpl. destruct (topic_eq_dec t u); reflexivity. Qed.

Lemma topic_in_iff (t : topic) (l : list topic) : tin t l = true <-> In t l.
Proof.
  unfold topic_in. rewrite existsb_exists. split.
  - intros (u & Hu & E). destruct (topic_eq_dec t u); [subst; exact Hu | discriminate].
  - intros H. exists t. split; [exact H|]. destruct (topic_eq_dec t t); congruence.
Qed.

(** The loop started from [acc] adds, in order, the weak topics of the
    history that [acc] does not hold yet. *)
Lemma weak_topics_loop_acc (h : list (topic * bool)) (acc : list topic) :
  loop h acc = acc ++ filter (fun x => negb (tin x acc)) (loop h []).
Proof.
  revert acc. induction h as [|[t c] h IH]; intros acc; cbn -[topic_in].
  - rewrite app_nil_r. reflexivity.
  - destruct c; cbn -[topic_in]; [apply IH|].
    change (tin t []) with false. cbn [app].
    rewrite (IH [t]). cbn [app filter].
    destruct (tin t acc) eqn:Et; cbn [negb].
    + rewrite IH. f_equal. rewrite filter_filter_and.
      apply filter_ext. intros x. rewrite topic_in_single.
      destruct (topic_eq_dec x t) as [->|]; simpl; [rewrite Et|]; reflexivity.
    + rewrite IH, <- app_assoc. cbn [app]. f_equal. f_equal.
      rewrite filter_filter_and. apply filter_ext. intros x.
      rewrite topic_in_app, topic_in_single.
      destruct (topic_eq_dec x t); simpl; destruct (tin x acc); reflexivity.
Qed.

Lemma weak_cons_incorrect (t : topic) (h : list (topic * bool)) :
  weak ((t, false) :: h) = t :: filter (fun x => negb (tin x [t])) (weak h).
Proof. unfold get_weak_topics. simpl. apply weak_topics_loop_acc. Qed.

Lemma weak_cons_correct (t : topic) (h : list (topic * bool)) :
  weak ((t, true) :: h) = weak h.
Proof. reflexivity. Qed.

Lemma weak_topics_In (h : list (topic * bool)) (x : topic) :
  In x (weak h) <-> In (x, false) h.
Proof.
  induction h as [|[t c] h IH]; [simpl; tauto|].
  destruct c.
  - rewrite weak_cons_correct, IH. simpl. split; [auto|].
    intros [E|H]; [discriminate|exact H].
  - rewrite weak_cons_incorrect. cbn [In]. rewrite filter_In, IH, topic_in_single.
    destruct (topic_eq_dec x t) as [->|Hne]; simpl.
    + split; auto.
    + split.
      * intros [E|[H _]]; [congruence|auto].
      * intros [E|H]; [inversion E; congruence|auto].
Qed.

Lemma weak_topics_NoDup (h : list (topic * bool)) : NoDup (weak h).
Proof.
  induction h as [|[t c] h IH]; [constructor|].
  destruct c; [rewrite weak_cons_correct; exact IH|].
  rewrite weak_cons_incorrect. constructor.
  - rewrite filter_In, topic_in_single. destruct (topic_eq_dec t t); [|congruence].
    simpl. intros [_ F]. discriminate.
  - apply NoDup_filter. exact IH.
Qed.

Lemma weak_topics_sorted (h : list (topic * bool)) :
  StronglySorted (fun a b => (fi h a < fi h b)%nat) (weak h).
Proof.
  induction h as [|[t c] h IH]; [constructor|].
  destruct c.
  - rewrite weak_cons_correct. eapply StronglySorted_weaken; [|exact IH].
    intros a b _ _ H. simpl in H |- *. lia.
  - rewrite weak_cons_incorrect. constructor.
    + eapply StronglySorted_weaken; [|apply StronglySorted_filter; exact IH].
      intros a b Ha Hb H. apply filter_In in Ha as [_ Ha]. apply filter_In in Hb as [_ Hb].
      rewrite topic_in_single in Ha, Hb. simpl in H |- *.
      destruct (topic_eq_dec a t); [discriminate|]. destruct (topic_eq_dec b t); [discriminate|].
      simpl. lia.
    + apply Forall_forall. intros b Hb. apply filter_In in Hb as [_ Hb].
      rewrite topic_in_single in Hb. simpl.
      destruct (topic_eq_dec t t); [|congruence]. destruct (topic_eq_dec b t); [discriminate|].
      simpl. lia.
Qed.

End WeakTopicsProofs.

(** C6: the weak topics are exactly the topics with an incorrect answer,
    without repetition, in the order of each topic's first incorrect
    answer; on the spec's history the result is [T2, T1, T3]. *)
Theorem get_weak_topics_spec (topic : Type)
  (topic_eq_dec : forall x y : topic, {x = y} + {x <> y})
  (h : list (topic * bool)) :
  let r := get_weak_topics topic topic_eq_dec h in
  (forall t, In t r <-> In (t, false) h) /\
  NoDup r /\
  StronglySorted (fun a b => (first_incorrect topic topic_eq_dec h a
                              < first_incorrect topic topic_eq_dec h b)%nat) r /\
  get_weak_topics text text_eq_dec
    [(cps "T1", true); (cps "T2", false); (cps "T1", false); (cps "T3", false)]
  = [cps "T2"; cps "T1"; cps "T3"].
Proof.
  intros r. split; [|split; [|split]].
  - intros t. apply weak_topics_In.
  - apply weak_topics_NoDup.
  - apply weak_topics_sorted.
  - vm_compute. reflexivity.
Qed.

(** ** Parsing the model's reply *)

Lemma re_match_star_greedy_cons (p : Z -> bool) (c : Z) (s : text) g k :
  re_match (RStar true p) (c :: s) g k =
  match (if p c then re_match (RStar true p) s g k else None) with
  | Some x => Some x
  | None => k (c :: s) g
  end.
Proof. reflexivity. Qed.

Section BraceSearch.

Variable K : text -> option text -> option (option text).

(** The continuation of [[\s\S]*] in [brace_re]: a closing brace, then [K]. *)
Let close (s1 : text) (g1 : option text) : option (option text) :=
  re_match (RClass (Z.eqb 125)) s1 g1 K.

Lemma star_close_none (g : option text) (c : text) :
  ~ In 125 c -> re_match (RStar true any_char) c g close = None.
Proof.
  induction c as [|x c IH]; intros Hc; [reflexivity|].
  rewrite re_match_star_greedy_cons. simpl any_char. cbv iota.
  rewrite IH by (intros H; apply Hc; right; exact H).
  unfold close. cbn [re_match].
  replace (Z.eqb 125 x) with false; [reflexivity|].
  symmetry. apply Z.eqb_neq. intros <-. apply Hc. left. reflexivity.
Qed.

Lemma star_close_last (g : option text) (b c : text) v :
  ~ In 125 c -> K c g = Some v ->
  re_match (RStar true any_char) (b ++ 125 :: c) g close = Some v.
Proof.
  intros Hc HK. induction b as [|x b IH]; simpl app.
  - rewrite re_match_star_greedy_cons. simpl any_char. cbv iota.
    rewrite star_close_none by exact Hc. unfold close. cbn [re_match].
    rewrite Z.eqb_refl. exact HK.
  - rewrite re_match_star_greedy_cons. simpl any_char. cbv iota. rewrite IH. reflexivity.
Qed.

End BraceSearch.

Lemma re_search_cons (r : regex) (x : Z) (t : text) :
  re_search r (x :: t) =
  match re_match r (x :: t) None (fun _ g => Some g) with
  | Some y => Some y
  | None => re_search r t
  end.
Proof. reflexivity. Qed.

Lemma re_search_brace_skip (a t : text) :
  ~ In 123 a -> re_search brace_re (a ++ t) = re_search brace_re t.
Proof.
  induction a as [|x a IH]; intros Ha; [reflexivity|].
  simpl app. cbn [re_search re_match brace_re].
  replace (Z.eqb 123 x) with false.
  2:{ symmetry. apply Z.eqb_neq. intros <-. apply Ha. left. reflexivity. }
  apply IH. intros H. apply Ha. right. exact H.
Qed.

(** The brace search takes the text from the first opening brace through
    the last closing brace, and finds nothing without an opening brace. *)
Lemma brace_span_first_last (a b c : text) :
  ~ In 123 a -> ~ In 125 c ->
  brace_span (a ++ 123 :: b ++ 125 :: c) = Some (123 :: b ++ [125]).
Proof.
  intros Ha Hc. unfold brace_span. rewrite re_search_brace_skip by exact Ha.
  rewrite re_search_cons.
  set (S0 := 123 :: b ++ 125 :: c).
  change (re_match brace_re S0 None (fun _ g => Some g)) with
    (re_match (RStar true any_char) (b ++ 125 :: c) None
       (fun s1 g1 => re_match (RClass (Z.eqb 125)) s1 g1
          (fun s' _ => Some (Some (firstn (List.length S0 - List.length s') S0))))).
  erewrite star_close_last; [| exact Hc | reflexivity].
  cbv beta iota. f_equal.
  replace (List.length S0 - List.length c)%nat with (List.length b + 2)%nat
    by (unfold S0; cbn [List.length]; rewrite length_app; cbn [List.length]; lia).
  unfold S0. replace (List.length b + 2)%nat with (S (List.length b + 1)) by lia.
  rewrite firstn_cons, firstn_app_2. reflexivity.
Qed.

Lemma brace_span_no_open (t : text) : ~ In 123 t -> brace_span t = None.
Proof.
  intros Ht. unfold brace_span.
  rewrite <- (app_nil_r t), re_search_brace_skip by exact Ht. reflexivity.
Qed.

(** C7: the reply is parsed by three attempts in order (the whole text,
    the interior of the first fenced block, the span from the first
    opening brace through the last closing brace) and the first that
    parses gives the result, even when a later one would parse to
    something else; the spec's fenced reply is recovered by the second. *)
Theorem parse_json_response_first_success (t : text) :
  (forall v, json_loads t = Some v -> parse_json_response t = inr v) /\
  (json_loads t = None ->
   forall g v, fenced_block t = Some g -> json_loads g = Some v ->
   parse_json_response t = inr v) /\
  (json_loads t = None ->
   (forall g, fenced_block t = Some g -> json_loads g = None) ->
   forall g v, brace_span t = Some g -> json_loads g = Some v ->
   parse_json_response t = inr v) /\
  (forall a b c, ~ In 123 a -> ~ In 125 c ->
   brace_span (a ++ 123 :: b ++ 125 :: c) = Some (123 :: b ++ [125])) /\
  (json_loads fenced_reply = None /\
   fenced_block fenced_reply = Some (jtext "{'question':'Q'}") /\
   parse_json_response fenced_reply = inr (JObj [(cps "question", JStr (cps "Q"))])) /\
  (json_loads fence_then_brace_reply = None /\
   json_loads (jtext "{'b':2}") = Some (JObj [(cps "b", JInt 2)]) /\
   brace_span fence_then_brace_reply = Some (jtext "{'b':2}") /\
   parse_json_response fence_then_brace_reply = inr (JArr [JInt 1])) /\
  (fenced_block string_with_fence_reply = Some (jtext "{}") /\
   parse_json_response string_with_fence_reply = inr (JStr (cps "```{}```"))).
Proof.
  split; [|split; [|split; [|split; [|split; [|split]]]]].
  - intros v H. unfold parse_json_response. rewrite H. reflexivity.
  - intros H1 g v Hg Hv. unfold parse_json_response. rewrite H1, Hg, Hv. reflexivity.
  - intros H1 H2 g v Hg Hv. unfold parse_json_response. rewrite H1.
    destruct (fenced_block t) as [g2|] eqn:Ef.
    + rewrite (H2 g2 eq_refl), Hg, Hv. reflexivity.
    + rewrite Hg, Hv. reflexivity.
  - apply brace_span_first_last.
  - vm_compute. repeat split.
  - vm_compute. repeat split.
  - vm_compute. repeat split.
Qed.

(** C8: when no attempt parses the reply, parsing raises the
    "Could not parse JSON from response" error, the generated question is
    the error record (flagged "error", carrying that message), the
    question page shows it with its retry button instead of answer
    options, and the run leaves the history, the window, the current and
    peak levels and the counts as they were. *)
Theorem unparsable_reply_error_record (upper : text -> text) (s : session)
  (raw : text) (choice : nat) (submit try_again : bool)
  (H1 : json_loads raw = None)
  (H2 : forall g, fenced_block raw = Some g -> json_loads g = None)
  (H3 : forall g, brace_span raw = Some g -> json_loads g = None) :
  let err := cps "Could not parse JSON from response" in
  let q := generate_question (ChatOk raw) (current_difficulty s) in
  let s' := step upper s (QuestionRun (ChatOk raw) choice submit try_again) in
  parse_json_response raw = inl (ValueError err) /\
  q = error_question err (current_difficulty s) /\
  json_truthy (qget q (cps "error") JNull) = true /\
  qget q (cps "error_message") JNull = JStr err /\
  current_question (question_run upper s (ChatOk raw) choice submit try_again)
    = (if try_again then None else Some q) /\
  questions_history s' = questions_history s /\
  performance_window s' = performance_window s /\
  current_difficulty s' = current_difficulty s /\
  max_difficulty_reached s' = max_difficulty_reached s /\
  total_questions s' = total_questions s /\
  correct_answers s' = correct_answers s /\
  show_feedback s' = show_feedback s.
Proof.
  intros err q s'.
  assert (Hp : parse_json_response raw = inl (ValueError err)).
  { unfold parse_json_response. rewrite H1.
    destruct (fenced_block raw) as [g|] eqn:Ef; [rewrite (H2 g eq_refl)|];
    (destruct (brace_span raw) as [g'|] eqn:Eb; [rewrite (H3 g' eq_refl)|]); reflexivity. }
  assert (Hq : q = error_question err (current_difficulty s)).
  { unfold q, generate_question. rewrite Hp. reflexivity. }
  assert (Hr : question_run upper s (ChatOk raw) choice submit try_again =
               if try_again
               then with_question s None (asked_questions s ++ [JStr (cps "Error: " ++ err)])
               else with_question s (Some q) (asked_questions s ++ [JStr (cps "Error: " ++ err)])).
  { unfold question_run. fold q. rewrite Hq. destruct try_again; reflexivity. }
  assert (Hs : s' = s \/ s' = question_run upper s (ChatOk raw) choice submit try_again).
  { unfold s'. simpl. destruct (_ && _ && _); auto. }
  split; [exact Hp|]. split; [exact Hq|].
  split; [rewrite Hq; reflexivity|]. split; [rewrite Hq; reflexivity|]. split; [rewrite Hr; destruct try_again; reflexivity|].
  destruct Hs as [-> | ->]; [repeat split|].
  rewrite Hr. destruct try_again; repeat split.
Qed.

(** C9 (as the code does it): for a reply that parses to an object with
    non-empty key concepts and an MCQ list, fewer than ten MCQs fail with
    HTTP 500 "AI returned only n MCQs", and ten or more succeed with the
    list cut to its first ten items, passed through unchanged: the number
    of options of an item is not checked. *)
Theorem revise_mcq_count_only (reply : text) (fields : list (text * json))
  (kc : json) (l : list json)
  (Hs : py_strip reply <> [])
  (Hp : json_loads (py_strip reply) = Some (JObj fields))
  (Hk : dict_get fields (cps "key_concepts") = Some kc)
  (Ht : json_truthy kc = true)
  (Hm : dict_get fields (cps "mcqs") = Some (JArr l)) :
  ((List.length l < 10)%nat ->
   revise reply = inl (HTTPException 500 (cps "AI returned only "
                                            ++ nat_text (List.length l) ++ cps " MCQs"))) /\
  ((10 <= List.length l)%nat ->
   revise reply = inr (JObj [(cps "analysis",
                              JObj (dict_set fields (cps "mcqs") (JArr (firstn 10 l))))])).
Proof.
  assert (E : revise reply = revise_reply (py_strip reply)).
  { unfold revise. destruct (py_strip reply); [contradiction|reflexivity]. }
  rewrite E. unfold revise_reply. rewrite Hp, Hk, Ht. simpl negb. cbv iota.
  unfold dict_get_default. rewrite Hm. simpl py_len. cbv iota.
  split; intros Hl.
  - replace (List.length l <? 10)%nat with true by (symmetry; apply Nat.ltb_lt; exact Hl).
    reflexivity.
  - replace (List.length l <? 10)%nat with false by (symmetry; apply Nat.ltb_ge; exact Hl).
    reflexivity.
Qed.

(** C9 counterexample: a reply of ten MCQs whose first item has three
    options is accepted. *)
Lemma revise_accepts_three_options :
  option_map mcq_option_counts (json_loads three_option_reply)
    = Some [3; 4; 4; 4; 4; 4; 4; 4; 4; 4]%nat /\
  exists out, revise three_option_reply = inr out.
Proof. split; [vm_compute; reflexivity | eexists; vm_compute; reflexivity]. Qed.

(** C10: whatever the model answers, [is_correct] is the equality of the
    upper-cased chosen and correct letters, independent of the question,
    the options and the content; a correct answer makes no model call and
    always gets the same feedback. *)
Theorem evaluate_answer_letter_match (upper : text -> text)
  (question user_answer correct_answer : text) (options : list (text * text))
  (content : text) :
  (forall model : text -> chat_outcome,
     fb_is_correct (run_chat model
       (evaluate_answer upper question user_answer correct_answer options content))
     = text_eqb (upper user_answer) (upper correct_answer)) /\
  (text_eqb (upper user_answer) (upper correct_answer) = true ->
   evaluate_answer upper question user_answer correct_answer options content
   = Ret correct_feedback).
Proof.
  unfold evaluate_answer, answer_is_correct.
  destruct (text_eqb (upper user_answer) (upper correct_answer)) eqn:E.
  - split; reflexivity.
  - split; [|discriminate]. intros model. simpl.
    destruct (model _); reflexivity.
Qed.

(* ------------------------------------------------------------------ *)
(** ** Instances of the theorems on concrete inputs *)

Lemma calculate_adaptive_difficulty_last3_rule_witness :
  (3 <= List.length [1; 0; 1; 0; 1])%nat /\ 1 <= 2 <= 3 /\
  calculate_adaptive_difficulty [1; 0; 1; 0; 1] 2 = 3.
Proof.
  split; [simpl; lia|]. split; [lia|].
  destruct (calculate_adaptive_difficulty_last3_rule [1; 0; 1; 0; 1] 2
              ltac:(simpl; lia) ltac:(lia)) as (_ & _ & Hup & _).
  apply Hup; vm_compute; [intro Hlt; discriminate Hlt | reflexivity].
Defined.

Lemma calculate_adaptive_difficulty_short_window_witness :
  calculate_adaptive_difficulty [1; 1] 2 = 2.
Proof.
  apply (calculate_adaptive_difficulty_short_window [1; 1] 2); [lia | simpl; lia].
Defined.

Lemma calculate_adaptive_difficulty_stays_in_range_witness :
  1 <= snd (iterate_difficulty [] 3 [[1; 1; 1]; [0; 0]; [1]]) <= 3.
Proof.
  apply (proj2 (calculate_adaptive_difficulty_stays_in_range 3 ltac:(lia))).
Defined.

Lemma get_performance_metrics_spec_witness :
  exists m, get_performance_metrics answered_session = Some m /\
    (exists acc, py_number_value (m_accuracy m) = Some acc /\ (0 <= acc <= 100)%Q) /\
    (exists avg, py_number_value (m_avg_difficulty m) = Some avg /\ (1 <= avg <= 3)%Q).
Proof.
  apply (proj1 (proj2 (proj2 (get_performance_metrics_spec answered_session))));
    vm_compute; [split; discriminate | reflexivity | repeat constructor; discriminate].
Defined.

(** The accuracy of eleven correct answers out of twenty is the float
    [55.00000000000001] ([55 + 2^-47]): [11 / 20] rounds to a float just
    above [0.55] and the product with [100.0] rounds up again, so the
    reported accuracy is not [100 * 11 / 20 = 55]. *)
Lemma get_performance_metrics_accuracy_rounded :
  correct_answers eleven_of_twenty_session = 11 /\
  total_questions eleven_of_twenty_session = 20 /\
  exists m acc, get_performance_metrics eleven_of_twenty_session = Some m /\
    py_number_value (m_accuracy m) = Some acc /\
    (acc == 55 + (1 # 140737488355328))%Q /\
    ~ (acc == 100 * inject_Z 11 / inject_Z 20)%Q.
Proof.
  split; [vm_compute; reflexivity|]. split; [vm_compute; reflexivity|].
  eexists. eexists. split; [vm_compute; reflexivity|]. split; [vm_compute; reflexivity|].
  split; vm_compute; [reflexivity | discriminate].
Qed.

Lemma parse_json_response_first_success_witness :
  parse_json_response fenced_reply = inr (JObj [(cps "question", JStr (cps "Q"))]).
Proof.
  apply (proj1 (proj2 (parse_json_response_first_success fenced_reply))
           ltac:(vm_compute; reflexivity) (jtext "{'question':'Q'}"));
    vm_compute; reflexivity.
Defined.

Lemma unparsable_reply_error_record_witness :
  questions_history (step ascii_upper started_session
                       (QuestionRun (ChatOk prose_reply) 0 true false))
  = questions_history started_session.
Proof.
  apply (unparsable_reply_error_record ascii_upper started_session prose_reply 0 true false);
    [vm_compute; reflexivity | |];
    intros g E; vm_compute in E; discriminate.
Defined.

Lemma revise_mcq_count_only_witness :
  exists out, revise three_option_reply = inr out.
Proof.
  eexists.
  apply (revise_mcq_count_only three_option_reply
           (match json_loads three_option_reply with Some (JObj f) => f | _ => [] end)
           (JArr [JObj [(cps "concept", JStr (cps "c")); (cps "explanation", JStr (cps "e"))]])
           (match json_loads three_option_reply with
            | Some (JObj f) => match dict_get f (cps "mcqs") with
                               | Some (JArr l) => l | _ => [] end
            | _ => [] end));
    vm_compute; first [reflexivity | discriminate | lia].
Defined.

Lemma evaluate_answer_letter_match_witness :
  evaluate_answer ascii_upper (cps "Q?") (cps "b") (cps "B") [] []
  = Ret correct_feedback.
Proof.
  apply (proj2 (evaluate_answer_letter_match ascii_upper (cps "Q?") (cps "b") (cps "B") [] [])).
  vm_compute. reflexivity.
Defined.

(* ------------------------------------------------------------------ *)
(** ** Further properties of the session *)

Lemma levels_from_snoc (r d : list Z) (c b : Z) :
  levels_from d c (r ++ [b]) =
  let '(ls, f) := levels_from d c r in
  (ls ++ [f], calculate_adaptive_difficulty (d ++ r ++ [b]) f).
Proof.
  revert d c. induction r as [|x r IH]; intros d c.
  - reflexivity.
  - simpl. rewrite IH. destruct (levels_from (d ++ [x]) _ r) as [ls f].
    rewrite <- app_assoc. reflexivity.
Qed.

Lemma levels_from_range (r d : list Z) (c : Z) :
  1 <= c <= 3 ->
  Forall (fun x => 1 <= x <= 3) (fst (levels_from d c r)) /\
  1 <= snd (levels_from d c r) <= 3.
Proof.
  revert d c. induction r as [|x r IH]; intros d c Hc; simpl.
  - split; [constructor | exact Hc].
  - specialize (IH (d ++ [x]) (calculate_adaptive_difficulty (d ++ [x]) c)
                  (calculate_adaptive_difficulty_range _ _ Hc)).
    destruct (levels_from (d ++ [x]) _ r) as [ls f]. simpl in *.
    destruct IH as [IH1 IH2]. split; [constructor; assumption | exact IH2].
Qed.

Lemma run_inv_initial : run_inv initial_session.
Proof. repeat split; discriminate. Qed.

Lemma run_inv_with_question (s : session) qo asked :
  run_inv s -> run_inv (with_question s qo asked).
Proof. exact (fun H => H). Qed.

Lemma run_inv_record (s : session) (q : qdict) asked a c b :
  run_inv s -> q_difficulty q = current_difficulty s ->
  run_inv (record_answer (with_question s (Some q) asked) q a c b).
Proof.
  intros (Hw & Hc & Hl & Hm & Hf) Hq. unfold run_inv, record_answer; simpl.
  split; [|split; [|split; [|split]]].
  - rewrite Hw, map_app. reflexivity.
  - rewrite filter_app, length_app, Nat2Z.inj_add, Hc.
    destruct b; simpl; lia.
  - change (if b then 1 else 0) with (bit b).
    rewrite levels_from_snoc, Hl, map_app. simpl. rewrite Hq. reflexivity.
  - rewrite map_app, fold_left_app, fold_left_app. simpl.
    rewrite fold_left_app in Hm. simpl in Hm. rewrite Hq, <- Hm.
    destruct (_ >? _) eqn:E; [rewrite Z.gtb_lt in E | rewrite Z.gtb_ltb, Z.ltb_ge in E]; lia.
  - exact Hf.
Qed.

Lemma run_inv_step (upper : text -> text) (s : session) (ev : event) :
  run_inv s -> run_inv (step upper s ev).
Proof.
  intros H. destruct ev as [[content|]| |reply choice submit try_again| | |]; simpl.
  - repeat split; discriminate.
  - exact H.
  - destruct (negb (assessment_complete s) && negb (assessment_started s) && _) eqn:E;
      [|exact H].
    destruct H as (H1 & H2 & H3 & H4 & _). repeat split; auto.
  - destruct (_ && _ && _); [|exact H].
    destruct (question_run_shape upper s reply choice submit try_again)
      as [(qo & asked & E)|(asked & a & c & b & E)]; rewrite E.
    + apply run_inv_with_question. exact H.
    + apply run_inv_record; [exact H|]. apply generate_question_difficulty.
  - destruct (_ && _ && _); [|exact H].
    destruct H as (H1 & H2 & H3 & H4 & _). repeat split; auto.
  - destruct (_ && _ && _); [|exact H].
    destruct H as (H1 & H2 & H3 & H4 & _). repeat split; auto.
  - destruct (assessment_complete s); [|exact H]. repeat split; discriminate.
Qed.

Lemma run_inv_after (upper : text -> text) (evs : list event) :
  run_inv (session_after upper evs) /\ session_inv (session_after upper evs).
Proof.
  split; [|apply session_inv_after].
  unfold session_after. generalize run_inv_initial.
  generalize initial_session. induction evs as [|ev evs IH]; intros s H; simpl.
  - exact H.
  - apply IH. apply run_inv_step. exact H.
Qed.

Lemma filter_negb_length {A} (f : A -> bool) (l : list A) :
  (List.length (filter f l) + List.length (filter (fun x => negb (f x)) l))%nat
  = List.length l.
Proof.
  induction l as [|x l IH]; simpl; [reflexivity|].
  destruct (f x); simpl; lia.
Qed.

Lemma fold_left_max_range (l : list Z) (a : Z) :
  Forall (fun x => 1 <= x <= 3) l -> 1 <= a <= 3 -> 1 <= fold_left Z.max l a <= 3.
Proof.
  revert a. induction l as [|x l IH]; intros a Hl Ha; simpl; [exact Ha|].
  inversion Hl; subst. apply IH; [assumption | lia].
Qed.

(** The answer bookkeeping of every reachable session: the performance
    window holds one bit per recorded answer (1 for a correct one), the
    correct count is the number of correct entries, and the question
    count minus the correct count is the number of incorrect entries. *)
Theorem session_answer_counts (upper : text -> text) (evs : list event) :
  let s := session_after upper evs in
  let h := questions_history s in
  performance_window s = map (fun e => if e_is_correct e then 1 else 0) h /\
  correct_answers s = Z.of_nat (List.length (filter e_is_correct h)) /\
  total_questions s - correct_answers s
    = Z.of_nat (List.length (filter (fun e => negb (e_is_correct e)) h)) /\
  0 <= correct_answers s <= total_questions s.
Proof.
  intros s h.
  destruct (run_inv_after upper evs) as [(Hw & Hc & _) (_ & _ & _ & Ht)].
  fold s in Hw, Hc, Ht. fold h in Hw, Hc, Ht.
  pose proof (filter_negb_length e_is_correct h) as Hn.
  split; [exact Hw|]. split; [exact Hc|]. split; lia.
Qed.

(** In every reachable session the levels are those the answers visit:
    answering the window's bits in order from level 1, with the rule
    applied to the window up to each answer, the level before each answer
    is the level recorded in its history entry and the level after the
    last is the current one; the peak level is the largest of 1, the
    recorded levels and the current level. *)
Theorem session_levels_replay (upper : text -> text) (evs : list event) :
  let s := session_after upper evs in
  levels_from [] 1 (performance_window s)
    = (map e_difficulty (questions_history s), current_difficulty s) /\
  max_difficulty_reached s
    = fold_left Z.max (map e_difficulty (questions_history s) ++ [current_difficulty s]) 1.
Proof.
  intros s. destruct (run_inv_after upper evs) as [(_ & _ & Hl & Hm & _) _].
  split; assumption.
Qed.

(** In every reachable session the current level, the peak level and the
    level of every history entry are 1, 2 or 3 (so the lookups of the
    level names never fail), and the metrics call does not raise and
    gives a float accuracy between 0 and 100 and a mean level between 1
    and 3. *)
Theorem session_metrics_in_range (upper : text -> text) (evs : list event) :
  let s := session_after upper evs in
  1 <= current_difficulty s <= 3 /\
  1 <= max_difficulty_reached s <= 3 /\
  Forall (fun e => 1 <= e_difficulty e <= 3) (questions_history s) /\
  exists m, get_performance_metrics s = Some m /\
    (exists acc, py_number_value (m_accuracy m) = Some acc /\ (0 <= acc <= 100)%Q) /\
    (exists avg, py_number_value (m_avg_difficulty m) = Some avg /\ (1 <= avg <= 3)%Q).
Proof.
  intros s.
  destruct (run_inv_after upper evs) as [(_ & Hc & Hl & Hm & _) (_ & _ & _ & Ht)].
  fold s in Hc, Hl, Hm, Ht.
  destruct (levels_from_range (performance_window s) [] 1 ltac:(lia)) as [Hr1 Hr2].
  rewrite Hl in Hr1, Hr2. simpl in Hr1, Hr2.
  assert (Hp : 1 <= max_difficulty_reached s <= 3).
  { rewrite Hm. apply fold_left_max_range; [|lia].
    apply Forall_app. split; [exact Hr1 | constructor; [exact Hr2 | constructor]]. }
  assert (Hh : Forall (fun e => 1 <= e_difficulty e <= 3) (questions_history s)).
  { rewrite Forall_map in Hr1. exact Hr1. }
  split; [exact Hr2|]. split; [exact Hp|]. split; [exact Hh|].
  pose proof (filter_negb_length e_is_correct (questions_history s)) as Hn.
  apply metrics_in_range; [lia | exact Ht | exact Hh].
Qed.

(** Every recorded answer needs its own question: over any sequence of
    runs from any session, the history grows by at most the number of
    "Next Question" and restart runs, plus one if no feedback was shown
    at the start; in particular, while the feedback of an answer is shown,
    runs without one of those two buttons add no answer. *)
Theorem answers_need_new_question (upper : text -> text) (s : session) (evs : list event) :
  let s' := fold_left (step upper) evs s in
  (List.length (questions_history s') + (if show_feedback s' then 0 else 1)
   <= List.length (questions_history s) + (if show_feedback s then 0 else 1)
      + List.length (filter resumes_answering evs))%nat /\
  (show_feedback s = true -> filter resumes_answering evs = [] ->
   (List.length (questions_history s') <= List.length (questions_history s))%nat).
Proof.
  assert (Step : forall s ev,
    (List.length (questions_history (step upper s ev))
       + (if show_feedback (step upper s ev) then 0 else 1)
     <= List.length (questions_history s) + (if show_feedback s then 0 else 1)
        + (if resumes_answering ev then 1 else 0))%nat).
  { clear s evs. intros s ev.
    destruct ev as [[content|]| |reply choice submit try_again| | |]; simpl.
    - destruct (show_feedback s); lia.
    - lia.
    - destruct (_ && _ && _); simpl; lia.
    - destruct (negb (assessment_complete s) && assessment_started s && negb (show_feedback s)) eqn:E;
        [|lia].
      assert (Hf : show_feedback s = false).
      { destruct (show_feedback s); [|reflexivity].
        rewrite andb_false_r in E. discriminate. }
      destruct (question_run_shape upper s reply choice submit try_again)
        as [(qo & asked & E')|(asked & a & c & b & E')]; rewrite E'.
      + simpl. lia.
      + simpl. rewrite Hf, length_app. simpl. lia.
    - destruct (_ && _ && _); simpl; destruct (show_feedback s); lia.
    - destruct (_ && _ && _); simpl; lia.
    - destruct (assessment_complete s); simpl; destruct (show_feedback s); lia. }
  assert (All : forall evs s,
    (List.length (questions_history (fold_left (step upper) evs s))
       + (if show_feedback (fold_left (step upper) evs s) then 0 else 1)
     <= List.length (questions_history s) + (if show_feedback s then 0 else 1)
        + List.length (filter resumes_answering evs))%nat).
  { clear s evs. induction evs as [|ev evs IH]; intros s; simpl; [lia|].
    specialize (IH (step upper s ev)). specialize (Step s ev).
    destruct (resumes_answering ev); simpl; lia. }
  intros s'. split; [apply All|].
  intros Hf Hr. specialize (All evs s). fold s' in All.
  rewrite Hf, Hr in All. simpl in All. lia.
Qed.

(** A finished assessment keeps its results: from a session whose
    assessment is complete, any runs other than a new upload and the
    restart leave the session as it is; and in every reachable session a
    complete assessment is a started one. *)
Theorem completed_assessment_frozen (upper : text -> text) (s : session) (evs : list event)
  (Hc : assessment_complete s = true) (Hk : forallb keeps_results evs = true) :
  fold_left (step upper) evs s = s /\
  (assessment_complete (session_after upper evs) = true ->
   assessment_started (session_after upper evs) = true).
Proof.
  split.
  - induction evs as [|ev evs IH]; simpl; [reflexivity|].
    simpl in Hk. apply andb_prop in Hk. destruct Hk as [Hk1 Hk2].
    replace (step upper s ev) with s; [exact (IH Hk2)|].
    destruct ev as [[content|]| |reply choice submit try_again| | |];
      simpl in Hk1 |- *; try discriminate; rewrite ?Hc; reflexivity.
  - destruct (run_inv_after upper evs) as [(_ & _ & _ & _ & H) _]. exact H.
Qed.

(* ------------------------------------------------------------------ *)
(** ** Properties of snap_learn.py *)

(** [clean] keeps the length of a text, leaves only latin-1 characters
    (code points up to 255), changes nothing in a text that already has
    only those, and so cleaning twice is cleaning once. *)
Theorem clean_latin1 (t : text) :
  List.length (clean t) = List.length t /\
  Forall (fun c => c <= 255) (clean t) /\
  (Forall (fun c => c <= 255) t -> clean t = t) /\
  clean (clean t) = clean t.
Proof.
  unfold clean. split; [apply length_map|]. split; [|split].
  - apply Forall_forall. intros c Hc. apply in_map_iff in Hc.
    destruct Hc as (x & <- & _). destruct (x <=? 255) eqn:E; lia.
  - intros H. rewrite <- (map_id t) at 2. apply map_ext_in.
    intros c Hc. rewrite Forall_forall in H. specialize (H c Hc).
    replace (c <=? 255) with true by lia. reflexivity.
  - rewrite map_map. apply map_ext. intros c.
    destruct (c <=? 255) eqn:E; [rewrite E; reflexivity | reflexivity].
Qed.

Lemma fold_left_app_concat {A} (f : A -> text) (l : list A) (a : text) :
  fold_left (fun acc p => acc ++ f p) l a = a ++ concat (map f l).
Proof.
  revert a. induction l as [|x l IH]; intros a; simpl.
  - rewrite app_nil_r. reflexivity.
  - rewrite IH, app_assoc. reflexivity.
Qed.

Lemma py_substr_900 (t : text) (j : nat) :
  py_substr t j (j + 900) = firstn 900 (skipn j t).
Proof. unfold py_substr. f_equal. lia. Qed.

Lemma py_range_800_in (n fuel i j : nat) :
  In j (py_range_step fuel i n 800) -> (i <= j < n)%nat.
Proof.
  revert i. induction fuel as [|f IH]; intros i Hj; simpl in Hj; [contradiction|].
  destruct (i <? n)%nat eqn:E; [|contradiction].
  apply Nat.ltb_lt in E. destruct Hj as [<- | Hj]; [lia|].
  specialize (IH _ Hj). lia.
Qed.

Lemma py_range_800_roundtrip (t : text) (fuel i : nat) :
  (List.length t - i < fuel)%nat ->
  concat (map (firstn 800)
            (map (fun j => py_substr t j (j + 900))
               (py_range_step fuel i (List.length t) 800)))
  = skipn i t.
Proof.
  revert i. induction fuel as [|f IH]; intros i Hf; [lia|].
  simpl py_range_step. destruct (i <? List.length t)%nat eqn:E.
  - apply Nat.ltb_lt in E. cbn [map concat]. rewrite IH by lia.
    rewrite py_substr_900, firstn_firstn.
    replace (Nat.min 800 900) with 800%nat by lia.
    rewrite (Nat.add_comm i 800), <- skipn_skipn. apply firstn_skipn.
  - apply Nat.ltb_ge in E. simpl. symmetry. apply skipn_all2. exact E.
Qed.

Lemma py_range_800_length (n fuel i : nat) :
  (n - i < fuel)%nat ->
  List.length (py_range_step fuel i n 800) = ((n - i + 799) / 800)%nat.
Proof.
  revert i. induction fuel as [|f IH]; intros i Hf; [lia|].
  simpl py_range_step. destruct (i <? n)%nat eqn:E.
  - apply Nat.ltb_lt in E. simpl List.length. rewrite IH by lia.
    assert (H1 : ((n - (i + 800) + 799) / 800 = (n - i - 1) / 800)%nat).
    { destruct (Nat.le_gt_cases 800 (n - i)) as [Hle|Hgt].
      - f_equal. lia.
      - rewrite (Nat.div_small (n - i - 1)) by lia. apply Nat.div_small. lia. }
    rewrite H1. replace (n - i + 799)%nat with (n - i - 1 + 1 * 800)%nat by lia.
    rewrite Nat.div_add by discriminate. lia.
  - apply Nat.ltb_ge in E. change (List.length (@nil nat)) with 0%nat.
    replace (n - i)%nat with 0%nat by lia.
    symmetry. apply Nat.div_small. lia.
Qed.

Lemma py_range_800_next (n fuel i k j j' : nat) :
  nth_error (py_range_step fuel i n 800) k = Some j ->
  nth_error (py_range_step fuel i n 800) (S k) = Some j' -> j' = (j + 800)%nat.
Proof.
  revert i k. induction fuel as [|f IH]; intros i k H1 H2; simpl in H1, H2.
  - destruct k; discriminate.
  - destruct (i <? n)%nat; [|destruct k; discriminate].
    destruct k as [|k].
    + simpl in H1, H2. injection H1 as <-.
      destruct f as [|f']; simpl in H2; [discriminate|].
      destruct (i + 800 <? n)%nat; [|discriminate]. simpl in H2. congruence.
    + simpl in H1, H2. exact (IH _ _ H1 H2).
Qed.

(** The decimal text of a count reads back as the count. *)
Lemma digits_of_nat_value (fuel : nat) :
  forall (n : nat) (acc : text) (v : Z), (n < fuel)%nat ->
  exists p, fold_left (fun acc c => acc * 10 + (c - 48)) (digits_of_nat fuel n acc) v
          = fold_left (fun acc c => acc * 10 + (c - 48)) acc (v * p + Z.of_nat n).
Proof.
  induction fuel as [|f IH]; intros n acc v Hn; [lia|].
  pose proof (Nat.div_mod_eq n 10) as Hdm.
  pose proof (Nat.mod_upper_bound n 10 ltac:(discriminate)) as Hmb.
  cbn [digits_of_nat]. destruct (Nat.eqb (n / 10) 0) eqn:Eq.
  - apply Nat.eqb_eq in Eq. exists 10. cbn [fold_left]. f_equal.
    rewrite Eq in Hdm. lia.
  - apply Nat.eqb_neq in Eq.
    assert (Hlt : (n / 10 < f)%nat).
    { assert (n / 10 < n)%nat by (apply Nat.div_lt; lia). lia. }
    destruct (IH (n / 10)%nat (Z.of_nat (n mod 10) + 48 :: acc) v Hlt) as [p Hp].
    exists (p * 10). rewrite Hp. cbn [fold_left]. f_equal.
    assert (Hz : Z.of_nat n = 10 * Z.of_nat (n / 10) + Z.of_nat (n mod 10)) by lia.
    rewrite Hz. ring.
Qed.

Lemma nat_text_inj (m n : nat) : nat_text m = nat_text n -> m = n.
Proof.
  intros H.
  destruct (digits_of_nat_value (S m) m [] 0 ltac:(lia)) as [p Hp].
  destruct (digits_of_nat_value (S n) n [] 0 ltac:(lia)) as [q Hq].
  unfold nat_text in H. rewrite H in Hp. rewrite Hp in Hq. simpl in Hq. lia.
Qed.

Lemma NoDup_map_inj {A B} (f : A -> B) (l : list A) :
  (forall x y, f x = f y -> x = y) -> NoDup l -> NoDup (map f l).
Proof.
  intros Hf Hl. induction Hl as [|x l Hx Hl IH]; simpl; constructor; [|exact IH].
  intros Hin. apply in_map_iff in Hin. destruct Hin as (y & Hy & Hyl).
  apply Hf in Hy. subst. contradiction.
Qed.

(** [upload] refuses a PDF whose text, stripped, has fewer than 100
    characters, with HTTP 400 "No readable text"; otherwise it stores
    ceil(n/800) chunks of the n-character text, each of 1 to 900
    characters, whose first 800 characters put end to end give the text
    back, each chunk's characters after the 800th starting the next
    chunk, under pairwise distinct ids, one per chunk. *)
Theorem upload_overlapping_chunks (filename : text) (pages : list (option text)) :
  let full_text := concat (map page_text pages) in
  ((List.length (py_strip full_text) < 100)%nat ->
   upload filename pages = inl (HTTPException 400 (cps "No readable text"))) /\
  ((100 <= List.length (py_strip full_text))%nat ->
   exists ids chunks,
     upload filename pages = inr (ids, chunks) /\
     concat (map (firstn 800) chunks) = full_text /\
     List.length chunks = ((List.length full_text + 799) / 800)%nat /\
     Forall (fun c => 1 <= List.length c <= 900)%nat chunks /\
     (forall i c c', nth_error chunks i = Some c -> nth_error chunks (S i) = Some c' ->
                     skipn 800 c = firstn 100 c') /\
     List.length ids = List.length chunks /\
     NoDup ids).
Proof.
  intros full_text.
  assert (Ef : fold_left (fun acc p => acc ++ page_text p) pages [] = full_text)
    by (rewrite fold_left_app_concat; reflexivity).
  unfold upload. rewrite Ef. split.
  - intros Hs. apply Nat.ltb_lt in Hs. rewrite Hs. reflexivity.
  - intros Hs. apply Nat.ltb_ge in Hs. rewrite Hs.
    do 2 eexists. split; [reflexivity|].
    unfold upload_chunks, py_range.
    set (n := List.length full_text).
    split; [|split; [|split; [|split; [|split]]]].
    + rewrite py_range_800_roundtrip by lia. reflexivity.
    + rewrite length_map, py_range_800_length by lia. f_equal. lia.
    + apply Forall_forall. intros c Hc. apply in_map_iff in Hc.
      destruct Hc as (j & <- & Hj). apply py_range_800_in in Hj.
      rewrite py_substr_900, length_firstn, length_skipn. fold n. lia.
    + intros i c c' H1 H2. rewrite nth_error_map in H1, H2.
      destruct (nth_error (py_range_step (S n) 0 n 800) i) as [j|] eqn:Ej; [|discriminate].
      destruct (nth_error (py_range_step (S n) 0 n 800) (S i)) as [j'|] eqn:Ej'; [|discriminate].
      simpl in H1, H2. injection H1 as <-. injection H2 as <-.
      rewrite (py_range_800_next _ _ _ _ _ _ Ej Ej').
      rewrite !py_substr_900, skipn_firstn_comm, firstn_firstn, skipn_skipn.
      replace (900 - 800)%nat with 100%nat by lia.
      replace (Nat.min 100 900) with 100%nat by lia.
      rewrite (Nat.add_comm 800 j). reflexivity.
    + rewrite length_map, length_seq. reflexivity.
    + apply NoDup_map_inj; [|apply seq_NoDup].
      intros x y Hxy. apply app_inv_head in Hxy. apply app_inv_head in Hxy.
      apply nat_text_inj. exact Hxy.
Qed.

Lemma py_find_from_app (c : Z) (a r : text) (i : Z) :
  ~ In c a -> py_find_from c (a ++ c :: r) i = i + Z.of_nat (List.length a).
Proof.
  revert i. induction a as [|x a IH]; intros i Ha; simpl.
  - rewrite Z.eqb_refl. lia.
  - replace (x =? c) with false by (symmetry; apply Z.eqb_neq; intros ->; apply Ha; left; reflexivity).
    rewrite IH by (intros H; apply Ha; right; exact H). lia.
Qed.

Lemma py_find_from_absent (c : Z) (t : text) (i : Z) :
  ~ In c t -> py_find_from c t i = -1.
Proof.
  revert i. induction t as [|x t IH]; intros i Ht; simpl; [reflexivity|].
  replace (x =? c) with false by (symmetry; apply Z.eqb_neq; intros ->; apply Ht; left; reflexivity).
  apply IH. intros H; apply Ht; right; exact H.
Qed.

Lemma py_find_from_cases (c : Z) (t : text) (i : Z) :
  py_find_from c t i = -1 \/
  exists k, py_find_from c t i = i + Z.of_nat k /\ nth_error t k = Some c.
Proof.
  revert i. induction t as [|x t IH]; intros i; simpl; [left; reflexivity|].
  destruct (x =? c) eqn:E.
  - right. exists 0%nat. apply Z.eqb_eq in E. subst. split; [lia | reflexivity].
  - destruct (IH (i + 1)) as [H | (k & H1 & H2)]; [left; exact H|].
    right. exists (S k). split; [rewrite H1; lia | exact H2].
Qed.

Lemma py_rfind_last (c : Z) (x r : text) :
  ~ In c r -> py_rfind c (x ++ c :: r) = Z.of_nat (List.length x).
Proof.
  intros Hr. unfold py_rfind, py_find.
  rewrite rev_app_distr. simpl. rewrite <- app_assoc. simpl.
  rewrite py_find_from_app by (rewrite <- in_rev; exact Hr).
  rewrite length_rev. rewrite length_app. simpl.
  destruct (Z.eqb_spec (Z.of_nat (List.length r)) (-1)); lia.
Qed.

Lemma py_slice_mid (x y z : text) :
  py_slice (x ++ y ++ z) (Z.of_nat (List.length x)) (Z.of_nat (List.length x + List.length y)) = y.
Proof.
  unfold py_slice. rewrite !length_app.
  replace (Z.of_nat (List.length x) <? 0) with false by (symmetry; apply Z.ltb_ge; lia).
  replace (Z.of_nat (List.length x + List.length y) <? 0) with false by (symmetry; apply Z.ltb_ge; lia).
  rewrite !Z.min_l by lia.
  replace (Z.to_nat (Z.of_nat (List.length x + List.length y) - Z.of_nat (List.length x)))
    with (List.length y) by lia.
  rewrite Nat2Z.id, skipn_app, skipn_all, Nat.sub_diag. simpl.
  rewrite firstn_app, Nat.sub_diag, firstn_all. simpl. apply app_nil_r.
Qed.

(** The text that the fallback of [generate] hands to [json.loads] when
    the stripped reply has no opening brace: empty, or a lone closing
    brace. *)
Lemma mcq_slice_no_open (t : text) :
  ~ In 123 t ->
  py_slice t (py_find 123 t) (py_rfind 125 t + 1) = [] \/
  py_slice t (py_find 123 t) (py_rfind 125 t + 1) = [125].
Proof.
  intros Ht. unfold py_find. rewrite py_find_from_absent by exact Ht.
  unfold py_rfind, py_find.
  destruct (py_find_from_cases 125 (rev t) 0) as [H | (k & H1 & H2)].
  - rewrite H, Z.eqb_refl. left. unfold py_slice.
    set (n := Z.of_nat (List.length t)).
    replace (-1 <? 0) with true by reflexivity.
    replace (-1 + 1 <? 0) with false by reflexivity.
    replace (Z.to_nat (Z.min (-1 + 1) n - Z.max 0 (-1 + n))) with 0%nat by lia.
    reflexivity.
  - rewrite H1. replace (0 + Z.of_nat k =? -1) with false by lia.
    assert (Hk : (k < List.length t)%nat).
    { rewrite <- length_rev. apply nth_error_Some. rewrite H2. discriminate. }
    unfold py_slice. set (n := List.length t) in *.
    replace (-1 <? 0) with true by reflexivity.
    replace (Z.max 0 (-1 + Z.of_nat n)) with (Z.of_nat n - 1) by lia.
    replace (Z.of_nat n - 1 - (0 + Z.of_nat k) + 1 <? 0) with false by lia.
    replace (Z.min (Z.of_nat n - 1 - (0 + Z.of_nat k) + 1) (Z.of_nat n))
      with (Z.of_nat n - Z.of_nat k) by lia.
    destruct k as [|k].
    + right. destruct (rev t) as [|y u] eqn:Er; [discriminate|].
      simpl in H2. injection H2 as ->.
      assert (Et : t = rev u ++ [125]) by (rewrite <- (rev_involutive t), Er; reflexivity).
      replace (Z.to_nat (Z.of_nat n - Z.of_nat 0 - (Z.of_nat n - 1))) with 1%nat by lia.
      replace (Z.to_nat (Z.of_nat n - 1)) with (List.length (rev u)).
      * rewrite Et, skipn_app, skipn_all, Nat.sub_diag. reflexivity.
      * unfold n. rewrite Et, length_app. simpl. lia.
    + left. replace (Z.to_nat (Z.of_nat n - Z.of_nat (S k) - (Z.of_nat n - 1))) with 0%nat by lia.
      reflexivity.
Qed.

(** The MCQ reply of [generate] (the quick-revision PDF): when the reply
    is not JSON as a whole, the fallback parses the stripped reply from
    its first opening brace through its last closing brace, the same
    span as the brace search of [_parse_json_response]; when the
    stripped reply has no opening brace, the fallback cannot parse and
    the request fails with HTTP 500 "Invalid MCQ JSON from AI". *)
Theorem parse_mcq_reply_brace_fallback (mcq_raw : text)
  (H : json_loads mcq_raw = None) :
  let err := HTTPException 500 (cps "Invalid MCQ JSON from AI:" ++ nl ++ mcq_raw) in
  (forall a b c, py_strip mcq_raw = a ++ 123 :: b ++ 125 :: c -> ~ In 123 a -> ~ In 125 c ->
   brace_span (py_strip mcq_raw) = Some (123 :: b ++ [125]) /\
   parse_mcq_reply mcq_raw =
     match json_loads (123 :: b ++ [125]) with Some v => inr v | None => inl err end) /\
  (~ In 123 (py_strip mcq_raw) -> parse_mcq_reply mcq_raw = inl err).
Proof.
  intros err. unfold parse_mcq_reply. rewrite H. split.
  - intros a b c Et Ha Hc. rewrite Et.
    split; [apply brace_span_first_last; assumption|].
    unfold py_find. rewrite py_find_from_app by exact Ha.
    replace (a ++ 123 :: b ++ 125 :: c) with ((a ++ 123 :: b) ++ 125 :: c)
      by (rewrite <- app_assoc; reflexivity).
    rewrite py_rfind_last by exact Hc.
    replace ((a ++ 123 :: b) ++ 125 :: c) with (a ++ (123 :: b ++ [125]) ++ c)
      by (rewrite <- !app_assoc; simpl; rewrite <- !app_assoc; reflexivity).
    replace (0 + Z.of_nat (List.length a)) with (Z.of_nat (List.length a)) by lia.
    replace (Z.of_nat (List.length (a ++ 123 :: b)) + 1)
      with (Z.of_nat (List.length a + List.length (123 :: b ++ [125])))
      by (rewrite !length_app; simpl; rewrite length_app; simpl; lia).
    rewrite py_slice_mid. reflexivity.
  - intros Hn. destruct (mcq_slice_no_open _ Hn) as [E|E]; rewrite E; reflexivity.
Qed.

(* ------------------------------------------------------------------ *)
(** ** Properties of the weak-topic section of the report *)

Section ReportTopicsProofs.

Variable topic : Type.
Variable topic_eq_dec : forall x y : topic, {x = y} + {x <> y}.

Local Abbreviation incr := (count_incr topic topic_eq_dec).
Local Abbreviation cget := (count_get topic topic_eq_dec).
Local Abbreviation occ := (topic_occ topic topic_eq_dec).
Local Abbreviation ins := (insert_by_count topic).
Local Abbreviation tin := (topic_in topic topic_eq_dec).

Lemma count_incr_keys (d : list (topic * nat)) (t : topic) :
  map fst (incr d t) = if tin t (map fst d) then map fst d else map fst d ++ [t].
Proof.
  induction d as [|[k n] d IH]; [reflexivity|]. cbn [count_incr map fst].
  unfold topic_in. cbn [existsb map fst]. fold (tin t (map fst d)).
  destruct (topic_eq_dec t k) as [->|Hne]; [reflexivity|].
  simpl. rewrite IH. destruct (tin t (map fst d)); reflexivity.
Qed.

Lemma count_incr_get (d : list (topic * nat)) (t u : topic) :
  cget (incr d t) u = (cget d u + if topic_eq_dec u t then 1 else 0)%nat.
Proof.
  induction d as [|[k n] d IH]; cbn [count_incr count_get].
  - destruct (topic_eq_dec u t); reflexivity.
  - destruct (topic_eq_dec t k) as [->|Hne]; cbn [count_get].
    + destruct (topic_eq_dec u k); lia.
    + destruct (topic_eq_dec u k) as [->|]; [|apply IH].
      destruct (topic_eq_dec k t); [congruence|lia].
Qed.

Lemma count_incr_pos (d : list (topic * nat)) (t : topic) :
  Forall (fun p => (0 < snd p)%nat) d -> Forall (fun p => (0 < snd p)%nat) (incr d t).
Proof.
  induction d as [|[k n] d IH]; intros Hd; cbn [count_incr].
  - repeat constructor.
  - inversion Hd as [|? ? Hn Hd']; subst.
    destruct (topic_eq_dec t k); constructor; simpl in *; auto; lia.
Qed.

Lemma counts_fold_keys (h : list (topic * bool)) (d : list (topic * nat)) :
  map fst (fold_left incr (report_weak_topics topic h) d)
  = weak_topics_loop topic topic_eq_dec h (map fst d).
Proof.
  revert d. induction h as [|[t c] h IH]; intros d; [reflexivity|].
  destruct c; cbn [report_weak_topics filter snd negb map fst weak_topics_loop].
  - apply IH.
  - cbn [fold_left fst]. rewrite IH, count_incr_keys.
    destruct (tin t (map fst d)); reflexivity.
Qed.

Lemma counts_fold_get (w : list topic) (d : list (topic * nat)) (u : topic) :
  cget (fold_left incr w d) u = (cget d u + occ w u)%nat.
Proof.
  revert d. induction w as [|t w IH]; intros d; cbn [fold_left topic_occ]; [lia|].
  rewrite IH, count_incr_get. lia.
Qed.

Lemma counts_fold_pos (w : list topic) (d : list (topic * nat)) :
  Forall (fun p => (0 < snd p)%nat) d ->
  Forall (fun p => (0 < snd p)%nat) (fold_left incr w d).
Proof.
  revert d. induction w as [|t w IH]; intros d Hd; [exact Hd|].
  apply IH, count_incr_pos, Hd.
Qed.

Lemma count_get_In (d : list (topic * nat)) (t : topic) (n : nat) :
  NoDup (map fst d) -> In (t, n) d -> cget d t = n.
Proof.
  induction d as [|[k m] d IH]; intros Hnd Hin; [destruct Hin|].
  inversion Hnd as [|? ? Hk Hnd']; subst. cbn [count_get].
  destruct Hin as [E|Hin].
  - injection E as -> ->. destruct (topic_eq_dec t t); congruence.
  - destruct (topic_eq_dec t k) as [->|]; [|apply IH; assumption].
    exfalso. apply Hk. change k with (fst (k, n)). apply in_map. exact Hin.
Qed.

Lemma insert_by_count_perm (x : topic * nat) (l : list (topic * nat)) :
  Permutation (ins x l) (x :: l).
Proof.
  induction l as [|y l IH]; cbn [insert_by_count]; [reflexivity|].
  destruct (snd y <=? snd x)%nat; [reflexivity|].
  rewrite IH. apply perm_swap.
Qed.

Lemma sort_by_count_perm (l : list (topic * nat)) :
  Permutation (sort_by_count topic l) l.
Proof.
  induction l as [|x l IH]; [reflexivity|]. unfold sort_by_count. cbn [fold_right].
  rewrite insert_by_count_perm. apply perm_skip. exact IH.
Qed.

Lemma insert_by_count_sorted (x : topic * nat) (l : list (topic * nat)) :
  Sorted (fun a b => (snd b <= snd a)%nat) l ->
  Sorted (fun a b => (snd b <= snd a)%nat) (ins x l).
Proof.
  induction l as [|y l IH]; intros Hs; cbn [insert_by_count].
  - repeat constructor.
  - destruct (snd y <=? snd x)%nat eqn:E.
    + constructor; [exact Hs|]. constructor. apply Nat.leb_le. exact E.
    + apply Nat.leb_gt in E. inversion Hs as [|? ? Hl Hhd]; subst. constructor.
      * apply IH, Hl.
      * destruct l as [|z l]; cbn [insert_by_count].
        -- constructor. lia.
        -- inversion Hhd; subst. destruct (snd z <=? snd x)%nat; constructor; lia.
Qed.

Lemma sort_by_count_sorted (l : list (topic * nat)) :
  Sorted (fun a b => (snd b <= snd a)%nat) (sort_by_count topic l).
Proof.
  induction l as [|x l IH]; [constructor|]. apply insert_by_count_sorted, IH.
Qed.

Lemma insert_by_count_filter (n : nat) (x : topic * nat) (l : list (topic * nat)) :
  filter (fun p => (snd p =? n)%nat) (ins x l) = filter (fun p => (snd p =? n)%nat) (x :: l).
Proof.
  induction l as [|y l IH]; cbn [insert_by_count]; [reflexivity|].
  destruct (snd y <=? snd x)%nat eqn:E; [reflexivity|].
  apply Nat.leb_gt in E. cbn [filter]. rewrite IH. cbn [filter].
  destruct (snd x =? n)%nat eqn:Ex, (snd y =? n)%nat eqn:Ey; try reflexivity.
  apply Nat.eqb_eq in Ex, Ey. lia.
Qed.

Lemma sort_by_count_filter (n : nat) (l : list (topic * nat)) :
  filter (fun p => (snd p =? n)%nat) (sort_by_count topic l)
  = filter (fun p => (snd p =? n)%nat) l.
Proof.
  induction l as [|x l IH]; [reflexivity|]. unfold sort_by_count. cbn [fold_right].
  rewrite insert_by_count_filter. cbn [filter]. fold (sort_by_count topic l). rewrite IH.
  reflexivity.
Qed.

Lemma filter_count_keys (g : topic -> nat) (n : nat) (l : list (topic * nat)) :
  Forall (fun p => snd p = g (fst p)) l ->
  map fst (filter (fun p => (snd p =? n)%nat) l) = filter (fun t => (g t =? n)%nat) (map fst l).
Proof.
  induction l as [|[k m] l IH]; intros Hl; [reflexivity|].
  inversion Hl as [|? ? Hk Hl']; subst. simpl in Hk. subst m. cbn [filter map fst snd].
  destruct (g k =? n)%nat; cbn [map fst]; rewrite IH by exact Hl'; reflexivity.
Qed.

(** The "Topics Needing Review" section of [generate_pdf_report]: it
    lists each topic with an incorrect answer once (the topics of
    [get_weak_topics], reordered), each with its number of incorrect
    answers, which is positive; the counts never increase down the list,
    and topics with the same count keep the order of their first
    incorrect answer. *)
Theorem report_topic_lines_spec (h : list (topic * bool)) :
  let w := report_weak_topics topic h in
  let lines := report_topic_lines topic topic_eq_dec h in
  Permutation (map fst lines) (get_weak_topics topic topic_eq_dec h) /\
  (forall t n, In (t, n) lines -> n = occ w t /\ (0 < n)%nat) /\
  Sorted (fun a b => (snd b <= snd a)%nat) lines /\
  (forall n, map fst (filter (fun p => (snd p =? n)%nat) lines)
             = filter (fun t => (occ w t =? n)%nat) (get_weak_topics topic topic_eq_dec h)).
Proof.
  intros w lines.
  assert (Hkeys : map fst (topic_counts topic topic_eq_dec w) = get_weak_topics topic topic_eq_dec h)
    by (apply (counts_fold_keys h [])).
  assert (Hnd : NoDup (map fst (topic_counts topic topic_eq_dec w)))
    by (rewrite Hkeys; apply weak_topics_NoDup).
  assert (Hcnt : forall t n, In (t, n) (topic_counts topic topic_eq_dec w) -> n = occ w t).
  { intros t n Hin. rewrite <- (count_get_In _ _ _ Hnd Hin).
    unfold topic_counts. rewrite counts_fold_get. reflexivity. }
  assert (Hpos : Forall (fun p => (0 < snd p)%nat) (topic_counts topic topic_eq_dec w))
    by (apply counts_fold_pos; constructor).
  assert (Hperm : Permutation lines (topic_counts topic topic_eq_dec w))
    by apply sort_by_count_perm.
  split; [|split; [|split]].
  - rewrite <- Hkeys. apply Permutation_map, Hperm.
  - intros t n Hin. apply (Permutation_in _ Hperm) in Hin. split.
    + apply Hcnt, Hin.
    + rewrite Forall_forall in Hpos. apply (Hpos _ Hin).
  - apply sort_by_count_sorted.
  - intros n. unfold lines, report_topic_lines. rewrite sort_by_count_filter.
    rewrite <- Hkeys. apply filter_count_keys.
    apply Forall_forall. intros [t m] Hin. apply (Hcnt t m Hin).
Qed.

End ReportTopicsProofs.

(* ------------------------------------------------------------------ *)
(** ** Properties of pdf_extractor.py *)

Lemma py_slice_prefix (t : text) (m : Z) :
  0 <= m -> py_slice t 0 m = firstn (Z.to_nat m) t.
Proof.
  intros Hm. unfold py_slice.
  replace (0 <? 0) with false by reflexivity.
  replace (m <? 0) with false by (symmetry; apply Z.ltb_ge; lia).
  replace (Z.min 0 (Z.of_nat (List.length t))) with 0 by lia.
  rewrite Z.sub_0_r. cbn [Z.to_nat skipn].
  destruct (Z.le_ge_cases m (Z.of_nat (List.length t))) as [Hle|Hge].
  - rewrite Z.min_l by exact Hle. reflexivity.
  - rewrite Z.min_r by lia. rewrite Nat2Z.id, firstn_all, firstn_all2 by lia. reflexivity.
Qed.

(** [get_content_summary] with a non-negative limit: a text within the
    limit comes back unchanged; a longer one is cut to its first
    [max_chars] characters followed by "...", so the summary is exactly
    three characters longer than the limit. *)
Theorem content_summary_truncates (t : text) (max_chars : Z) (Hm : 0 <= max_chars) :
  (Z.of_nat (List.length t) <= max_chars -> get_content_summary t max_chars = t) /\
  (max_chars < Z.of_nat (List.length t) ->
   get_content_summary t max_chars = firstn (Z.to_nat max_chars) t ++ cps "..." /\
   Z.of_nat (List.length (get_content_summary t max_chars)) = max_chars + 3).
Proof.
  unfold get_content_summary. split.
  - intros Hle. apply Z.leb_le in Hle. rewrite Hle. reflexivity.
  - intros Hlt. assert (E : (Z.of_nat (List.length t) <=? max_chars) = false)
      by (apply Z.leb_gt; exact Hlt).
    rewrite E, py_slice_prefix by exact Hm. split; [reflexivity|].
    rewrite length_app, firstn_length_le by lia. simpl List.length. lia.
Qed.

(** A negative limit counts from the end, as a Python slice does: the
    summary keeps all but the last [-max_chars] characters (none when
    there are fewer) and then "...". *)
Theorem content_summary_negative_limit (t : text) (max_chars : Z) (Hm : max_chars < 0) :
  get_content_summary t max_chars
  = firstn (List.length t - Z.to_nat (- max_chars)) t ++ cps "...".
Proof.
  unfold get_content_summary.
  replace (Z.of_nat (List.length t) <=? max_chars) with false
    by (symmetry; apply Z.leb_gt; lia).
  f_equal. unfold py_slice.
  replace (0 <? 0) with false by reflexivity.
  replace (max_chars <? 0) with true by (symmetry; apply Z.ltb_lt; exact Hm).
  replace (Z.min 0 (Z.of_nat (List.length t))) with 0 by lia.
  rewrite Z.sub_0_r. cbn [Z.to_nat skipn]. f_equal. lia.
Qed.

Lemma strip_leading_suffix (t : text) : exists a, t = a ++ strip_leading t.
Proof.
  induction t as [|c t IH]; [exists []; reflexivity|]. cbn [strip_leading].
  destruct (py_isspace c); [|exists []; reflexivity].
  destruct IH as [a Ha]. exists (c :: a). simpl. f_equal. exact Ha.
Qed.

Lemma strip_leading_head (t : text) (c : Z) (r : text) :
  strip_leading t = c :: r -> py_isspace c = false.
Proof.
  induction t as [|x t IH]; cbn [strip_leading]; [discriminate|].
  destruct (py_isspace x) eqn:E; [exact IH|]. intros H. injection H as -> _. exact E.
Qed.

Lemma py_strip_infix (t : text) : exists a b, t = a ++ py_strip t ++ b.
Proof.
  destruct (strip_leading_suffix t) as [a Ha].
  destruct (strip_leading_suffix (rev (strip_leading t))) as [a' Ha'].
  exists a, (rev a'). unfold py_strip.
  rewrite <- rev_app_distr, <- Ha', rev_involutive. exact Ha.
Qed.

(** [str.strip] leaves no whitespace at either end. *)
Lemma py_strip_ends (t : text) :
  (forall c r, py_strip t = c :: r -> py_isspace c = false) /\
  (forall c r, py_strip t = r ++ [c] -> py_isspace c = false).
Proof.
  unfold py_strip. split.
  - intros c r H.
    destruct (strip_leading_suffix (rev (strip_leading t))) as [a Ha].
    apply (f_equal (@rev Z)) in Ha. rewrite rev_involutive, rev_app_distr, H in Ha.
    apply (strip_leading_head t c (r ++ rev a)). rewrite Ha. reflexivity.
  - intros c r H. apply (f_equal (@rev Z)) in H.
    rewrite rev_involutive, rev_app_distr in H. simpl in H.
    apply (strip_leading_head _ _ _ H).
Qed.

Lemma no_double_space_infix (a m b : text) :
  no_double_space (a ++ m ++ b) -> no_double_space m.
Proof.
  intros H i Hi Hs. apply (H (List.length a + i)%nat).
  - rewrite nth_error_app2 by lia. replace (List.length a + i - List.length a)%nat with i by lia.
    rewrite nth_error_app1; [exact Hi|]. apply nth_error_Some. congruence.
  - rewrite nth_error_app2 by lia.
    replace (S (List.length a + i) - List.length a)%nat with (S i) by lia.
    rewrite nth_error_app1; [exact Hs|]. apply nth_error_Some. congruence.
Qed.

Lemma no_double_space_cons (x : Z) (l : text) :
  no_double_space l -> (x = 32 -> nth_error l 0 <> Some 32) -> no_double_space (x :: l).
Proof.
  intros Hl Hx [|i] Hi Hs; simpl in Hi, Hs.
  - injection Hi as Hi. apply (Hx Hi Hs).
  - apply (Hl i Hi Hs).
Qed.

Lemma no_double_space_sep (a b : text) (c : Z) :
  c <> 32 -> no_double_space a -> no_double_space b -> no_double_space (a ++ c :: b).
Proof.
  intros Hc Ha Hb. induction a as [|x a IH].
  - simpl. apply no_double_space_cons; [exact Hb|]. intros ->. congruence.
  - simpl. apply no_double_space_cons.
    + apply IH. intros i Hi Hs. apply (Ha (S i) Hi Hs).
    + intros -> H. destruct a as [|y a]; simpl in H.
      * congruence.
      * apply (Ha 0%nat eq_refl H).
Qed.

Lemma no_double_space_iff (l : text) :
  no_double_space l -> forall a b, l <> a ++ 32 :: 32 :: b.
Proof.
  intros H a b ->. apply (H (List.length a)).
  - rewrite nth_error_app2, Nat.sub_diag by lia. reflexivity.
  - rewrite nth_error_app2 by lia. replace (S (List.length a) - List.length a)%nat with 1%nat by lia.
    reflexivity.
Qed.

Lemma flush_run_spaces (run : nat) :
  flush_run 32 2 [32] run = [] \/ flush_run 32 2 [32] run = [32].
Proof.
  unfold flush_run. destruct run as [|[|run]]; simpl; auto.
Qed.

(** [re.sub(r' {2,}', ' ', text)] leaves no two spaces in a row. *)
Lemma sub_runs_spaces (t : text) (run : nat) :
  no_double_space (sub_runs 32 2 [32] run t).
Proof.
  revert run. induction t as [|x t IH]; intros run; cbn [sub_runs].
  - destruct (flush_run_spaces run) as [E|E]; rewrite E; intros [|[|i]]; simpl; discriminate.
  - destruct (x =? 32) eqn:Ex; [apply IH|]. apply Z.eqb_neq in Ex.
    assert (Hx : no_double_space (x :: sub_runs 32 2 [32] 0 t))
      by (apply no_double_space_cons; [apply IH | intros E; congruence]).
    destruct (flush_run_spaces run) as [E|E]; rewrite E; [exact Hx|].
    apply no_double_space_cons; [exact Hx|]. simpl. congruence.
Qed.

Lemma split_on_pieces (c : Z) (t : text) :
  exists l ls, split_on c t = l :: ls /\ (exists b, t = l ++ b) /\
  (forall m, In m ls -> exists a b, t = a ++ m ++ b).
Proof.
  induction t as [|x t IH]; cbn [split_on].
  - exists [], []. split; [reflexivity|]. split; [exists []; reflexivity|]. intros m [].
  - destruct IH as (l & ls & E & [b Hb] & Hls). destruct (x =? c).
    + exists [], (split_on c t). split; [reflexivity|]. split; [exists (x :: t); reflexivity|].
      rewrite E. intros m [<-|Hm].
      * exists [x], b. simpl. rewrite Hb. reflexivity.
      * destruct (Hls m Hm) as (a' & b' & H). exists (x :: a'), b'. simpl. rewrite H. reflexivity.
    + rewrite E. exists (x :: l), ls. split; [reflexivity|]. split.
      * exists b. simpl. rewrite Hb. reflexivity.
      * intros m Hm. destruct (Hls m Hm) as (a' & b' & H). exists (x :: a'), b'. simpl.
        rewrite H. reflexivity.
Qed.

Lemma split_on_infix (c : Z) (t m : text) :
  In m (split_on c t) -> exists a b, t = a ++ m ++ b.
Proof.
  destruct (split_on_pieces c t) as (l & ls & E & [b Hb] & Hls). rewrite E.
  intros [<-|Hm]; [exists [], b; exact Hb | apply Hls, Hm].
Qed.

Lemma py_join_nl_spaces (ls : list text) :
  Forall no_double_space ls -> no_double_space (py_join [10] ls).
Proof.
  induction ls as [|l ls IH]; intros H.
  - intros [|i]; simpl; discriminate.
  - inversion H as [|? ? Hl Hls]; subst. destruct ls as [|l' ls].
    + exact Hl.
    + change (py_join [10] (l :: l' :: ls)) with (l ++ 10 :: py_join [10] (l' :: ls)).
      apply no_double_space_sep; [discriminate | exact Hl | apply IH, Hls].
Qed.

(** [clean_text] of the PDF pipeline: the cleaned text never holds two
    spaces in a row, and it neither starts nor ends with whitespace. *)
Theorem clean_text_spacing (t : text) :
  (forall a b, clean_text t <> a ++ 32 :: 32 :: b) /\
  (forall c r, clean_text t = c :: r -> py_isspace c = false) /\
  (forall c r, clean_text t = r ++ [c] -> py_isspace c = false).
Proof.
  split; [|apply py_strip_ends].
  apply no_double_space_iff. unfold clean_text.
  destruct (py_strip_infix (py_join [10] (map py_strip
    (split_on 10 (sub_runs 32 2 [32] 0 (sub_runs 10 3 [10; 10] 0 t)))))) as (a & b & E).
  apply (no_double_space_infix a _ b). rewrite <- E.
  apply py_join_nl_spaces. apply Forall_forall. intros m Hm.
  apply in_map_iff in Hm as (l & <- & Hl).
  destruct (py_strip_infix l) as (a1 & b1 & E1).
  apply (no_double_space_infix a1 _ b1). rewrite <- E1.
  destruct (split_on_infix _ _ _ Hl) as (a2 & b2 & E2).
  apply (no_double_space_infix a2 _ b2). rewrite <- E2.
  apply sub_runs_spaces.
Qed.

(* ------------------------------------------------------------------ *)
(** ** Properties of [revise] *)

Lemma text_eqb_eq (a b : text) : text_eqb a b = true <-> a = b.
Proof.
  revert b. induction a as [|x a IH]; intros [|y b]; simpl; try (split; congruence).
  rewrite andb_true_iff, Z.eqb_eq, IH. split; [intros [-> ->]; reflexivity|].
  intros E; injection E as -> ->. split; reflexivity.
Qed.

Lemma dict_get_set_same {A} (d : list (text * A)) (k : text) (v : A) :
  dict_get (dict_set d k v) k = Some v.
Proof.
  induction d as [|[k' v'] d IH]; simpl.
  - rewrite (proj2 (text_eqb_eq k k) eq_refl). reflexivity.
  - destruct (text_eqb k k') eqn:E; simpl.
    + rewrite (proj2 (text_eqb_eq k k) eq_refl). reflexivity.
    + rewrite E. exact IH.
Qed.

Lemma dict_get_set_other {A} (d : list (text * A)) (k k2 : text) (v : A) :
  k2 <> k -> dict_get (dict_set d k v) k2 = dict_get d k2.
Proof.
  intros Hne. induction d as [|[k' v'] d IH]; simpl.
  - destruct (text_eqb k2 k) eqn:E; [apply text_eqb_eq in E; contradiction | reflexivity].
  - destruct (text_eqb k k') eqn:E; simpl.
    + apply text_eqb_eq in E. subst k'.
      destruct (text_eqb k2 k) eqn:E2; [apply text_eqb_eq in E2; contradiction | reflexivity].
    + rewrite IH. reflexivity.
Qed.

(** Whatever the model replies, a successful [revise] returns
    [{"analysis": parsed}] where [parsed] has truthy key concepts and
    exactly ten MCQs: a list of ten items or, when the model sent a
    string, a string of ten characters. *)
Theorem revise_success_shape (reply : text) (out : json) (H : revise reply = inr out) :
  exists fields kc m,
    out = JObj [(cps "analysis", JObj fields)] /\
    dict_get fields (cps "key_concepts") = Some kc /\ json_truthy kc = true /\
    dict_get fields (cps "mcqs") = Some m /\
    ((exists l, m = JArr l /\ List.length l = 10%nat) \/
     (exists s, m = JStr s /\ List.length s = 10%nat)).
Proof.
  unfold revise in H. destruct (py_strip reply) as [|c r]; [discriminate H|].
  unfold revise_reply in H. destruct (json_loads (c :: r)) as [parsed|]; [|discriminate H].
  destruct parsed as [|b|z|m e| |ng|s|l|fields]; try discriminate H.
  - destruct (is_infix _ _); discriminate H.
  - destruct (existsb _ l); discriminate H.
  - destruct (dict_get fields (cps "key_concepts")) as [kc|] eqn:Ek; [|discriminate H].
    destruct (json_truthy kc) eqn:Et; [|discriminate H].
    cbv beta zeta iota in H. simpl negb in H. cbv iota in H.
    set (mcqs := dict_get_default fields (cps "mcqs") (JArr [])) in H.
    destruct (py_len mcqs) as [e|n] eqn:El; [discriminate H|].
    destruct (n <? 10)%nat eqn:En; [discriminate H|]. apply Nat.ltb_ge in En.
    destruct (py_slice10 mcqs) as [e|m] eqn:Es; [discriminate H|].
    injection H as <-.
    exists (dict_set fields (cps "mcqs") m), kc, m. split; [reflexivity|].
    split; [rewrite dict_get_set_other by discriminate; exact Ek|].
    split; [exact Et|]. split; [apply dict_get_set_same|].
    destruct mcqs as [|b|z|m' e| |ng|s|l'|f]; try discriminate Es;
      simpl in El, Es; injection El as <-; injection Es as <-.
    + right. exists (firstn 10 s). split; [reflexivity|]. apply firstn_length_le. exact En.
    + left. exists (firstn 10 l'). split; [reflexivity|]. apply firstn_length_le. exact En.
Qed.

(* ------------------------------------------------------------------ *)
(** ** The reply parsers only read what the reply holds *)

Section Captures.

Variable T : text.

Lemma re_match_captures (r : regex) :
  forall s g k, (exists p, T = p ++ s) -> cap_ok T g ->
  (forall s' g', (exists q, s = q ++ s') -> cap_ok T g' ->
     forall res, k s' g' = Some res -> cap_ok T res) ->
  forall res, re_match r s g k = Some res -> cap_ok T res.
Proof.
  induction r as [| p | r1 IH1 r2 IH2 | r1 IH1 | greedy p | r1 IH1];
    intros s g k Hs Hg Hk res H; cbn [re_match] in H.
  - apply (Hk s g); [exists []; reflexivity | exact Hg | exact H].
  - destruct s as [|c s']; [discriminate H|]. destruct (p c); [|discriminate H].
    apply (Hk s' g); [exists [c]; reflexivity | exact Hg | exact H].
  - refine (IH1 s g _ Hs Hg _ res H).
    intros s' g' [q Hq] Hg' res' H'. apply (IH2 s' g' k); [|exact Hg'| |exact H'].
    + destruct Hs as [p Hp]. exists (p ++ q). rewrite Hp, Hq, app_assoc. reflexivity.
    + intros s'' g'' [q' Hq'] Hg''. apply Hk; [|exact Hg''].
      exists (q ++ q'). rewrite Hq, Hq', app_assoc. reflexivity.
  - destruct (re_match r1 s g k) as [x|] eqn:E.
    + injection H as <-. apply (IH1 s g k Hs Hg Hk x E).
    + apply (Hk s g); [exists []; reflexivity | exact Hg | exact H].
  - assert (Hstar : forall u, (exists q, s = q ++ u) ->
      (fix star (s : text) : option (option text) :=
         if greedy then
           match (match s with
                  | c :: s' => if p c then star s' else None
                  | [] => None
                  end) with
           | Some x => Some x
           | None => k s g
           end
         else
           match k s g with
           | Some x => Some x
           | None =>
               match s with
               | c :: s' => if p c then star s' else None
               | [] => None
               end
           end) u = Some res -> cap_ok T res).
    { induction u as [|c u IHu]; intros [q Hq] Hu.
      - destruct greedy.
        + apply (Hk [] g); [exists q; exact Hq | exact Hg | exact Hu].
        + destruct (k [] g) eqn:Ek; [injection Hu as <-|discriminate Hu].
          apply (Hk [] g); [exists q; exact Hq | exact Hg | exact Ek].
      - assert (Hq' : exists q', s = q' ++ u)
          by (exists (q ++ [c]); rewrite Hq, <- app_assoc; reflexivity).
        destruct greedy.
        + destruct (p c).
          * destruct (_ u) eqn:Er.
            -- injection Hu as <-. apply (IHu Hq' eq_refl).
            -- apply (Hk (c :: u) g); [exists q; exact Hq | exact Hg | exact Hu].
          * apply (Hk (c :: u) g); [exists q; exact Hq | exact Hg | exact Hu].
        + destruct (k (c :: u) g) eqn:Ek.
          * injection Hu as <-. apply (Hk (c :: u) g); [exists q; exact Hq | exact Hg | exact Ek].
          * destruct (p c); [apply (IHu Hq' Hu) | discriminate Hu]. }
    apply (Hstar s); [exists []; reflexivity | exact H].
  - refine (IH1 s g _ Hs Hg _ res H).
    intros s' g' [q Hq] _ res' H'. refine (Hk s' _ (ex_intro _ q Hq) _ res' H').
    intros x Ex. injection Ex as <-. destruct Hs as [p Hp]. subst s.
    rewrite length_app, Nat.add_sub, firstn_app, Nat.sub_diag, firstn_all. simpl.
    rewrite app_nil_r. exists p, s'. exact Hp.
Qed.

Lemma re_search_capture (r : regex) (u x : text) :
  (exists p, T = p ++ u) -> re_search r u = Some (Some x) -> exists a b, T = a ++ x ++ b.
Proof.
  induction u as [|c u IH]; intros Hu H; cbn [re_search] in H.
  - destruct (re_match r [] None _) as [y|] eqn:E; [|discriminate H]. injection H as ->.
    apply (re_match_captures r [] None _ Hu) in E; [apply E; reflexivity | intros ? E'; discriminate E' |].
    intros s' g' _ Hg' res Hres. injection Hres as <-. exact Hg'.
  - destruct (re_match r (c :: u) None _) as [y|] eqn:E.
    + injection H as ->.
      apply (re_match_captures r (c :: u) None _ Hu) in E; [apply E; reflexivity | intros ? E'; discriminate E' |].
      intros s' g' _ Hg' res Hres. injection Hres as <-. exact Hg'.
    + apply IH; [|exact H]. destruct Hu as [p Hp]. exists (p ++ [c]).
      rewrite Hp, <- app_assoc. reflexivity.
Qed.

End Captures.

Lemma fenced_block_infix (t g : text) : fenced_block t = Some g -> exists a b, t = a ++ g ++ b.
Proof.
  unfold fenced_block. destruct (re_search fence_re t) as [[x|]|] eqn:E; try discriminate.
  intros H. injection H as <-. apply (re_search_capture t fence_re t); [exists []; reflexivity | exact E].
Qed.

Lemma brace_span_infix (t g : text) : brace_span t = Some g -> exists a b, t = a ++ g ++ b.
Proof.
  unfold brace_span. destruct (re_search brace_re t) as [[x|]|] eqn:E; try discriminate.
  intros H. injection H as <-. apply (re_search_capture t brace_re t); [exists []; reflexivity | exact E].
Qed.

(** [_parse_json_response] invents nothing: every value it returns is
    what [json.loads] gives for some contiguous piece of the reply (the
    whole reply, the fenced block or the brace span). *)
Theorem parse_json_response_infix (t : text) (v : json)
  (H : parse_json_response t = inr v) :
  exists a g b, t = a ++ g ++ b /\ json_loads g = Some v.
Proof.
  unfold parse_json_response in H. destruct (json_loads t) as [v1|] eqn:E1.
  - injection H as <-. exists [], t, []. rewrite app_nil_r. split; [reflexivity | exact E1].
  - destruct (fenced_block t) as [g|] eqn:Ef.
    + destruct (json_loads g) as [v2|] eqn:E2.
      * injection H as <-. destruct (fenced_block_infix t g Ef) as (a & b & Ht).
        exists a, g, b. split; assumption.
      * destruct (brace_span t) as [g'|] eqn:Eb; [|discriminate H].
        destruct (json_loads g') as [v3|] eqn:E3; [|discriminate H].
        injection H as <-. destruct (brace_span_infix t g' Eb) as (a & b & Ht).
        exists a, g', b. split; assumption.
    + destruct (brace_span t) as [g'|] eqn:Eb; [|discriminate H].
      destruct (json_loads g') as [v3|] eqn:E3; [|discriminate H].
      injection H as <-. destruct (brace_span_infix t g' Eb) as (a & b & Ht).
      exists a, g', b. split; assumption.
Qed.

Lemma py_slice_infix (t : text) (i j : Z) : exists a b, t = a ++ py_slice t i j ++ b.
Proof.
  unfold py_slice. set (m := Z.to_nat _). set (n := Z.to_nat _).
  exists (firstn n t), (skipn m (skipn n t)).
  rewrite firstn_skipn, firstn_skipn. reflexivity.
Qed.

(** The MCQ parsing of [generate] invents nothing either: what it
    returns is [json.loads] of a contiguous piece of the reply. *)
Theorem parse_mcq_reply_infix (mcq_raw : text) (v : json)
  (H : parse_mcq_reply mcq_raw = inr v) :
  exists a g b, mcq_raw = a ++ g ++ b /\ json_loads g = Some v.
Proof.
  unfold parse_mcq_reply in H. destruct (json_loads mcq_raw) as [v1|] eqn:E1.
  - injection H as <-. exists [], mcq_raw, []. rewrite app_nil_r. split; [reflexivity | exact E1].
  - set (c := py_strip mcq_raw) in H.
    set (g := py_slice c _ _) in H.
    destruct (json_loads g) as [v2|] eqn:E2; [|discriminate H]. injection H as <-.
    destruct (py_strip_infix mcq_raw) as (a1 & b1 & H1).
    destruct (py_slice_infix c (py_find 123 c) (py_rfind 125 c + 1)) as (a2 & b2 & H2).
    exists (a1 ++ a2), g, (b2 ++ b1). split; [|exact E2].
    rewrite H1. fold c. rewrite H2 at 1. fold g. rewrite <- !app_assoc. reflexivity.
Qed.

(* ------------------------------------------------------------------ *)
(** ** The asked-questions list of app.py *)

Lemma question_run_asked (upper : text -> text) (s : session) (reply : chat_outcome)
  (choice : nat) (submit try_again : bool) :
  let q := generate_question reply (current_difficulty s) in
  let r := question_run upper s reply choice submit try_again in
  asked_questions r = asked_questions s ++ [qget q (cps "question") (JStr [])] /\
  (questions_history r = questions_history s \/
   exists e, questions_history r = questions_history s ++ [e] /\
             e_question e = qget q (cps "question") (JStr [])).
Proof.
  intros q r. unfold r, question_run. fold q.
  destruct (json_truthy (qget q (cps "error") JNull)).
  - destruct try_again; split; auto.
  - destruct (qget q (cps "options") (JObj [])); try (split; auto; fail).
    destruct submit; [|split; auto].
    destruct (map fst fields) as [|k0 ks]; [split; auto|].
    destruct (qget q (cps "correct_answer") (JStr [])); try (split; auto; fail).
    split; [reflexivity|]. right. eexists. split; reflexivity.
Qed.

Lemma asked_inv_step (upper : text -> text) (s : session) (ev : event) :
  incl (map e_question (questions_history s)) (asked_questions s) /\
  (List.length (questions_history s) <= List.length (asked_questions s))%nat ->
  let s' := step upper s ev in
  incl (map e_question (questions_history s')) (asked_questions s') /\
  (List.length (questions_history s') <= List.length (asked_questions s'))%nat.
Proof.
  intros [Hi Hl] s'. unfold s'.
  destruct ev as [[content|]| |reply choice submit try_again| | |]; simpl.
  - split; [apply incl_nil_l | simpl; lia].
  - split; assumption.
  - destruct (_ && _ && _); split; assumption.
  - destruct (_ && _ && _); [|split; assumption].
    destruct (question_run_asked upper s reply choice submit try_again) as [Ha [Eh | (e & Eh & Ee)]];
      rewrite Ha; [rewrite Eh|rewrite Eh]; split.
    + apply incl_appl. exact Hi.
    + rewrite length_app. lia.
    + rewrite map_app. apply incl_app; [apply incl_appl; exact Hi|].
      simpl. rewrite Ee. apply incl_appr. apply incl_refl.
    + rewrite !length_app. simpl. lia.
  - destruct (_ && _ && _); split; assumption.
  - destruct (_ && _ && _); split; assumption.
  - destruct (assessment_complete s); [|split; assumption].
    split; [apply incl_nil_l | simpl; lia].
Qed.

(** Every answered question of the history is also in
    [asked_questions], the list the question prompt is told to avoid,
    and that list is never shorter than the history: a question is
    recorded there as soon as it is generated, before it is answered. *)
Theorem answered_questions_were_asked (upper : text -> text) (evs : list event) :
  let s := session_after upper evs in
  incl (map e_question (questions_history s)) (asked_questions s) /\
  (List.length (questions_history s) <= List.length (asked_questions s))%nat.
Proof.
  unfold session_after.
  assert (H0 : incl (map e_question (questions_history initial_session))
                    (asked_questions initial_session) /\
               (List.length (questions_history initial_session)
                <= List.length (asked_questions initial_session))%nat)
    by (split; [apply incl_nil_l | simpl; lia]).
  revert H0. generalize initial_session.
  induction evs as [|ev evs IH]; intros s H; simpl; [exact H|].
  apply IH. apply asked_inv_step. exact H.
Qed.

(* ------------------------------------------------------------------ *)
(** ** Properties of the recommendation lines *)

Lemma strip_prefix_app (p s r : text) : strip_prefix p s = Some r -> s = p ++ r.
Proof.
  revert s. induction p as [|x p IH]; intros s H; simpl in H.
  - injection H as ->. reflexivity.
  - destruct s as [|y s]; [discriminate H|].
    destruct (x =? y) eqn:E; [|discriminate H]. apply Z.eqb_eq in E. subst y.
    simpl. f_equal. apply IH, H.
Qed.

Lemma replace_fuel_incl (fuel : nat) (old t : text) (x : Z) :
  In x (replace_fuel fuel old [] t) -> In x t.
Proof.
  revert t. induction fuel as [|f IH]; intros t H; [exact H|]. cbn [replace_fuel] in H.
  destruct t as [|c t']; [destruct H|].
  destruct (strip_prefix old (c :: t')) as [r|] eqn:E.
  - apply strip_prefix_app in E. rewrite E. apply in_or_app. right. apply IH, H.
  - destruct H as [<-|H]; [left; reflexivity | right; apply IH, H].
Qed.

Lemma replace_fuel_removes (fuel : nat) (c : Z) (t : text) :
  (List.length t <= fuel)%nat -> ~ In c (replace_fuel fuel [c] [] t).
Proof.
  revert t. induction fuel as [|f IH]; intros t Hl.
  - destruct t; [intros []|simpl in Hl; lia].
  - cbn [replace_fuel]. destruct t as [|y t']; [intros []|].
    simpl in Hl. cbn [strip_prefix]. destruct (c =? y) eqn:E.
    + apply IH. lia.
    + intros [Ey|H]; [subst y; rewrite Z.eqb_refl in E; discriminate E|].
      apply (IH t'); [lia | exact H].
Qed.

Lemma py_replace_removes (c : Z) (t : text) : ~ In c (py_replace [c] [] t).
Proof. apply replace_fuel_removes. lia. Qed.

Lemma py_replace_first_incl (old t : text) (x : Z) :
  In x (py_replace_first old [] t) -> In x t.
Proof.
  induction t as [|c t IH]; intros H; cbn [py_replace_first] in H;
    destruct (strip_prefix old _) as [r|] eqn:E.
  - apply strip_prefix_app in E. rewrite E. apply in_or_app. right. exact H.
  - destruct H.
  - apply strip_prefix_app in E. rewrite E. apply in_or_app. right. exact H.
  - destruct H as [<-|H]; [left; reflexivity | right; apply IH, H].
Qed.

Lemma py_strip_incl (t : text) (x : Z) : In x (py_strip t) -> In x t.
Proof.
  intros H. destruct (py_strip_infix t) as (a & b & E). rewrite E.
  apply in_or_app. right. apply in_or_app. left. exact H.
Qed.

Lemma split_on_no_sep (c : Z) (t l : text) : In l (split_on c t) -> ~ In c l.
Proof.
  revert l. induction t as [|x t IH]; intros l Hl; simpl in Hl.
  - destruct Hl as [<-|[]]. intros [].
  - destruct (x =? c) eqn:E.
    + destruct Hl as [<-|Hl]; [intros []|apply IH, Hl].
    + apply Z.eqb_neq in E. revert Hl. destruct (split_on c t) as [|l0 ls] eqn:Es; intros Hl.
      * destruct Hl as [<-|[]]. intros [H|[]]. congruence.
      * destruct Hl as [<-|Hl].
        -- intros [H|H]; [congruence|]. apply (IH l0); [left; reflexivity | exact H].
        -- apply IH. right. exact Hl.
Qed.

(** The recommendations section of [generate_pdf_report]: every
    paragraph it adds is a bullet and a space followed by a non-empty
    text that has no asterisk, no bullet and no line break, and that
    neither starts nor ends with whitespace. *)
Theorem suggestion_paragraphs_clean (improvement_suggestions : text) :
  Forall (fun p => exists m, p = 8226 :: 32 :: m /\ m <> [] /\
            ~ In 42 m /\ ~ In 8226 m /\ ~ In 10 m /\
            (forall c r, m = c :: r -> py_isspace c = false) /\
            (forall c r, m = r ++ [c] -> py_isspace c = false))
         (suggestion_paragraphs improvement_suggestions).
Proof.
  unfold suggestion_paragraphs. apply Forall_forall. intros p Hp.
  apply in_flat_map in Hp as (line & Hline & Hp).
  destruct (py_strip line) as [|c0 r0] eqn:Es; [destruct Hp|].
  destruct (clean_suggestion_line (c0 :: r0)) as [|c1 r1] eqn:Ec; [destruct Hp|].
  destruct Hp as [<-|[]]. exists (c1 :: r1).
  assert (Hsub : forall x, In x (c1 :: r1) ->
            In x (py_replace [8226] [] (py_replace [42] [] (py_replace [42; 42] [] (c0 :: r0))))).
  { intros x Hx. rewrite <- Ec in Hx. unfold clean_suggestion_line in Hx.
    apply py_strip_incl, py_replace_first_incl in Hx. exact Hx. }
  assert (Hline' : forall x, In x (c1 :: r1) -> In x line).
  { intros x Hx. apply Hsub in Hx. unfold py_replace in Hx.
    apply replace_fuel_incl, replace_fuel_incl, replace_fuel_incl in Hx.
    rewrite <- Es in Hx. apply py_strip_incl, Hx. }
  split; [reflexivity|]. split; [discriminate|].
  split; [|split; [|split]].
  - intros H. apply Hsub in H. unfold py_replace at 1 in H.
    apply replace_fuel_incl in H. revert H. apply py_replace_removes.
  - intros H. apply Hsub in H. revert H. apply py_replace_removes.
  - intros H. apply Hline' in H. revert H.
    apply (split_on_no_sep 10 (py_strip improvement_suggestions)). exact Hline.
  - rewrite <- Ec. apply py_strip_ends.
Qed.

(* ------------------------------------------------------------------ *)
(** ** Properties of [extract_text_from_pdf] *)

Lemma digits_of_nat_shape (fuel n : nat) (acc : text) :
  exists d, digits_of_nat fuel n acc = d ++ acc /\ Forall (fun c => 48 <= c <= 57) d.
Proof.
  revert n acc. induction fuel as [|f IH]; intros n acc; [exists []; split; [reflexivity|constructor]|].
  pose proof (Nat.mod_upper_bound n 10 ltac:(discriminate)) as Hmb.
  cbn [digits_of_nat]. destruct (Nat.eqb (n / 10) 0).
  - exists [Z.of_nat (n mod 10) + 48]. split; [reflexivity|]. constructor; [lia|constructor].
  - destruct (IH (n / 10)%nat (Z.of_nat (n mod 10) + 48 :: acc)) as (d & Ed & Hd).
    exists (d ++ [Z.of_nat (n mod 10) + 48]). rewrite Ed, <- app_assoc. split; [reflexivity|].
    apply Forall_app. split; [exact Hd|]. constructor; [lia|constructor].
Qed.

Lemma nat_text_digits (n : nat) :
  exists d0 ds, nat_text n = d0 :: ds /\ Forall (fun c => 48 <= c <= 57) (d0 :: ds).
Proof.
  pose proof (Nat.mod_upper_bound n 10 ltac:(discriminate)) as Hmb.
  unfold nat_text. cbn [digits_of_nat]. destruct (Nat.eqb (n / 10) 0).
  - exists (Z.of_nat (n mod 10) + 48), []. split; [reflexivity|]. constructor; [lia|constructor].
  - destruct (digits_of_nat_shape n (n / 10)%nat [Z.of_nat (n mod 10) + 48]) as (d & Ed & Hd).
    rewrite Ed. destruct d as [|d0 ds].
    + exists (Z.of_nat (n mod 10) + 48), []. split; [reflexivity|]. constructor; [lia|constructor].
    + exists d0, (ds ++ [Z.of_nat (n mod 10) + 48]). split; [reflexivity|].
      change (d0 :: ds ++ [Z.of_nat (n mod 10) + 48]) with ((d0 :: ds) ++ [Z.of_nat (n mod 10) + 48]).
      apply Forall_app. split; [exact Hd|]. constructor; [lia|constructor].
Qed.

Lemma not_in_digits (c : Z) (d : text) :
  (c < 48 \/ 57 < c) -> Forall (fun c => 48 <= c <= 57) d -> ~ In c d.
Proof.
  intros Hc Hd Hin. rewrite Forall_forall in Hd. specialize (Hd c Hin). lia.
Qed.

Lemma sub_runs_free (c : Z) (min : nat) (repl h x : text) :
  (1 <= min)%nat -> ~ In c h ->
  sub_runs c min repl 0 (h ++ x) = h ++ sub_runs c min repl 0 x.
Proof.
  intros Hm. induction h as [|y h IH]; intros Hh; [reflexivity|].
  simpl. replace (y =? c) with false
    by (symmetry; apply Z.eqb_neq; intros ->; apply Hh; left; reflexivity).
  unfold flush_run. replace (min <=? 0)%nat with false by (symmetry; apply Nat.leb_gt; lia).
  simpl. rewrite IH; [reflexivity|]. intros H; apply Hh; right; exact H.
Qed.

Lemma sub_runs_run_start (c : Z) (min : nat) (r0 x : text) (k : nat) :
  exists z, sub_runs c min (c :: r0) (S k) x = c :: z.
Proof.
  revert k. induction x as [|y x IH]; intros k; cbn [sub_runs].
  - unfold flush_run. destruct (min <=? S k)%nat; [eexists; reflexivity|].
    simpl. eexists; reflexivity.
  - destruct (y =? c); [apply IH|].
    unfold flush_run. destruct (min <=? S k)%nat; simpl; eexists; reflexivity.
Qed.

Lemma split_on_free (c : Z) (h z : text) :
  ~ In c h -> split_on c (h ++ c :: z) = h :: split_on c z.
Proof.
  induction h as [|y h IH]; intros Hh; simpl.
  - rewrite Z.eqb_refl. reflexivity.
  - replace (y =? c) with false
      by (symmetry; apply Z.eqb_neq; intros ->; apply Hh; left; reflexivity).
    rewrite IH; [reflexivity|]. intros H; apply Hh; right; exact H.
Qed.

Lemma strip_leading_app (u v : text) (c : Z) :
  py_isspace c = false -> exists w, strip_leading (u ++ c :: v) = w ++ c :: v.
Proof.
  intros Hc. induction u as [|y u IH]; simpl.
  - rewrite Hc. exists []. reflexivity.
  - destruct (py_isspace y); [exact IH|]. exists (y :: u). reflexivity.
Qed.

Lemma page_header_shape (n : nat) :
  exists d0 ds, page_header n = cps "--- Page " ++ d0 :: ds ++ cps " ---" /\
                Forall (fun c => 48 <= c <= 57) (d0 :: ds).
Proof.
  destruct (nat_text_digits (n + 1)) as (d0 & ds & E & Hd).
  exists d0, ds. unfold page_header. rewrite E. split; [reflexivity | exact Hd].
Qed.

Lemma page_header_no_nl (n : nat) : ~ In 10 (page_header n).
Proof.
  destruct (page_header_shape n) as (d0 & ds & -> & Hd).
  inversion Hd as [|? ? Hd0 Hds]; subst.
  intros H. apply in_app_or in H as [H|H]; [simpl in H; intuition lia|].
  destruct H as [H|H]; [lia|].
  apply in_app_or in H as [H|H]; [|simpl in H; intuition lia].
  revert H. apply not_in_digits; [lia | exact Hds].
Qed.

Lemma py_strip_id_ends (x y : Z) (m : text) :
  py_isspace x = false -> py_isspace y = false -> py_strip (x :: m ++ [y]) = x :: m ++ [y].
Proof.
  intros Hx Hy. unfold py_strip. cbn [strip_leading]. rewrite Hx.
  replace (rev (x :: m ++ [y])) with (y :: rev (x :: m))
    by (change (x :: m ++ [y]) with ((x :: m) ++ [y]); rewrite rev_app_distr; reflexivity).
  cbn [strip_leading]. rewrite Hy. change (y :: rev (x :: m)) with (rev ([y]) ++ rev (x :: m)).
  rewrite <- rev_app_distr, rev_involutive. reflexivity.
Qed.

(** The two [re.sub] passes leave the header line of a page alone. *)
Lemma sub_runs_header (n : nat) (z : text) :
  let t1 := sub_runs 10 3 [10; 10] 0 (page_header n ++ 10 :: z) in
  exists z2, sub_runs 32 2 [32] 0 t1 = page_header n ++ 10 :: z2.
Proof.
  intros t1. unfold t1.
  rewrite sub_runs_free by (lia || apply page_header_no_nl).
  cbn [sub_runs Z.eqb]. destruct (sub_runs_run_start 10 3 [10] z 0) as [z1 ->].
  destruct (page_header_shape n) as (d0 & ds & Eh & Hd). rewrite Eh.
  inversion Hd as [|? ? Hd0 Hds]; subst.
  assert (H32 : ~ In 32 ds) by (apply not_in_digits; [lia | exact Hds]).
  change (cps "--- Page ") with [45; 45; 45; 32; 80; 97; 103; 101; 32].
  change (cps " ---") with [32; 45; 45; 45].
  cbn [app sub_runs Z.eqb Pos.eqb flush_run Nat.leb repeat].
  replace (d0 =? 32) with false by (symmetry; apply Z.eqb_neq; lia).
  cbn [flush_run Nat.leb repeat app].
  rewrite <- app_assoc. rewrite sub_runs_free by (lia || exact H32).
  cbn [app sub_runs Z.eqb Pos.eqb flush_run Nat.leb repeat].
  exists (sub_runs 32 2 [32] 0 z1). rewrite <- app_assoc. reflexivity.
Qed.

Lemma page_blocks_blank (pages : list text) (k : nat) :
  Forall (fun q => py_strip q = []) pages -> page_blocks k pages = [].
Proof.
  revert k. induction pages as [|p ps IH]; intros k H; [reflexivity|].
  inversion H as [|? ? Hp Hps]; subst. simpl. rewrite Hp. apply IH, Hps.
Qed.

Lemma page_blocks_skip (pre rest : list text) (k : nat) :
  Forall (fun q => py_strip q = []) pre ->
  page_blocks k (pre ++ rest) = page_blocks (k + List.length pre) rest.
Proof.
  revert k. induction pre as [|p ps IH]; intros k H; simpl.
  - rewrite Nat.add_0_r. reflexivity.
  - inversion H as [|? ? Hp Hps]; subst. rewrite Hp, IH by exact Hps. simpl.
    f_equal. lia.
Qed.

(** [extract_text_from_pdf]: a PDF whose pages are all blank gives the
    empty text; otherwise the text starts with the header
    "--- Page k ---" of the first page that is not blank, numbered from 1
    among all pages, blank ones included. *)
Theorem extract_text_first_page (pages : list text) :
  (Forall (fun q => py_strip q = []) pages -> extract_text_from_pdf pages = []) /\
  (forall pre p rest, pages = pre ++ p :: rest ->
   Forall (fun q => py_strip q = []) pre -> py_strip p <> [] ->
   exists y, extract_text_from_pdf pages = page_header (List.length pre) ++ y).
Proof.
  split.
  - intros H. unfold extract_text_from_pdf. rewrite page_blocks_blank by exact H.
    reflexivity.
  - intros pre p rest -> Hpre Hp. unfold extract_text_from_pdf.
    rewrite page_blocks_skip by exact Hpre. cbn [page_blocks Nat.add].
    destruct (py_strip p) as [|c r] eqn:Es; [contradiction|]. cbn [app].
    set (h := page_header (List.length pre)).
    assert (Ej : exists R, py_join [10; 10] ((h ++ nl ++ p) :: page_blocks (S (List.length pre)) rest)
                           = h ++ 10 :: R).
    { destruct (page_blocks (S (List.length pre)) rest) as [|b bs].
      - exists p. reflexivity.
      - exists (p ++ [10; 10] ++ py_join [10; 10] (b :: bs)).
        change (py_join [10; 10] ((h ++ nl ++ p) :: b :: bs))
          with ((h ++ nl ++ p) ++ [10; 10] ++ py_join [10; 10] (b :: bs)).
        rewrite <- app_assoc. reflexivity. }
    destruct Ej as [R ->]. unfold clean_text.
    destruct (sub_runs_header (List.length pre) R) as [z2 Ez]. fold h in Ez. rewrite Ez.
    rewrite split_on_free by apply page_header_no_nl.
    destruct (split_on_pieces 10 z2) as (l & ls & El & _). rewrite El.
    cbn [map]. fold h.
    destruct (page_header_shape (List.length pre)) as (d0 & ds & Eh & Hd).
    assert (Hh0 : exists hm, h = 45 :: hm ++ [45]).
    { fold h in Eh. rewrite Eh. exists ([45; 45; 32; 80; 97; 103; 101; 32] ++ d0 :: ds ++ [32; 45; 45]).
      simpl. rewrite <- app_assoc. reflexivity. }
    destruct Hh0 as [hm Ehm].
    assert (Hh : py_strip h = h) by (rewrite Ehm; apply py_strip_id_ends; reflexivity).
    rewrite Hh.
    change (py_join [10] (h :: py_strip l :: map py_strip ls))
      with (h ++ [10] ++ py_join [10] (py_strip l :: map py_strip ls)).
    set (J := py_join [10] (py_strip l :: map py_strip ls)).
    unfold py_strip. rewrite Ehm. cbn [app strip_leading].
    replace (py_isspace 45) with false by reflexivity.
    assert (Er : rev (45 :: (hm ++ [45]) ++ 10 :: J) = (rev J ++ [10]) ++ 45 :: rev (45 :: hm)).
    { change (45 :: (hm ++ [45]) ++ 10 :: J) with (((45 :: hm) ++ [45]) ++ [10] ++ J).
      rewrite !rev_app_distr. cbn [rev app]. rewrite <- !app_assoc. reflexivity. }
    rewrite Er.
    destruct (strip_leading_app (rev J ++ [10]) (rev (45 :: hm)) 45 eq_refl) as [w Ew].
    rewrite Ew. exists (rev w).
    replace (45 :: rev (45 :: hm)) with (rev ((45 :: hm) ++ [45])) by (rewrite rev_app_distr; reflexivity).
    rewrite rev_app_distr, rev_involutive. simpl. rewrite <- !app_assoc. reflexivity.
Qed.

(* ------------------------------------------------------------------ *)
(** ** Instances of the further properties on concrete inputs *)

Lemma answers_need_new_question_witness :
  (List.length (questions_history
     (fold_left (step ascii_upper) [QuestionRun (ChatOk prose_reply) 0 true false] answered_session))
   <= List.length (questions_history answered_session))%nat.
Proof.
  apply (proj2 (answers_need_new_question ascii_upper answered_session
                  [QuestionRun (ChatOk prose_reply) 0 true false]));
    vm_compute; reflexivity.
Defined.

Lemma completed_assessment_frozen_witness :
  fold_left (step ascii_upper) [QuestionRun (ChatOk prose_reply) 0 true false; NextQuestion]
    (step ascii_upper answered_session FinishAssessment)
  = step ascii_upper answered_session FinishAssessment.
Proof.
  apply (proj1 (completed_assessment_frozen ascii_upper
                  (step ascii_upper answered_session FinishAssessment)
                  [QuestionRun (ChatOk prose_reply) 0 true false; NextQuestion]
                  ltac:(vm_compute; reflexivity) ltac:(vm_compute; reflexivity))).
Defined.

Lemma clean_latin1_witness : clean (cps "abc") = cps "abc".
Proof.
  apply (proj1 (proj2 (proj2 (clean_latin1 (cps "abc"))))).
  cbn. repeat constructor; lia.
Defined.

Lemma upload_overlapping_chunks_witness :
  exists ids chunks, upload (cps "f") [Some (repeat 97 1000)] = inr (ids, chunks) /\
                     List.length chunks = 2%nat.
Proof.
  destruct (proj2 (upload_overlapping_chunks (cps "f") [Some (repeat 97 1000)])
              ltac:(apply Nat.leb_le; vm_compute; reflexivity))
    as (ids & chunks & E & _ & L & _).
  exists ids, chunks. split; [exact E|]. rewrite L. vm_compute. reflexivity.
Defined.

Lemma parse_mcq_reply_brace_fallback_witness :
  parse_mcq_reply prose_wrapped_mcq_reply = inr (JObj [(cps "a", JInt 1)]).
Proof.
  pose proof (parse_mcq_reply_brace_fallback prose_wrapped_mcq_reply
                ltac:(vm_compute; reflexivity)) as P.
  cbv zeta in P. destruct P as [P _].
  destruct (P (cps "Sure: ") (jtext "'a':1") (cps " ok") ltac:(vm_compute; reflexivity)
              ltac:(intros H; vm_compute in H; repeat (destruct H as [H|H]; [discriminate H|]); exact H)
              ltac:(intros H; vm_compute in H; repeat (destruct H as [H|H]; [discriminate H|]); exact H))
    as [_ E].
  rewrite E. vm_compute. reflexivity.
Defined.

Lemma report_topic_lines_spec_witness :
  report_topic_lines text text_eq_dec
    [(cps "T1", false); (cps "T2", false); (cps "T1", false); (cps "T3", true)]
  = [(cps "T1", 2%nat); (cps "T2", 1%nat)] /\
  2%nat = topic_occ text text_eq_dec
            (report_weak_topics text
               [(cps "T1", false); (cps "T2", false); (cps "T1", false); (cps "T3", true)])
            (cps "T1").
Proof.
  split; [vm_compute; reflexivity|].
  apply (proj1 (proj1 (proj2 (report_topic_lines_spec text text_eq_dec
           [(cps "T1", false); (cps "T2", false); (cps "T1", false); (cps "T3", true)]))
           (cps "T1") 2%nat ltac:(vm_compute; left; reflexivity))).
Defined.

Lemma content_summary_truncates_witness :
  get_content_summary (cps "abcdef") 3 = cps "abc...".
Proof.
  destruct (content_summary_truncates (cps "abcdef") 3 ltac:(lia)) as [_ H].
  destruct (H ltac:(vm_compute; reflexivity)) as [E _].
  rewrite E. vm_compute. reflexivity.
Defined.

Lemma content_summary_negative_limit_witness :
  get_content_summary (cps "abcdef") (-2) = cps "abcd...".
Proof.
  rewrite (content_summary_negative_limit (cps "abcdef") (-2) ltac:(lia)).
  vm_compute. reflexivity.
Defined.

Lemma clean_text_spacing_witness :
  clean_text (cps "  a   b  ") = cps "a b" /\ py_isspace 97 = false.
Proof.
  split; [vm_compute; reflexivity|].
  apply (proj1 (proj2 (clean_text_spacing (cps "  a   b  "))) 97 (cps " b")).
  vm_compute. reflexivity.
Defined.

Lemma revise_success_shape_witness :
  exists fields kc m,
    (match revise three_option_reply with inr o => o | inl _ => JNull end)
      = JObj [(cps "analysis", JObj fields)] /\
    dict_get fields (cps "key_concepts") = Some kc /\ json_truthy kc = true /\
    dict_get fields (cps "mcqs") = Some m /\
    ((exists l, m = JArr l /\ List.length l = 10%nat) \/
     (exists s, m = JStr s /\ List.length s = 10%nat)).
Proof.
  apply (revise_success_shape three_option_reply). vm_compute. reflexivity.
Defined.

Lemma parse_json_response_infix_witness :
  exists a g b, fenced_reply = a ++ g ++ b /\
                json_loads g = Some (JObj [(cps "question", JStr (cps "Q"))]).
Proof.
  apply (parse_json_response_infix fenced_reply). vm_compute. reflexivity.
Defined.

Lemma parse_mcq_reply_infix_witness :
  exists a g b, prose_wrapped_mcq_reply = a ++ g ++ b /\
                json_loads g = Some (JObj [(cps "a", JInt 1)]).
Proof.
  apply (parse_mcq_reply_infix prose_wrapped_mcq_reply). vm_compute. reflexivity.
Defined.

Lemma suggestion_paragraphs_clean_witness :
  suggestion_paragraphs (cps "- **Read** chapter 2") = [8226 :: 32 :: cps "Read chapter 2"] /\
  ~ In 42 (cps "Read chapter 2").
Proof.
  split; [vm_compute; reflexivity|].
  pose proof (suggestion_paragraphs_clean (cps "- **Read** chapter 2")) as P.
  rewrite Forall_forall in P.
  destruct (P (8226 :: 32 :: cps "Read chapter 2") ltac:(vm_compute; left; reflexivity))
    as (m & E & _ & H42 & _).
  injection E as <-. exact H42.
Defined.

Lemma extract_text_first_page_witness :
  exists y, extract_text_from_pdf [cps "  "; cps "Hello"] = page_header 1 ++ y.
Proof.
  apply (proj2 (extract_text_first_page [cps "  "; cps "Hello"]) [cps "  "] (cps "Hello") []);
    [reflexivity | constructor; [vm_compute; reflexivity | constructor] | vm_compute; discriminate].
Defined.
